(** * Contact manager: a shallow embedding of [contacts_manager.py]

    The program is a menu loop over one dictionary of contacts that is
    written back to [contacts_data.json] after every change.  The embedding
    follows the source function by function.

    - A Python [str] is a Rocq [string], one [ascii] per character, read as
      the code point of that character; the development covers text whose
      code points are below 256.  On that range [str.lower], [str.strip],
      the regular-expression class [\d] and the JSON encoder are embedded
      exactly.  The literal messages the program prints are kept as the
      bytes of the source file.  Above that range [str.lower] depends on
      the neighbours of a character; the module [Unicode] embeds it on
      lists of code points for the search.
    - The dictionary is insertion ordered, so it is an association list
      with the assignment and deletion of a Python [dict].
    - [input], [print], [datetime.now] and the two files are fields of an
      explicit program state, threaded by a state-and-exception monad: a
      raised exception keeps the mutations made before it. *)

From Stdlib Require Import Bool Arith ZArith Lia List Ascii String DecimalString.
Import ListNotations.

Local Open Scope string_scope.

(* ================================================================== *)
(** * Text *)

Module Text.

Definition code (c : ascii) : nat := nat_of_ascii c.

Definition between (lo hi : nat) (c : ascii) : bool :=
  (lo <=? code c)%nat && (code c <=? hi)%nat.

Definition chr (n : nat) : string := String (ascii_of_nat n) EmptyString.

(** Characters that cannot be typed inside a literal. *)
Definition nl : string := chr 10.
Definition cr : string := chr 13.
Definition dquote : string := chr 34.
Definition backslash : string := chr 92.

Fixpoint filter (p : ascii -> bool) (s : string) : string :=
  match s with
  | EmptyString => EmptyString
  | String c r => if p c then String c (filter p r) else filter p r
  end.

Fixpoint map (f : ascii -> ascii) (s : string) : string :=
  match s with
  | EmptyString => EmptyString
  | String c r => String (f c) (map f r)
  end.

Fixpoint forallb (p : ascii -> bool) (s : string) : bool :=
  match s with
  | EmptyString => true
  | String c r => p c && forallb p r
  end.

Fixpoint existsb (p : ascii -> bool) (s : string) : bool :=
  match s with
  | EmptyString => false
  | String c r => p c || existsb p r
  end.

Fixpoint rev_onto (acc s : string) : string :=
  match s with
  | EmptyString => acc
  | String c r => rev_onto (String c acc) r
  end.

Definition rev (s : string) : string := rev_onto EmptyString s.

Fixpoint repeat (s : string) (n : nat) : string :=
  match n with
  | O => EmptyString
  | S k => s ++ repeat s k
  end.

(** Truth value of a [str]: the empty string is false. *)
Definition nonempty (s : string) : bool :=
  match s with EmptyString => false | String _ _ => true end.

(** [str.isspace] on one character: U+0009..U+000D, U+001C..U+0020,
    U+0085 and U+00A0. *)
Definition isspace (c : ascii) : bool :=
  between 9 13 c || between 28 32 c || (code c =? 133)%nat || (code c =? 160)%nat.

Fixpoint lstrip (s : string) : string :=
  match s with
  | EmptyString => EmptyString
  | String c r => if isspace c then lstrip r else s
  end.

(** [str.strip()] with no argument. *)
Definition strip (s : string) : string := rev (lstrip (rev (lstrip s))).

(** [str.lower] on text below U+0100, where it acts on each character
    by itself: A..Z and U+00C0..U+00DE except the multiplication sign
    U+00D7 move up by 32.  Above U+00FF it is no character map; see
    [Unicode.lower]. *)
Definition lower_char (c : ascii) : ascii :=
  if between 65 90 c || (between 192 222 c && negb (code c =? 215)%nat)
  then ascii_of_nat (code c + 32)
  else c.

Definition lower (s : string) : string := map lower_char s.

(** The class [\d]: the only decimal digits below U+0100 are 0..9. *)
Definition isdigit (c : ascii) : bool := between 48 57 c.

(** The operator [needle in hay] on strings. *)
Fixpoint contains (needle hay : string) : bool :=
  prefix needle hay ||
  match hay with
  | EmptyString => false
  | String _ r => contains needle r
  end.

(** [re.sub(cls, repl, s)] for a pattern that is one character class:
    every character of the class is replaced by [repl]. *)
Fixpoint re_sub_class (cls : ascii -> bool) (repl s : string) : string :=
  match s with
  | EmptyString => EmptyString
  | String c r =>
      if cls c then repl ++ re_sub_class cls repl r
      else String c (re_sub_class cls repl r)
  end.

End Text.

(* ================================================================== *)
(** * Text beyond U+00FF

    Above U+00FF [str.lower] does not act on each character by itself:
    the capital sigma U+03A3 becomes the final sigma U+03C2 at the end of
    a word and U+03C3 elsewhere.  This module embeds [str.lower] and the
    operator [in] on lists of code points, with the tables of two
    blocks: Basic Latin, and the Greek letters U+0391..U+03C9. *)

Module Unicode.

Definition text : Type := list N.

Definition within (lo hi c : N) : bool := (lo <=? c)%N && (c <=? hi)%N.



(** The property Cased: the letters. *)
Definition cased (c : N) : bool :=
  within 65 90 c || within 97 122 c ||
  within 913 929 c || within 931 937 c || within 945 969 c.

(** The property Case_Ignorable: apostrophe, full stop, colon,
    circumflex and grave accent. *)
Definition case_ignorable (c : N) : bool :=
  (c =? 39)%N || (c =? 46)%N || (c =? 58)%N || (c =? 94)%N || (c =? 96)%N.

(** The lower-case mapping of a code point other than the capital sigma. *)
Definition lower_char (c : N) : N :=
  if within 65 90 c || within 913 929 c || within 931 937 c
  then (c + 32)%N else c.

(** The first code point of [s] that is not case-ignorable. *)
Fixpoint skip_ignorable (s : text) : option N :=
  match s with
  | [] => None
  | c :: r => if case_ignorable c then skip_ignorable r else Some c
  end.

(** The sigma stands at the end of a word: a letter before it, none
    after it, case-ignorable code points skipped on both sides.
    [before] is the text before the sigma, the nearest code point
    first. *)
Definition final_sigma (before after : text) : bool :=
  match skip_ignorable before with
  | Some c =>
      cased c &&
      match skip_ignorable after with
      | Some c' => negb (cased c')
      | None => true
      end
  | None => false
  end.

Fixpoint lower_from (before s : text) : text :=
  match s with
  | [] => []
  | c :: r =>
      (if (c =? 931)%N
       then (if final_sigma before r then 962%N else 963%N)
       else lower_char c)
      :: lower_from (c :: before) r
  end.

(** [str.lower] *)
Definition lower (s : text) : text := lower_from [] s.

Fixpoint prefix (a b : text) : bool :=
  match a, b with
  | [], _ => true
  | x :: a', y :: b' => (x =? y)%N && prefix a' b'
  | _ :: _, [] => false
  end.

(** The operator [needle in hay]. *)
Fixpoint contains (needle hay : text) : bool :=
  prefix needle hay ||
  match hay with
  | [] => false
  | _ :: r => contains needle r
  end.



End Unicode.

(* ================================================================== *)
(** * Validations *)

(** [validate_phone]: the pair [(True, digits)] or [(False, None)]. *)
Definition validate_phone (phone : string) : bool * option string :=
  let digits := Text.re_sub_class (fun c => negb (Text.isdigit c)) "" phone in
  if (10 <=? length digits)%nat && (length digits <=? 15)%nat
  then (true, Some digits)
  else (false, None).

(** The digit-only projection of a string, as the specification words it:
    the string with every non-digit character deleted. *)
Definition digit_projection (s : string) : string := Text.filter Text.isdigit s.

(** A small regular-expression matcher (Brzozowski derivatives), enough
    for the pattern of [validate_email]. *)
Module Regex.

Inductive t : Type :=
| Empty
| Eps
| Class (p : ascii -> bool)
| Cat (r1 r2 : t)
| Alt (r1 r2 : t)
| Star (r : t).

Fixpoint nullable (r : t) : bool :=
  match r with
  | Empty => false
  | Eps => true
  | Class _ => false
  | Cat r1 r2 => nullable r1 && nullable r2
  | Alt r1 r2 => nullable r1 || nullable r2
  | Star _ => true
  end.

Fixpoint deriv (c : ascii) (r : t) : t :=
  match r with
  | Empty => Empty
  | Eps => Empty
  | Class p => if p c then Eps else Empty
  | Cat r1 r2 =>
      if nullable r1 then Alt (Cat (deriv c r1) r2) (deriv c r2)
      else Cat (deriv c r1) r2
  | Alt r1 r2 => Alt (deriv c r1) (deriv c r2)
  | Star r1 => Cat (deriv c r1) (Star r1)
  end.

(** The whole string belongs to the language of [r]. *)
Fixpoint fullmatch (r : t) (s : string) : bool :=
  match s with
  | EmptyString => nullable r
  | String c rest => fullmatch (deriv c r) rest
  end.

Definition plus (r : t) : t := Cat r (Star r).
Definition char (n : nat) : t := Class (fun c => (Text.code c =? n)%nat).

(** [re.match('^' + r + '$', s)]: without [re.MULTILINE] the anchor [$]
    holds at the end of the string and just before a final newline. *)
Definition match_anchored (r : t) (s : string) : bool :=
  fullmatch (Cat r (Alt Eps (char 10))) s.

End Regex.

Definition ascii_letter (c : ascii) : bool :=
  Text.between 97 122 c || Text.between 65 90 c.

(** The class [[a-zA-Z0-9._%+-]]. *)
Definition email_local_char (c : ascii) : bool :=
  ascii_letter c || Text.between 48 57 c ||
  List.existsb (fun n => (Text.code c =? n)%nat) [46; 95; 37; 43; 45]%nat.

(** The class [[a-zA-Z0-9.-]]. *)
Definition email_domain_char (c : ascii) : bool :=
  ascii_letter c || Text.between 48 57 c ||
  List.existsb (fun n => (Text.code c =? n)%nat) [46; 45]%nat.

(** [^[a-zA-Z0-9._%+-]+@[a-zA-Z0-9.-]+\.[a-zA-Z]{2,}$] *)
Definition email_pattern : Regex.t :=
  Regex.Cat (Regex.plus (Regex.Class email_local_char))
    (Regex.Cat (Regex.char 64)
       (Regex.Cat (Regex.plus (Regex.Class email_domain_char))
          (Regex.Cat (Regex.char 46)
             (Regex.Cat (Regex.Class ascii_letter)
                (Regex.plus (Regex.Class ascii_letter)))))).

Definition validate_email (email : string) : bool :=
  Regex.match_anchored email_pattern email.

(* ================================================================== *)
(** * The contact dictionary *)

(** An insertion-ordered Python [dict] with [str] keys. *)
Module Dict.
Section Dict.
Context {V : Type}.

Definition t := list (string * V).

Fixpoint get (k : string) (d : t) : option V :=
  match d with
  | [] => None
  | (k', v) :: r => if String.eqb k' k then Some v else get k r
  end.

(** [k in d] *)
Definition mem (k : string) (d : t) : bool :=
  match get k d with Some _ => true | None => false end.

(** [d[k] = v]: an existing key keeps its place, a new one goes last. *)
Fixpoint set (k : string) (v : V) (d : t) : t :=
  match d with
  | [] => [(k, v)]
  | (k', v') :: r =>
      if String.eqb k' k then (k', v) :: r else (k', v') :: set k v r
  end.

(** [del d[k]] *)
Fixpoint del (k : string) (d : t) : t :=
  match d with
  | [] => []
  | (k', v') :: r => if String.eqb k' k then r else (k', v') :: del k r
  end.

Definition keys (d : t) : list string := List.map fst d.
Definition values (d : t) : list V := List.map snd d.

(** What every [dict] satisfies: no key occurs twice. *)
Definition wf (d : t) : Prop := NoDup (keys d).

(** [dict(pairs)] *)
Definition of_pairs (pairs : list (string * V)) : t :=
  fold_left (fun d kv => set (fst kv) (snd kv) d) pairs [].

End Dict.
Arguments t : clear implicits.
End Dict.

(** One contact record: the inner dictionary with its six fixed keys.
    [phone], [email] and [address] hold a [str] or [None]. *)
Record contact : Type := mkContact {
  phone : option string;
  email : option string;
  address : option string;
  group : string;
  created_at : string;
  updated_at : string
}.

Definition set_phone (v : option string) (c : contact) : contact :=
  mkContact v (email c) (address c) (group c) (created_at c) (updated_at c).
Definition set_email (v : option string) (c : contact) : contact :=
  mkContact (phone c) v (address c) (group c) (created_at c) (updated_at c).
Definition set_address (v : option string) (c : contact) : contact :=
  mkContact (phone c) (email c) v (group c) (created_at c) (updated_at c).
Definition set_group (v : string) (c : contact) : contact :=
  mkContact (phone c) (email c) (address c) v (created_at c) (updated_at c).
Definition set_updated_at (v : string) (c : contact) : contact :=
  mkContact (phone c) (email c) (address c) (group c) (created_at c) v.

Definition contacts_t := Dict.t contact.

(** Truth value of a field that is a [str] or [None]. *)
Definition truthy (o : option string) : bool :=
  match o with Some s => Text.nonempty s | None => false end.

(** [str(x)] inside an f-string, for a field that is a [str] or [None]. *)
Definition str_of_field (o : option string) : string :=
  match o with Some s => s | None => "None" end.

(* ================================================================== *)
(** * JSON text, as the [json] module writes and reads it *)

(** The Python values the storage file holds: [None], [str] and [dict]
    with [str] keys. *)
#[local] Set Warnings "-register-all".
Inductive pyvalue : Type :=
| PNone
| PStr (s : string)
| PDict (items : list (string * pyvalue)).

Definition py_of_field (o : option string) : pyvalue :=
  match o with Some s => PStr s | None => PNone end.

(** The record literal of [add_contact], key by key. *)
Definition py_of_contact (c : contact) : pyvalue :=
  PDict [("phone", py_of_field (phone c));
         ("email", py_of_field (email c));
         ("address", py_of_field (address c));
         ("group", PStr (group c));
         ("created_at", PStr (created_at c));
         ("updated_at", PStr (updated_at c))].

Definition py_of_contacts (d : contacts_t) : pyvalue :=
  PDict (List.map (fun kv => (fst kv, py_of_contact (snd kv))) d).

Module Json.

Definition hex_digit (n : nat) : ascii :=
  if (n <? 10)%nat then ascii_of_nat (48 + n) else ascii_of_nat (87 + n).

(** ['\\u{0:04x}'.format(n)] for a code point below 256. *)
Definition escape_u (n : nat) : string :=
  Text.backslash ++ "u00" ++
  String (hex_digit (n / 16)) (String (hex_digit (n mod 16)) EmptyString).

(** The replacement of one character by [py_encode_basestring_ascii]:
    [ESCAPE_DCT] first, then the [\uXXXX] form for what is outside
    the range from space to tilde. *)
Definition escape_char (c : ascii) : string :=
  let n := Text.code c in
  if (n =? 92)%nat then Text.backslash ++ Text.backslash
  else if (n =? 34)%nat then Text.backslash ++ Text.dquote
  else if (n =? 8)%nat then Text.backslash ++ "b"
  else if (n =? 12)%nat then Text.backslash ++ "f"
  else if (n =? 10)%nat then Text.backslash ++ "n"
  else if (n =? 13)%nat then Text.backslash ++ "r"
  else if (n =? 9)%nat then Text.backslash ++ "t"
  else if Text.between 32 126 c then String c EmptyString
  else escape_u n.

Fixpoint escape (s : string) : string :=
  match s with
  | EmptyString => EmptyString
  | String c r => escape_char c ++ escape r
  end.

Definition encode_basestring_ascii (s : string) : string :=
  Text.dquote ++ escape s ++ Text.dquote.

Definition indent_unit : string := Text.repeat " " 4.

(** [_iterencode] with [indent=4]: the item separator is a comma, the key
    separator a colon and a space, an empty dictionary is [{}]. *)
Fixpoint iterencode (level : nat) (v : pyvalue) {struct v} : string :=
  match v with
  | PNone => "null"
  | PStr s => encode_basestring_ascii s
  | PDict [] => "{}"
  | PDict items =>
      let newline_indent := Text.nl ++ Text.repeat indent_unit (S level) in
      let item_separator := "," ++ newline_indent in
      "{" ++ newline_indent ++
      (fix members (first : bool) (l : list (string * pyvalue)) : string :=
         match l with
         | [] => Text.nl ++ Text.repeat indent_unit level ++ "}"
         | (key, value) :: rest =>
             (if first then "" else item_separator) ++
             encode_basestring_ascii key ++ ": " ++
             iterencode (S level) value ++ members false rest
         end) true items
  end.

(** [json.dump(obj, f, indent=4)]: the text written to [f]. *)
Definition dumps (v : pyvalue) : string := iterencode 0 v.

(** ** Decoding *)

Definition is_ws (c : ascii) : bool :=
  List.existsb (fun n => (Text.code c =? n)%nat) [32; 9; 10; 13]%nat.

(** [WHITESPACE.match(s, end).end()] *)
Fixpoint skip_ws (s : string) : string :=
  match s with
  | EmptyString => EmptyString
  | String c r => if is_ws c then skip_ws r else s
  end.

Definition hex_value (c : ascii) : option nat :=
  let n := Text.code c in
  if Text.between 48 57 c then Some (n - 48)
  else if Text.between 97 102 c then Some (n - 87)
  else if Text.between 65 70 c then Some (n - 55)
  else None.

(** The table [BACKSLASH] of the decoder. *)
Definition unescape (esc : ascii) : option ascii :=
  let n := Text.code esc in
  if (n =? 34)%nat || (n =? 92)%nat || (n =? 47)%nat then Some esc
  else if (n =? 98)%nat then Some (ascii_of_nat 8)
  else if (n =? 102)%nat then Some (ascii_of_nat 12)
  else if (n =? 110)%nat then Some (ascii_of_nat 10)
  else if (n =? 114)%nat then Some (ascii_of_nat 13)
  else if (n =? 116)%nat then Some (ascii_of_nat 9)
  else None.

Definition cons_result (c : ascii) (r : option (string * string))
  : option (string * string) :=
  match r with
  | Some (x, rest) => Some (String c x, rest)
  | None => None
  end.

(** [scanstring], strict, from the character after the opening quote:
    the decoded string and what follows the closing quote.  An escape
    [\uXXXX] takes four hexadecimal digits; [None] is a decoding error,
    and also an escape that names a code point from 256 on, which this
    development does not cover. *)
Fixpoint scanstring (s : string) : option (string * string) :=
  match s with
  | EmptyString => None
  | String c r =>
      if (Text.code c =? 34)%nat then Some (EmptyString, r)
      else if (Text.code c =? 92)%nat then
        match r with
        | EmptyString => None
        | String esc r1 =>
            if (Text.code esc =? 117)%nat then
              match r1 with
              | String h1 (String h2 (String h3 (String h4 r2))) =>
                  match hex_value h1, hex_value h2, hex_value h3, hex_value h4 with
                  | Some a, Some b, Some c3, Some d =>
                      let uni := (((a * 16 + b) * 16 + c3) * 16 + d)%nat in
                      if (uni <? 256)%nat
                      then cons_result (ascii_of_nat uni) (scanstring r2)
                      else None
                  | _, _, _, _ => None
                  end
              | _ => None
              end
            else
              match unescape esc with
              | Some ch => cons_result ch (scanstring r1)
              | None => None
              end
        end
      else if (Text.code c <? 32)%nat then None
      else cons_result c (scanstring r)
  end.

(** [scan_once] and the loop of [JSONObject], on the part of JSON that
    holds [null], strings and objects; [None] is a decoding error (or a
    number, an array, [true] or [false], which the storage file of this
    program never holds).  [members] starts after the opening quote of a
    key, with the pairs read so far.  The fuel bounds the number of
    values and keys read. *)
Fixpoint scan_once (fuel : nat) (s : string) {struct fuel}
  : option (pyvalue * string) :=
  match fuel with
  | O => None
  | S k =>
      match s with
      | EmptyString => None
      | String c r =>
          if (Text.code c =? 34)%nat then
            match scanstring r with
            | Some (x, rest) => Some (PStr x, rest)
            | None => None
            end
          else if (Text.code c =? 123)%nat then
            match skip_ws r with
            | String c1 r1 =>
                if (Text.code c1 =? 125)%nat then Some (PDict [], r1)
                else if (Text.code c1 =? 34)%nat then members k r1 []
                else None
            | EmptyString => None
            end
          else
            match r with
            | String c2 (String c3 (String c4 rest)) =>
                if ((Text.code c =? 110) && (Text.code c2 =? 117) &&
                    (Text.code c3 =? 108) && (Text.code c4 =? 108))%nat
                then Some (PNone, rest)
                else None
            | _ => None
            end
      end
  end

with members (fuel : nat) (s : string) (pairs : list (string * pyvalue))
  {struct fuel} : option (pyvalue * string) :=
  match fuel with
  | O => None
  | S k =>
      match scanstring s with
      | None => None
      | Some (key, s1) =>
          match skip_ws s1 with
          | String colon s2 =>
              if (Text.code colon =? 58)%nat then
                match scan_once k (skip_ws s2) with
                | None => None
                | Some (value, s3) =>
                    let pairs := (pairs ++ [(key, value)])%list in
                    match skip_ws s3 with
                    | String nextchar s4 =>
                        if (Text.code nextchar =? 125)%nat
                        then Some (PDict (Dict.of_pairs pairs), s4)
                        else if (Text.code nextchar =? 44)%nat then
                          match skip_ws s4 with
                          | String q s5 =>
                              if (Text.code q =? 34)%nat then members k s5 pairs
                              else None
                          | EmptyString => None
                          end
                        else None
                    | EmptyString => None
                    end
                end
              else None
          | EmptyString => None
          end
      end
  end.

(** [json.load(f)]: one value between optional white space, and nothing
    after it. *)
Definition loads (text : string) : option pyvalue :=
  match scan_once (S (length text)) (skip_ws text) with
  | Some (v, rest) =>
      match skip_ws rest with
      | EmptyString => Some v
      | String _ _ => None
      end
  | None => None
  end.

End Json.

(* ================================================================== *)
(** * Dates and times *)

Local Open Scope Z_scope.

(** A naive [datetime]. *)
Record datetime : Type := mkDatetime {
  year : Z; month : Z; day : Z;
  hour : Z; minute : Z; second : Z; microsecond : Z
}.

Module Datetime.

Definition is_leap (y : Z) : bool :=
  (y mod 4 =? 0) && (negb (y mod 100 =? 0) || (y mod 400 =? 0)).

Definition days_before_year (y : Z) : Z :=
  let y1 := y - 1 in y1 * 365 + y1 / 4 - y1 / 100 + y1 / 400.

Definition days_in_month (y m : Z) : Z :=
  if (m =? 2) && is_leap y then 29
  else nth (Z.to_nat m) [0; 31; 28; 31; 30; 31; 30; 31; 31; 30; 31; 30; 31] 0.

Definition days_before_month (y m : Z) : Z :=
  nth (Z.to_nat m) [0; 0; 31; 59; 90; 120; 151; 181; 212; 243; 273; 304; 334] 0
  + (if (2 <? m) && is_leap y then 1 else 0).

Definition ymd2ord (y m d : Z) : Z :=
  days_before_year y + days_before_month y m + d.

Definition toordinal (t : datetime) : Z := ymd2ord (year t) (month t) (day t).

(** The checks of the [datetime] constructor. *)
Definition valid (t : datetime) : bool :=
  (1 <=? year t) && (year t <=? 9999) &&
  (1 <=? month t) && (month t <=? 12) &&
  (1 <=? day t) && (day t <=? days_in_month (year t) (month t)) &&
  (0 <=? hour t) && (hour t <=? 23) &&
  (0 <=? minute t) && (minute t <=? 59) &&
  (0 <=? second t) && (second t <=? 59) &&
  (0 <=? microsecond t) && (microsecond t <=? 999999).

(** A normalized [timedelta]. *)
Record timedelta : Type := mkTimedelta { days : Z; seconds : Z; microseconds : Z }.

(** [timedelta(days, seconds, microseconds)]: the carries of the
    constructor, with floor division. *)
Definition make_timedelta (d s us : Z) : timedelta :=
  let s := s + us / 1000000 in
  let us := us mod 1000000 in
  let d := d + s / 86400 in
  let s := s mod 86400 in
  mkTimedelta d s us.

(** [a - b] on two naive datetimes. *)
Definition sub (a b : datetime) : timedelta :=
  let secs1 := second a + minute a * 60 + hour a * 3600 in
  let secs2 := second b + minute b * 60 + hour b * 3600 in
  make_timedelta (toordinal a - toordinal b) (secs1 - secs2)
                 (microsecond a - microsecond b).

Definition digit (n : Z) : ascii := ascii_of_nat (48 + Z.to_nat n).

(** The last [w] decimal digits of [n]: what [%0wd] prints for a
    non-negative [n] below [10 ^ w]. *)
Fixpoint zero_padded (w : nat) (n : Z) : string :=
  match w with
  | O => EmptyString
  | S k => (zero_padded k (n / 10) ++ String (digit (n mod 10)) EmptyString)%string
  end.

(** [isoformat()] of a naive datetime: the fraction is printed only when
    the microseconds are not zero. *)
Definition isoformat (t : datetime) : string :=
  (zero_padded 4 (year t) ++ "-" ++ zero_padded 2 (month t) ++ "-" ++
   zero_padded 2 (day t) ++ "T" ++
   zero_padded 2 (hour t) ++ ":" ++ zero_padded 2 (minute t) ++ ":" ++
   zero_padded 2 (second t) ++
   (if (microsecond t =? 0)%Z then "" else "." ++ zero_padded 6 (microsecond t)))%string.

(** Reads exactly [w] decimal digits. *)
Fixpoint read_digits (w : nat) (acc : Z) (s : string) : option (Z * string) :=
  match w with
  | O => Some (acc, s)
  | S k =>
      match s with
      | String c r =>
          if Text.isdigit c
          then read_digits k (acc * 10 + (Z.of_nat (Text.code c) - 48)) r
          else None
      | EmptyString => None
      end
  end.

Definition expect (n : nat) (s : string) : option string :=
  match s with
  | String c r => if (Text.code c =? n)%nat then Some r else None
  | EmptyString => None
  end.

Definition skip_char (s : string) : option string :=
  match s with String _ r => Some r | EmptyString => None end.

Definition bind {A B} (o : option A) (f : A -> option B) : option B :=
  match o with Some a => f a | None => None end.

(** [datetime.fromisoformat] on the two layouts that [isoformat] gives a
    naive datetime, [YYYY-MM-DD?HH:MM:SS] and the same followed by a
    six-digit fraction; any character may stand between date and time.
    [None] stands for the [ValueError] of the source.  (Other layouts
    that newer interpreters accept are not covered.) *)
Definition fromisoformat (s : string) : option datetime :=
  bind (read_digits 4 0 s) (fun '(y, s) =>
  bind (expect 45 s) (fun s =>
  bind (read_digits 2 0 s) (fun '(mo, s) =>
  bind (expect 45 s) (fun s =>
  bind (read_digits 2 0 s) (fun '(d, s) =>
  bind (skip_char s) (fun s =>
  bind (read_digits 2 0 s) (fun '(h, s) =>
  bind (expect 58 s) (fun s =>
  bind (read_digits 2 0 s) (fun '(mi, s) =>
  bind (expect 58 s) (fun s =>
  bind (read_digits 2 0 s) (fun '(sec, s) =>
  bind (match s with
        | EmptyString => Some 0
        | _ => bind (expect 46 s) (fun s =>
               bind (read_digits 6 0 s) (fun '(us, s) =>
               match s with EmptyString => Some us | _ => None end))
        end) (fun us =>
  let t := mkDatetime y mo d h mi sec us in
  if valid t then Some t else None)))))))))))).

End Datetime.

Local Close Scope Z_scope.

(* ================================================================== *)
(** * Program state and effects *)

(** What the program writes on the terminal: the text of a [print] call,
    or the prompt of an [input] call. *)
Inductive output : Type :=
| Print (text : string)
| Prompt (text : string).

(** The dictionary that [main] hands to every handler, the lines still to
    be read from the terminal, what was written to it, the contents of
    [contacts_data.json] and [contacts.csv] when they exist, and the
    clock: [clock n] is what the [n]-th call of [datetime.now] returns. *)
Record state : Type := mkState {
  contacts : contacts_t;
  stdin : list string;
  stdout : list output;
  storage_file : option string;
  csv_file : option string;
  clock : nat -> datetime;
  ticks : nat
}.

Inductive exn : Type :=
| EOFError       (* [input] at the end of the terminal input *)
| KeyError
| ValueError
| JSONDecodeError
| Diverged.      (* a loop that ran out of the fuel of the embedding *)

Inductive outcome (A : Type) : Type :=
| Return (a : A)
| Raise (e : exn).
Arguments Return {A} a.
Arguments Raise {A} e.

Definition Prog (A : Type) : Type := state -> outcome A * state.

Definition ret {A} (a : A) : Prog A := fun s => (Return a, s).

Definition raise {A} (e : exn) : Prog A := fun s => (Raise e, s).

Definition bind {A B} (m : Prog A) (k : A -> Prog B) : Prog B :=
  fun s =>
    match m s with
    | (Return a, s') => k a s'
    | (Raise e, s') => (Raise e, s')
    end.

Declare Scope prog_scope.
Delimit Scope prog_scope with prog.
Bind Scope prog_scope with Prog.
Notation "x <- m ;; k" := (bind m (fun x => k))
  (at level 61, m at next level, right associativity) : prog_scope.
Notation "m ;; k" := (bind m (fun _ => k))
  (at level 61, right associativity) : prog_scope.
Local Open Scope prog_scope.

Definition print (text : string) : Prog unit :=
  fun s => (Return tt,
            mkState (contacts s) (stdin s) (stdout s ++ [Print text])%list
                    (storage_file s) (csv_file s) (clock s) (ticks s)).

(** [input(prompt)]: the line without its newline, or [EOFError]. *)
Definition input (prompt : string) : Prog string :=
  fun s =>
    let out := (stdout s ++ [Prompt prompt])%list in
    match stdin s with
    | [] => (Raise EOFError,
             mkState (contacts s) [] out (storage_file s) (csv_file s)
                     (clock s) (ticks s))
    | line :: rest =>
        (Return line,
         mkState (contacts s) rest out (storage_file s) (csv_file s)
                 (clock s) (ticks s))
    end.

(** [datetime.now()] *)
Definition now : Prog datetime :=
  fun s => (Return (clock s (ticks s)),
            mkState (contacts s) (stdin s) (stdout s) (storage_file s)
                    (csv_file s) (clock s) (S (ticks s))).

Definition get_contacts : Prog contacts_t := fun s => (Return (contacts s), s).

Definition put_contacts (d : contacts_t) : Prog unit :=
  fun s => (Return tt,
            mkState d (stdin s) (stdout s) (storage_file s) (csv_file s)
                    (clock s) (ticks s)).

(** Opening [contacts_data.json] for writing and dumping [text] into it,
    on a disk that takes the file: an [OSError] of [open] or of the dump
    is not embedded, so this says what a save that succeeds leaves. *)
Definition write_storage (text : string) : Prog unit :=
  fun s => (Return tt,
            mkState (contacts s) (stdin s) (stdout s) (Some text) (csv_file s)
                    (clock s) (ticks s)).

Definition read_storage : Prog (option string) :=
  fun s => (Return (storage_file s), s).

(** Opening [contacts.csv] for writing: the file is created or emptied.
    As for [write_storage], an [OSError] of [open] is not embedded. *)
Definition open_csv : Prog unit :=
  fun s => (Return tt,
            mkState (contacts s) (stdin s) (stdout s) (storage_file s)
                    (Some "") (clock s) (ticks s)).

Definition append_csv (text : string) : Prog unit :=
  fun s => (Return tt,
            mkState (contacts s) (stdin s) (stdout s) (storage_file s)
                    (Some (match csv_file s with Some old => old | None => "" end
                           ++ text))
                    (clock s) (ticks s)).

(** [contacts[name][field] = value], written as the change [f] of the
    record.  Every record is built afresh by [add_contact] or by the JSON
    decoder and stored under one key only, so no two keys share one. *)
Definition modify_record (name : string) (f : contact -> contact) : Prog unit :=
  d <- get_contacts ;;
  match Dict.get name d with
  | Some info => put_contacts (Dict.set name (f info) d)
  | None => raise KeyError
  end.

(** A [for] loop over a list, threading the variables it assigns. *)
Fixpoint for_each {A S} (l : list A) (acc : S) (body : A -> S -> Prog S)
  : Prog S :=
  match l with
  | [] => ret acc
  | x :: r => acc' <- body x acc ;; for_each r acc' body
  end.

(** [while True:] around a body that either leaves with [break]
    ([Some]) or goes round again ([None]). *)
Fixpoint iterate {A} (fuel : nat) (body : Prog (option A)) : Prog A :=
  match fuel with
  | O => raise Diverged
  | S k =>
      r <- body ;;
      match r with
      | Some a => ret a
      | None => iterate k body
      end
  end.

(** The loops of the program read one line in every round, so one more
    round than there are lines left always reaches [break] or
    [EOFError]. *)
Definition while_true {A} (body : Prog (option A)) : Prog A :=
  fun s => iterate (S (List.length (stdin s))) body s.

Definition str_of_nat (n : nat) : string :=
  NilZero.string_of_uint (Nat.to_uint n).

(* ================================================================== *)
(** * File handling *)

Definition save_contacts : Prog unit :=
  d <- get_contacts ;;
  write_storage (Json.dumps (py_of_contacts d)) ;;
  print "✅ Contacts saved to contacts_data.json".

(** [load_contacts] returns what the JSON decoder built. *)
Definition load_contacts : Prog pyvalue :=
  f <- read_storage ;;
  match f with
  | Some text =>
      match Json.loads text with
      | Some v => ret v
      | None => raise JSONDecodeError
      end
  | None =>
      print (Text.nl ++ "✅ No existing contacts file found. Starting fresh." ++ Text.nl) ;;
      ret (PDict [])
  end.

(* ================================================================== *)
(** * Core functions *)

Definition add_contact : Prog unit :=
  print (Text.nl ++ "--- ADD NEW CONTACT ---") ;;
  name <- while_true (
    line <- input "Enter contact name: " ;;
    let name := Text.strip line in
    if Text.nonempty name then ret (Some name)
    else print "Name cannot be empty!" ;; ret None) ;;
  cleaned <- while_true (
    line <- input "Enter phone number: " ;;
    let phone := Text.strip line in
    let '(valid, cleaned) := validate_phone phone in
    if valid then ret (Some cleaned)
    else print "Invalid phone number!" ;; ret None) ;;
  email <- while_true (
    line <- input "Enter email (optional, press Enter to skip): " ;;
    let email := Text.strip line in
    if negb (Text.nonempty email) || validate_email email then ret (Some email)
    else print "Invalid email format!" ;; ret None) ;;
  line <- input "Enter address (optional): " ;;
  let address := Text.strip line in
  line <- input "Enter group (Friends/Work/Family/Other): " ;;
  let group := if Text.nonempty (Text.strip line) then Text.strip line else "Other" in
  created <- now ;;
  updated <- now ;;
  d <- get_contacts ;;
  put_contacts (Dict.set name
    (mkContact cleaned
               (if Text.nonempty email then Some email else None)
               (if Text.nonempty address then Some address else None)
               group
               (Datetime.isoformat created)
               (Datetime.isoformat updated)) d) ;;
  print ("✅ Contact '" ++ name ++ "' added successfully!") ;;
  save_contacts.

Definition view_all_contacts : Prog unit :=
  d <- get_contacts ;;
  print (Text.nl ++ "--- ALL CONTACTS (" ++ str_of_nat (List.length d) ++ " total) ---") ;;
  print (Text.repeat "=" 60) ;;
  match d with
  | [] => print "No contacts available."
  | _ =>
      for_each d tt (fun '(name, info) _ =>
        print ("👤 " ++ name) ;;
        print ("   📞 " ++ str_of_field (phone info)) ;;
        (if truthy (email info)
         then print ("   📧 " ++ str_of_field (email info)) else ret tt) ;;
        print ("   👥 " ++ group info) ;;
        print (Text.repeat "-" 40))
  end.

(** The first loop of [search_contact]: the dictionary [results]. *)
Definition search_results (term : string) (d : contacts_t) : contacts_t :=
  fold_left (fun results '(name, info) =>
               if Text.contains term (Text.lower name)
               then Dict.set name info results else results) d [].

Definition search_contact : Prog unit :=
  line <- input "Enter name to search: " ;;
  let term := Text.lower line in
  d <- get_contacts ;;
  let results := search_results term d in
  match results with
  | [] => print "No contacts found."
  | _ =>
      print (Text.nl ++ "Found " ++ str_of_nat (List.length results) ++ " contact(s):") ;;
      print (Text.repeat "-" 50) ;;
      for_each results 1%nat (fun '(name, info) i =>
        print (str_of_nat i ++ ". " ++ name) ;;
        print ("   📞 Phone: " ++ str_of_field (phone info)) ;;
        (if truthy (email info)
         then print ("   📧 Email: " ++ str_of_field (email info)) else ret tt) ;;
        (if truthy (address info)
         then print ("   📍 Address: " ++ str_of_field (address info)) else ret tt) ;;
        print ("   👥 Group: " ++ group info) ;;
        print "" ;;
        ret (S i)) ;;
      ret tt
  end.

Definition update_contact : Prog unit :=
  line <- input "Enter contact name to update: " ;;
  let name := Text.strip line in
  d <- get_contacts ;;
  if negb (Dict.mem name d) then print "Contact not found!"
  else
    print "Leave blank to keep existing value." ;;
    line <- input "New phone number: " ;;
    let phone := Text.strip line in
    (if Text.nonempty phone then
       let '(valid, cleaned) := validate_phone phone in
       if valid then modify_record name (set_phone cleaned) else ret tt
     else ret tt) ;;
    line <- input "New email: " ;;
    let email := Text.strip line in
    (if Text.nonempty email && validate_email email
     then modify_record name (set_email (Some email)) else ret tt) ;;
    line <- input "New address: " ;;
    let address := Text.strip line in
    (if Text.nonempty address
     then modify_record name (set_address (Some address)) else ret tt) ;;
    line <- input "New group: " ;;
    let group := Text.strip line in
    (if Text.nonempty group
     then modify_record name (set_group group) else ret tt) ;;
    t <- now ;;
    modify_record name (set_updated_at (Datetime.isoformat t)) ;;
    print "✅ Contact updated successfully!" ;;
    save_contacts.

Definition delete_contact : Prog unit :=
  line <- input "Enter contact name to delete: " ;;
  let name := Text.strip line in
  d <- get_contacts ;;
  if Dict.mem name d then
    put_contacts (Dict.del name d) ;;
    print "✅ Contact deleted!" ;;
    save_contacts
  else print "Contact not found!".

(** The [csv.writer] of the source: the default dialect (comma, double
    quote, minimal quoting, doubled quotes, lines ended by CR LF). *)
Module Csv.

Definition special (c : ascii) : bool :=
  List.existsb (fun n => (Text.code c =? n)%nat) [44; 34; 13; 10]%nat.

Fixpoint double_quotes (s : string) : string :=
  match s with
  | EmptyString => EmptyString
  | String c r =>
      if (Text.code c =? 34)%nat then String c (String c (double_quotes r))
      else String c (double_quotes r)
  end.

(** One field: [None] is written as the empty string; a field holding a
    delimiter, a quote or a line break is quoted. *)
Definition field (o : option string) : string :=
  match o with
  | None => ""
  | Some s =>
      if Text.existsb special s
      then Text.dquote ++ double_quotes s ++ Text.dquote
      else s
  end.

Fixpoint join (fields : list string) : string :=
  match fields with
  | [] => ""
  | [f] => f
  | f :: rest => f ++ "," ++ join rest
  end.

(** The text of one [writerow] call.  A row that would be empty (one
    empty field) is written as a pair of quotes. *)
Definition row (fields : list (option string)) : string :=
  let body := join (List.map field fields) in
  (match fields, body with
   | _ :: _, EmptyString => Text.dquote ++ Text.dquote
   | _, _ => body
   end) ++ Text.cr ++ Text.nl.

End Csv.

Definition writerow (fields : list (option string)) : Prog unit :=
  append_csv (Csv.row fields).

Definition export_to_csv : Prog unit :=
  open_csv ;;
  writerow [Some "Name"; Some "Phone"; Some "Email"; Some "Address"; Some "Group"] ;;
  d <- get_contacts ;;
  for_each d tt (fun '(name, info) _ =>
    writerow [Some name; phone info; email info; address info; Some (group info)]) ;;
  print "✅ Contacts exported to contacts.csv".

(** [groups[g] = groups.get(g, 0) + 1] over the values of the dictionary. *)
Definition group_counts (d : contacts_t) : Dict.t nat :=
  fold_left (fun groups info =>
               Dict.set (group info)
                 (match Dict.get (group info) groups with
                  | Some n => n | None => 0 end + 1) groups)
            (Dict.values d) [].

(** The test of the last loop of [view_statistics]. *)
Definition recently (current updated : datetime) : bool :=
  (Datetime.days (Datetime.sub current updated) <=? 7)%Z.

Definition view_statistics : Prog unit :=
  print (Text.nl ++ "--- CONTACT STATISTICS ---") ;;
  d <- get_contacts ;;
  print ("Total Contacts: " ++ str_of_nat (List.length d) ++ Text.nl) ;;
  let groups := group_counts d in
  print "Contacts by Group:" ;;
  for_each groups tt (fun '(g, c) _ =>
    print ("  " ++ g ++ ": " ++ str_of_nat c ++ " contact(s)")) ;;
  recent <- for_each (Dict.values d) 0 (fun info recent =>
    match Datetime.fromisoformat (updated_at info) with
    | None => raise ValueError
    | Some updated =>
        current <- now ;;
        if recently current updated then ret (recent + 1) else ret recent
    end) ;;
  print (Text.nl ++ "Recently Updated (last 7 days): " ++ str_of_nat recent).

(* ================================================================== *)
(** * Vocabulary of the specification *)

(** The state after reading one line under [prompt]. *)
Definition after_input (prompt : string) (rest : list string) (s : state) : state :=
  mkState (contacts s) rest (stdout s ++ [Prompt prompt])%list
          (storage_file s) (csv_file s) (clock s) (ticks s).

(** The state after writing [out] on the terminal. *)
Definition after_output (out : list output) (s : state) : state :=
  mkState (contacts s) (stdin s) (stdout s ++ out)%list
          (storage_file s) (csv_file s) (clock s) (ticks s).








(** What [search_contact] prints for the [i]-th result. *)
Definition result_lines (i : nat) (name : string) (info : contact) : list output :=
  ([Print (str_of_nat i ++ ". " ++ name);
    Print ("   📞 Phone: " ++ str_of_field (phone info))] ++
   (if truthy (email info)
    then [Print ("   📧 Email: " ++ str_of_field (email info))] else []) ++
   (if truthy (address info)
    then [Print ("   📍 Address: " ++ str_of_field (address info))] else []) ++
   [Print ("   👥 Group: " ++ group info); Print ""])%list.

Fixpoint numbered_lines (i : nat) (results : contacts_t) : list output :=
  match results with
  | [] => []
  | (name, info) :: rest => (result_lines i name info ++ numbered_lines (S i) rest)%list
  end.

(** The whole report of a search. *)
Definition search_report (results : contacts_t) : list output :=
  match results with
  | [] => [Print "No contacts found."]
  | _ =>
      Print (Text.nl ++ "Found " ++ str_of_nat (List.length results) ++ " contact(s):")
      :: Print (Text.repeat "-" 50)
      :: numbered_lines 1 results
  end.

(** The header row and the data row of one contact in [contacts.csv]. *)
Definition csv_header : string :=
  Csv.row [Some "Name"; Some "Phone"; Some "Email"; Some "Address"; Some "Group"].

Definition csv_record (kv : string * contact) : string :=
  let '(name, info) := kv in
  Csv.row [Some name; phone info; email info; address info; Some (group info)].

Fixpoint csv_records (d : contacts_t) : string :=
  match d with
  | [] => ""
  | kv :: rest => csv_record kv ++ csv_records rest
  end.

(** The invariant on phones: a string of decimal digits, ten to fifteen
    of them. *)
Definition phone_ok (o : option string) : Prop :=
  exists d, o = Some d /\ Text.forallb Text.isdigit d = true /\
            (10 <= length d <= 15)%nat.

Definition phones_valid (d : contacts_t) : Prop :=
  Forall (fun kv => phone_ok (phone (snd kv))) d.

(** Every phone of [d] is the phone the same name had in [d0], or the
    normalized value of a successful [validate_phone]. *)
Definition phones_from (d0 d : contacts_t) : Prop :=
  forall name info', Dict.get name d = Some info' ->
    (exists info, Dict.get name d0 = Some info /\ phone info' = phone info) \/
    (exists raw, validate_phone raw = (true, phone info')).

(** A specification of a program in the style of Hoare: from a state
    that satisfies [P], a normal return with [a] leaves a state that
    satisfies [Q a], and a raised exception leaves one that satisfies [E]. *)
Definition triple {A} (P : state -> Prop) (m : Prog A)
    (Q : A -> state -> Prop) (E : state -> Prop) : Prop :=
  forall s, P s ->
    match m s with
    | (Return a, s') => Q a s'
    | (Raise _, s') => E s'
    end.

(** The time of a naive datetime in microseconds from the start of the
    proleptic Gregorian calendar. *)
Definition microseconds_since_origin (t : datetime) : Z :=
  ((Datetime.toordinal t * 86400
    + (second t + minute t * 60 + hour t * 3600)) * 1000000
   + microsecond t)%Z.

(** The difference in calendar days: the dates alone are compared. *)
Definition calendar_day_difference (current updated : datetime) : Z :=
  (Datetime.toordinal current - Datetime.toordinal updated)%Z.

(** "Within 7 days, inclusive, measured by calendar-day difference", as
    the specification words the test of the statistics. *)
Definition within_seven_calendar_days (current updated : datetime) : bool :=
  (calendar_day_difference current updated <=? 7)%Z.

(** The number of [updates] that pass [test] against the clock, which is
    read once for each of them, from reading [tick] on. *)
Fixpoint count_recent (test : datetime -> datetime -> bool)
    (clk : nat -> datetime) (tick : nat) (updates : list datetime) : nat :=
  match updates with
  | [] => 0
  | u :: rest =>
      ((if test (clk tick) u then 1 else 0) + count_recent test clk (S tick) rest)%nat
  end.

(** What [view_statistics] prints before its last line. *)
Definition statistics_head (d : contacts_t) : list output :=
  ([Print (Text.nl ++ "--- CONTACT STATISTICS ---");
    Print ("Total Contacts: " ++ str_of_nat (List.length d) ++ Text.nl);
    Print "Contacts by Group:"] ++
   List.map (fun gc => Print ("  " ++ fst gc ++ ": " ++ str_of_nat (snd gc) ++ " contact(s)"))
            (group_counts d))%list.

Definition recently_updated_line (n : nat) : output :=
  Print (Text.nl ++ "Recently Updated (last 7 days): " ++ str_of_nat n).

(** The statistics as the specification words them: the last line
    reports the contacts within 7 days by calendar-day difference. *)
Definition reports_calendar_recent (s : state) (updates : list datetime) : Prop :=
  List.last (stdout (snd (view_statistics s))) (Print "") =
  recently_updated_line
    (count_recent within_seven_calendar_days (clock s) (ticks s) updates).

(** The loop of [_iterencode_dict] over the items, on its own. *)
Fixpoint encode_members (level : nat) (first : bool)
    (l : list (string * pyvalue)) : string :=
  match l with
  | [] => Text.nl ++ Text.repeat Json.indent_unit level ++ "}"
  | (key, value) :: rest =>
      (if first then ""
       else "," ++ Text.nl ++ Text.repeat Json.indent_unit (S level)) ++
      Json.encode_basestring_ascii key ++ ": " ++
      Json.iterencode (S level) value ++ encode_members level false rest
  end.

(** Every dictionary inside the value has distinct keys. *)
Fixpoint wf_value (v : pyvalue) : Prop :=
  match v with
  | PDict items =>
      NoDup (List.map fst items) /\
      (fix all (l : list (string * pyvalue)) : Prop :=
         match l with
         | [] => True
         | (_, x) :: rest => wf_value x /\ all rest
         end) items
  | _ => True
  end.

(** The number of values and keys in a value: the fuel that decoding its
    text takes. *)
Fixpoint cost (v : pyvalue) : nat :=
  match v with
  | PDict items =>
      S ((fix sum (l : list (string * pyvalue)) : nat :=
            match l with
            | [] => 0
            | (_, x) :: rest => S (cost x + sum rest)
            end) items)
  | _ => 1
  end.

Definition members_cost (l : list (string * pyvalue)) : nat :=
  List.fold_right (fun kv n => S (cost (snd kv) + n)) 0 l.

(** What the round trip says of one value. *)
Definition reads_back (v : pyvalue) : Prop :=
  wf_value v ->
  forall level fuel rest, cost v <= fuel ->
    Json.scan_once fuel (Json.iterencode level v ++ rest) = Some (v, rest).

(* ================================================================== *)
(** * Sample data *)

Definition sample_alice : contact :=
  mkContact (Some "5551234567") (Some "alice@example.com") None "Work"
            "2024-01-01T23:00:00" "2024-01-01T23:00:00".

Definition sample_natalie : contact :=
  mkContact (Some "441234567890") None (Some "12 High Street") "Family"
            "2024-01-03T08:30:00.000250" "2024-01-05T09:00:00".

Definition sample_contacts : contacts_t :=
  [("Alice", sample_alice); ("Natalie", sample_natalie)].





(** A clock that shows 9 January 2024, 01:00:00, one microsecond later
    at every reading. *)
Definition sample_clock (n : nat) : datetime :=
  mkDatetime 2024 1 9 1 0 0 (Z.of_nat n).

(** A session with [sample_contacts] in memory, nothing on disk, and
    [lines] waiting on the terminal. *)
Definition sample_state (lines : list string) : state :=
  mkState sample_contacts lines [] None None sample_clock 0.

(** The times at which the two sample contacts were last updated. *)
Definition sample_updates : list datetime :=
  [mkDatetime 2024 1 1 23 0 0 0; mkDatetime 2024 1 5 9 0 0 0].

(* ================================================================== *)
(* ================================================================== *)
(** * Main menu *)

(** The menu that every round of the loop of [main] prints. *)
Definition show_menu : Prog unit :=
  print (Text.nl ++ Text.repeat "=" 30) ;;
  print "          MAIN MENU" ;;
  print (Text.repeat "=" 30) ;;
  print "1. Add New Contact" ;;
  print "2. Search Contact" ;;
  print "3. Update Contact" ;;
  print "4. Delete Contact" ;;
  print "5. View All Contacts" ;;
  print "6. Export to CSV" ;;
  print "7. View Statistics" ;;
  print "8. Exit" ;;
  print (Text.repeat "=" 30).

(** The [if] chain on the choice; [Some tt] is the [break] of choice 8.
    The choice is compared as it was typed. *)
Definition dispatch (choice : string) : Prog (option unit) :=
  if String.eqb choice "1" then add_contact ;; ret None
  else if String.eqb choice "2" then search_contact ;; ret None
  else if String.eqb choice "3" then update_contact ;; ret None
  else if String.eqb choice "4" then delete_contact ;; ret None
  else if String.eqb choice "5" then view_all_contacts ;; ret None
  else if String.eqb choice "6" then export_to_csv ;; ret None
  else if String.eqb choice "7" then view_statistics ;; ret None
  else if String.eqb choice "8" then
    save_contacts ;;
    print (Text.nl ++ Text.repeat "=" 50) ;;
    print "Thank you for using Contact Management System!" ;;
    print (Text.repeat "=" 50) ;;
    ret (Some tt)
  else print "Invalid choice!" ;; ret None.

(** One round of the loop of [main]. *)
Definition menu_round : Prog (option unit) :=
  show_menu ;;
  choice <- input "Enter your choice (1-8): " ;;
  dispatch choice.

(** The loop of [main], on the dictionary that the state holds. *)
Definition main_loop : Prog unit := while_true menu_round.

(* ================================================================== *)
(** * Vocabulary of the further properties

    The handlers are embedded on a disk that takes the two files (see
    [write_storage] and [open_csv]) and on records that have their six
    fields.  The ways to end that the postconditions below list are those
    of such a run; an [OSError] of a file operation is outside them. *)

(** The language of a regular expression: what [Regex.fullmatch] is
    meant to decide. *)
Inductive regex_lang : Regex.t -> string -> Prop :=
| lang_eps : regex_lang Regex.Eps ""
| lang_class p c : p c = true -> regex_lang (Regex.Class p) (String c "")
| lang_cat r1 r2 s1 s2 :
    regex_lang r1 s1 -> regex_lang r2 s2 -> regex_lang (Regex.Cat r1 r2) (s1 ++ s2)
| lang_alt_l r1 r2 s : regex_lang r1 s -> regex_lang (Regex.Alt r1 r2) s
| lang_alt_r r1 r2 s : regex_lang r2 s -> regex_lang (Regex.Alt r1 r2) s
| lang_star_nil r : regex_lang (Regex.Star r) ""
| lang_star_cons r s1 s2 :
    regex_lang r s1 -> regex_lang (Regex.Star r) s2 ->
    regex_lang (Regex.Star r) (s1 ++ s2).

(** An address as [validate_email] wants it: a local part, an at sign, a
    domain, a dot and at least two letters. *)
Definition email_shape (s : string) : Prop :=
  exists loc domain tld,
    s = loc ++ "@" ++ domain ++ "." ++ tld /\
    loc <> "" /\ Text.forallb email_local_char loc = true /\
    domain <> "" /\ Text.forallb email_domain_char domain = true /\
    2 <= length tld /\ Text.forallb ascii_letter tld = true.

(** The number of times [g] occurs among the groups of the contacts. *)
Definition occurrences (g : string) (groups : list string) : nat :=
  List.length (List.filter (fun x => String.eqb x g) groups).

(** [groups.get(g, 0)] *)
Definition group_count_of (g : string) (groups : Dict.t nat) : nat :=
  match Dict.get g groups with Some n => n | None => 0 end.

(** One round of the first loop of [view_statistics]. *)
Definition tally (groups : Dict.t nat) (g : string) : Dict.t nat :=
  Dict.set g (group_count_of g groups + 1) groups.

(** The distinct elements of a list, in the order of their first
    occurrence. *)
Fixpoint first_occurrences (l : list string) : list string :=
  match l with
  | [] => []
  | x :: rest =>
      x :: List.filter (fun y => negb (String.eqb y x)) (first_occurrences rest)
  end.

(** What a prompt loop writes when it rejects [n] lines before it
    accepts one. *)
Fixpoint retry_output (prompt complaint : string) (n : nat) : list output :=
  match n with
  | O => [Prompt prompt]
  | S k => Prompt prompt :: Print complaint :: retry_output prompt complaint k
  end.

(** What the three prompt loops of [add_contact] accept, and the value
    they leave with. *)
Definition accept_name (line : string) : option string :=
  if Text.nonempty (Text.strip line) then Some (Text.strip line) else None.

Definition accept_phone (line : string) : option (option string) :=
  let '(valid, cleaned) := validate_phone (Text.strip line) in
  if valid then Some cleaned else None.

Definition accept_email (line : string) : option string :=
  if negb (Text.nonempty (Text.strip line)) || validate_email (Text.strip line)
  then Some (Text.strip line) else None.

(** The record that [add_contact] builds from its answers. *)
Definition new_contact (cleaned : option string) (email address_line group_line : string)
    (created updated : datetime) : contact :=
  mkContact cleaned
            (if Text.nonempty email then Some email else None)
            (if Text.nonempty (Text.strip address_line)
             then Some (Text.strip address_line) else None)
            (if Text.nonempty (Text.strip group_line)
             then Text.strip group_line else "Other")
            (Datetime.isoformat created)
            (Datetime.isoformat updated).

(** From a state that satisfies [P], the program ends, with outcome [o]
    and in a state [s'], such that [Q o s']. *)
Definition hoare {A} (P : state -> Prop) (m : Prog A)
    (Q : outcome A -> state -> Prop) : Prop :=
  forall s, P s -> Q (fst (m s)) (snd (m s)).

(** A postcondition that asks [Q] of a value returned and hands a raised
    exception on to the postcondition [R] of the whole program. *)
Definition passing {A B} (Q : A -> state -> Prop)
    (R : outcome B -> state -> Prop) (o : outcome A) (s : state) : Prop :=
  match o with
  | Return a => Q a s
  | Raise e => R (Raise e) s
  end.

(** At most [n] lines are left on the terminal; the dictionary, the two
    files and the clock are [d0], [f0], [c0] and [clk]. *)
Definition framed (n : nat) (d0 : contacts_t) (f0 c0 : option string)
    (clk : nat -> datetime) (s : state) : Prop :=
  List.length (stdin s) <= n /\
  contacts s = d0 /\ storage_file s = f0 /\ csv_file s = c0 /\ clock s = clk.

(** The storage file holds the text of the dictionary in memory. *)
Definition saved (s : state) : Prop :=
  storage_file s = Some (Json.dumps (py_of_contacts (contacts s))).

(** Every [updated_at] is what [isoformat] prints for a valid datetime. *)
Definition stamped (d : contacts_t) : Prop :=
  Forall (fun kv => exists t, Datetime.valid t = true /\
                              updated_at (snd kv) = Datetime.isoformat t) d.

Definition valid_clock (clk : nat -> datetime) : Prop :=
  forall k, Datetime.valid (clk k) = true.

(** Every record of [d] has the [created_at] that its name has in [d0]. *)
Definition created_same (d0 d : contacts_t) : Prop :=
  forall name info, Dict.get name d = Some info ->
    exists info0, Dict.get name d0 = Some info0 /\
                  created_at info = created_at info0.

(** How [add_contact] can end, from a state framed by [n], [d0], [f0],
    [c0] and [clk]: with a new record stored and saved, or with
    [EOFError] and nothing changed. *)
Definition add_post (n : nat) (d0 : contacts_t) (f0 c0 : option string)
    (clk : nat -> datetime) (o : outcome unit) (s : state) : Prop :=
  List.length (stdin s) <= n /\ csv_file s = c0 /\ clock s = clk /\
  match o with
  | Return _ =>
      (exists name info raw k,
         validate_phone raw = (true, phone info) /\
         updated_at info = Datetime.isoformat (clk k) /\
         contacts s = Dict.set name info d0) /\
      saved s
  | Raise e => e = EOFError /\ contacts s = d0 /\ storage_file s = f0
  end.

(** The state of [update_contact] between two of its prompts: the names,
    their order and every [created_at] are as in [d0], nothing was
    written to the files, and the time stamps are still well formed if
    they were and the clock is sound. *)
Definition updating (n : nat) (d0 : contacts_t) (f0 c0 : option string)
    (clk : nat -> datetime) (s : state) : Prop :=
  List.length (stdin s) <= n /\ csv_file s = c0 /\ clock s = clk /\
  storage_file s = f0 /\
  Dict.keys (contacts s) = Dict.keys d0 /\ created_same d0 (contacts s) /\
  (valid_clock clk -> stamped d0 -> stamped (contacts s)).

(** How [update_contact] can end: it returns with nothing changed (the
    name is absent) or with the dictionary saved, or it raises [EOFError]
    with the storage file untouched. *)
Definition update_post (n : nat) (d0 : contacts_t) (f0 c0 : option string)
    (clk : nat -> datetime) (o : outcome unit) (s : state) : Prop :=
  List.length (stdin s) <= n /\ csv_file s = c0 /\ clock s = clk /\
  Dict.keys (contacts s) = Dict.keys d0 /\ created_same d0 (contacts s) /\
  (valid_clock clk -> stamped d0 -> stamped (contacts s)) /\
  match o with
  | Return _ => (contacts s = d0 /\ storage_file s = f0) \/ saved s
  | Raise e => e = EOFError /\ storage_file s = f0
  end.

(** How [delete_contact] can end. *)
Definition delete_post (n : nat) (d0 : contacts_t) (f0 c0 : option string)
    (clk : nat -> datetime) (o : outcome unit) (s : state) : Prop :=
  List.length (stdin s) <= n /\ csv_file s = c0 /\ clock s = clk /\
  match o with
  | Return _ =>
      (contacts s = d0 /\ storage_file s = f0) \/
      (exists name, Dict.mem name d0 = true /\
                    contacts s = Dict.del name d0 /\ saved s)
  | Raise e => e = EOFError /\ contacts s = d0 /\ storage_file s = f0
  end.

(** How a handler that only reads the dictionary can end: dictionary,
    storage file and clock as before, the export file as [csv] says, and
    no exception but [allowed]. *)
Definition reading_post (n : nat) (d0 : contacts_t) (f0 : option string)
    (clk : nat -> datetime) (csv : option string -> Prop) (allowed : exn -> Prop)
    (o : outcome unit) (s : state) : Prop :=
  List.length (stdin s) <= n /\
  contacts s = d0 /\ storage_file s = f0 /\ clock s = clk /\ csv (csv_file s) /\
  match o with
  | Return _ => True
  | Raise e => allowed e
  end.

(** What [show_menu] writes. *)
Definition menu_text : list output :=
  [Print (Text.nl ++ Text.repeat "=" 30);
   Print "          MAIN MENU";
   Print (Text.repeat "=" 30);
   Print "1. Add New Contact";
   Print "2. Search Contact";
   Print "3. Update Contact";
   Print "4. Delete Contact";
   Print "5. View All Contacts";
   Print "6. Export to CSV";
   Print "7. View Statistics";
   Print "8. Exit";
   Print (Text.repeat "=" 30)].

(** What a session keeps of its start [d0], with the clock [clk]: the
    keys stay distinct, the phones stay valid and the time stamps stay
    well formed, each if it was so at the start (the last one if the
    clock is sound). *)
Definition session_inv (d0 : contacts_t) (clk : nat -> datetime) (s : state) : Prop :=
  clock s = clk /\
  (Dict.wf d0 -> Dict.wf (contacts s)) /\
  (phones_valid d0 -> phones_valid (contacts s)) /\
  (valid_clock clk -> stamped d0 -> stamped (contacts s)).

(** The exceptions that can end a session: the end of the input, or a
    time stamp that the statistics cannot read, which takes a start with
    a malformed time stamp or an unsound clock. *)
Definition session_error (d0 : contacts_t) (clk : nat -> datetime) (e : exn) : Prop :=
  e = EOFError \/ (e = ValueError /\ ~ (valid_clock clk /\ stamped d0)).

(** A handler keeps what a session keeps, reads lines but gives none
    back, and fails only as a session may. *)
Definition keeps_session (h : Prog unit) : Prop :=
  forall d0 clk n s,
    session_inv d0 clk s -> List.length (stdin s) <= n ->
    session_inv d0 clk (snd (h s)) /\
    List.length (stdin (snd (h s))) <= n /\
    match fst (h s) with
    | Return _ => True
    | Raise e => session_error d0 clk e
    end.

(** The record that [update_contact] leaves under the name, from the
    four answers, the time [t] and the record [info] that was there: a
    blank answer keeps the field, and so does a phone or an email that
    fails its validation. *)
Definition updated_contact (phone_line email_line address_line group_line : string)
    (t : datetime) (info : contact) : contact :=
  let p := Text.strip phone_line in
  let e := Text.strip email_line in
  let a := Text.strip address_line in
  let g := Text.strip group_line in
  mkContact
    (if Text.nonempty p && fst (validate_phone p)
     then snd (validate_phone p) else phone info)
    (if Text.nonempty e && validate_email e then Some e else email info)
    (if Text.nonempty a then Some a else address info)
    (if Text.nonempty g then g else group info)
    (created_at info)
    (Datetime.isoformat t).

(** A clock that always shows 9 January 2024, 01:00:00. *)
Definition steady_clock (n : nat) : datetime := mkDatetime 2024 1 9 1 0 0 0.

(** A session with [sample_contacts] in memory and [steady_clock]. *)
Definition steady_state (lines : list string) : state :=
  mkState sample_contacts lines [] None None steady_clock 0.

(* ================================================================== *)
(** * Properties *)

Lemma re_sub_nondigit_projection s :
  Text.re_sub_class (fun c => negb (Text.isdigit c)) "" s = digit_projection s.
Proof.
  unfold digit_projection.
  induction s as [|c r IH]; [reflexivity|].
  cbn [Text.re_sub_class Text.filter]. rewrite IH.
  now destruct (Text.isdigit c).
Qed.

(** C1. [validate_phone s] succeeds exactly when the digit-only projection
    of [s] has between 10 and 15 characters; on success the normalized
    value is that projection, on failure there is none. *)
Theorem validate_phone_spec (s : string) :
  let d := digit_projection s in
  (fst (validate_phone s) = true <-> (10 <= length d <= 15)%nat) /\
  (fst (validate_phone s) = true -> snd (validate_phone s) = Some d) /\
  (fst (validate_phone s) = false -> snd (validate_phone s) = None).
Proof.
  unfold validate_phone. rewrite re_sub_nondigit_projection. cbv zeta.
  destruct (Nat.leb_spec 10 (length (digit_projection s))) as [Hlo|Hlo];
  destruct (Nat.leb_spec (length (digit_projection s)) 15) as [Hhi|Hhi]; simpl;
  (split; [split; intros H; (discriminate H || reflexivity || lia)
          | split; intros H; (reflexivity || discriminate H)]).
Qed.

Lemma validate_phone_spec_witness :
  validate_phone "(555) 123-4567" = (true, Some "5551234567") /\
  validate_phone "555-1234" = (false, None) /\
  snd (validate_phone "(555) 123-4567") = Some (digit_projection "(555) 123-4567").
Proof.
  split; [reflexivity | split; [reflexivity |]].
  apply (validate_phone_spec "(555) 123-4567"). reflexivity.
Defined.


(** ** The dictionary *)

Section DictFacts.
Context {V : Type}.
Implicit Types (d : Dict.t V) (k : string) (v : V).

Lemma dict_mem_get k d :
  Dict.mem k d = true <-> exists v, Dict.get k d = Some v.
Proof.
  unfold Dict.mem. destruct (Dict.get k d) as [v|].
  - split; [eauto | reflexivity].
  - split; [discriminate | intros [v Hv]; discriminate].
Qed.

Lemma dict_mem_in_keys k d : Dict.mem k d = true <-> In k (Dict.keys d).
Proof.
  unfold Dict.mem. induction d as [|[k' v'] r IH]; simpl.
  - split; [discriminate | tauto].
  - destruct (String.eqb_spec k' k) as [->|Hne].
    + split; auto.
    + rewrite IH. split; [auto | intros [H|H]; [congruence | exact H]].
Qed.

Lemma dict_get_set_same k v d : Dict.get k (Dict.set k v d) = Some v.
Proof.
  induction d as [|[k' v'] r IH]; simpl.
  - now rewrite String.eqb_refl.
  - destruct (String.eqb_spec k' k) as [->|Hne]; simpl.
    + now rewrite String.eqb_refl.
    + destruct (String.eqb_spec k' k); [contradiction | exact IH].
Qed.

Lemma dict_get_set_other k k' v d :
  k' <> k -> Dict.get k' (Dict.set k v d) = Dict.get k' d.
Proof.
  intros Hne. induction d as [|[k0 v0] r IH]; simpl.
  - destruct (String.eqb_spec k k'); [congruence | reflexivity].
  - destruct (String.eqb_spec k0 k) as [->|Hk]; simpl.
    + destruct (String.eqb_spec k k'); [congruence | reflexivity].
    + destruct (String.eqb_spec k0 k'); [reflexivity | exact IH].
Qed.

(** Assigning to a key that is present keeps the keys and their order. *)
Lemma dict_keys_set_present k v d :
  Dict.mem k d = true -> Dict.keys (Dict.set k v d) = Dict.keys d.
Proof.
  unfold Dict.mem. induction d as [|[k0 v0] r IH]; simpl; [discriminate|].
  destruct (String.eqb_spec k0 k) as [->|Hk]; simpl; [reflexivity|].
  intros H. now rewrite IH.
Qed.

(** Assigning to a key that is absent appends the entry. *)
Lemma dict_set_absent k v d :
  Dict.mem k d = false -> Dict.set k v d = (d ++ [(k, v)])%list.
Proof.
  unfold Dict.mem. induction d as [|[k0 v0] r IH]; simpl; [reflexivity|].
  destruct (String.eqb_spec k0 k) as [->|Hk]; [discriminate|].
  intros H. now rewrite IH.
Qed.

Lemma dict_get_none_filter k d :
  Dict.get k d = None ->
  List.filter (fun kv => negb (String.eqb (fst kv) k)) d = d.
Proof.
  induction d as [|[k0 v0] r IH]; simpl; [reflexivity|].
  destruct (String.eqb_spec k0 k) as [->|Hk]; [discriminate|].
  simpl. intros H. now rewrite IH.
Qed.

Lemma dict_get_not_in_keys k d : ~ In k (Dict.keys d) -> Dict.get k d = None.
Proof.
  intros H. destruct (Dict.get k d) as [v|] eqn:E; [|reflexivity].
  exfalso. apply H. apply dict_mem_in_keys. apply dict_mem_get. eauto.
Qed.

(** In a dictionary, deleting a key removes every entry under it and
    nothing else. *)
Lemma dict_del_filter k d :
  Dict.wf d ->
  Dict.del k d = List.filter (fun kv => negb (String.eqb (fst kv) k)) d.
Proof.
  unfold Dict.wf. induction d as [|[k0 v0] r IH]; simpl; [reflexivity|].
  intros Hnd. inversion Hnd as [|? ? Hnotin Hnd']; subst.
  destruct (String.eqb_spec k0 k) as [->|Hk]; simpl.
  - symmetry. apply dict_get_none_filter. now apply dict_get_not_in_keys.
  - now rewrite IH.
Qed.

Lemma dict_get_del_same k d : Dict.wf d -> Dict.get k (Dict.del k d) = None.
Proof.
  unfold Dict.wf. induction d as [|[k0 v0] r IH]; simpl; [reflexivity|].
  intros Hnd. inversion Hnd as [|? ? Hnotin Hnd']; subst.
  destruct (String.eqb_spec k0 k) as [->|Hk]; simpl.
  - now apply dict_get_not_in_keys.
  - destruct (String.eqb_spec k0 k); [contradiction | now apply IH].
Qed.

Lemma dict_get_del_other k k' d :
  k' <> k -> Dict.get k' (Dict.del k d) = Dict.get k' d.
Proof.
  intros Hne. induction d as [|[k0 v0] r IH]; simpl; [reflexivity|].
  destruct (String.eqb_spec k0 k) as [->|Hk]; simpl.
  - destruct (String.eqb_spec k k'); [congruence | reflexivity].
  - destruct (String.eqb_spec k0 k'); [reflexivity | exact IH].
Qed.

Lemma dict_wf_set k v d : Dict.wf d -> Dict.wf (Dict.set k v d).
Proof.
  unfold Dict.wf. intros Hwf.
  destruct (Dict.mem k d) eqn:Hm.
  - now rewrite dict_keys_set_present.
  - rewrite dict_set_absent by exact Hm. unfold Dict.keys.
    rewrite List.map_app. simpl.
    apply NoDup_incl_NoDup with (l := k :: List.map fst d).
    + constructor; [|exact Hwf].
      intros Hin. apply dict_mem_in_keys in Hin. congruence.
    + rewrite List.length_app. simpl. lia.
    + intros x Hx. apply in_or_app. simpl in *. tauto.
Qed.

Lemma dict_wf_del k d : Dict.wf d -> Dict.wf (Dict.del k d).
Proof.
  intros Hwf. rewrite dict_del_filter by exact Hwf. unfold Dict.wf, Dict.keys.
  unfold Dict.wf, Dict.keys in Hwf.
  induction d as [|[k0 v0] r IH]; simpl in *; [constructor|].
  inversion Hwf as [|? ? Hnotin Hnd]; subst.
  destruct (String.eqb k0 k); simpl; [now apply IH|].
  constructor; [|now apply IH].
  intros Hin. apply Hnotin. apply in_map_iff in Hin.
  destruct Hin as [[k1 v1] [Hk Hin]]. apply filter_In in Hin.
  apply in_map_iff. exists (k1, v1). tauto.
Qed.

End DictFacts.

(** ** Running the handlers *)

Lemma input_line prompt line rest s :
  stdin s = line :: rest ->
  input prompt s = (Return line, after_input prompt rest s).
Proof. intros H. unfold input. now rewrite H. Qed.

Lemma bind_input {B} prompt line rest s (k : string -> Prog B) :
  stdin s = line :: rest ->
  bind (input prompt) k s = k line (after_input prompt rest s).
Proof. intros H. unfold bind. now rewrite (input_line _ _ _ _ H). Qed.

(** C6. Updating a name that is absent prints "Contact not found!" and
    changes nothing else: the dictionary, both files and the clock are as
    before, only the line read is consumed. *)
Theorem update_absent_no_effect (s : state) (line : string) (rest : list string) :
  stdin s = line :: rest ->
  Dict.mem (Text.strip line) (contacts s) = false ->
  update_contact s =
    (Return tt,
     mkState (contacts s) rest
             (stdout s ++ [Prompt "Enter contact name to update: ";
                           Print "Contact not found!"])%list
             (storage_file s) (csv_file s) (clock s) (ticks s)).
Proof.
  intros Hin Habs. unfold update_contact.
  rewrite (bind_input _ _ _ _ _ Hin).
  unfold bind, get_contacts, after_input. cbn [contacts].
  rewrite Habs. cbn [negb]. unfold print. cbn.
  now rewrite <- List.app_assoc.
Qed.

Lemma save_contacts_run s :
  save_contacts s =
    (Return tt,
     mkState (contacts s) (stdin s)
             (stdout s ++ [Print "✅ Contacts saved to contacts_data.json"])%list
             (Some (Json.dumps (py_of_contacts (contacts s))))
             (csv_file s) (clock s) (ticks s)).
Proof. reflexivity. Qed.

Lemma delete_present_run s line rest :
  stdin s = line :: rest ->
  Dict.mem (Text.strip line) (contacts s) = true ->
  delete_contact s =
    (Return tt,
     mkState (Dict.del (Text.strip line) (contacts s)) rest
             (stdout s ++ [Prompt "Enter contact name to delete: ";
                           Print "✅ Contact deleted!";
                           Print "✅ Contacts saved to contacts_data.json"])%list
             (Some (Json.dumps (py_of_contacts (Dict.del (Text.strip line) (contacts s)))))
             (csv_file s) (clock s) (ticks s)).
Proof.
  intros Hin Hmem. unfold delete_contact.
  rewrite (bind_input _ _ _ _ _ Hin).
  unfold bind, get_contacts, after_input. cbn [contacts].
  rewrite Hmem. unfold put_contacts, print. rewrite save_contacts_run.
  cbn [contacts stdin stdout storage_file csv_file clock ticks].
  now rewrite <- !List.app_assoc.
Qed.

Lemma delete_absent_run s line rest :
  stdin s = line :: rest ->
  Dict.mem (Text.strip line) (contacts s) = false ->
  delete_contact s =
    (Return tt,
     mkState (contacts s) rest
             (stdout s ++ [Prompt "Enter contact name to delete: ";
                           Print "Contact not found!"])%list
             (storage_file s) (csv_file s) (clock s) (ticks s)).
Proof.
  intros Hin Hmem. unfold delete_contact.
  rewrite (bind_input _ _ _ _ _ Hin).
  unfold bind, get_contacts, after_input. cbn [contacts].
  rewrite Hmem. unfold print.
  cbn [contacts stdin stdout storage_file csv_file clock ticks].
  now rewrite <- !List.app_assoc.
Qed.

(** C5. Deleting a name that is present removes exactly the entry under
    it, keeps every other entry in place and writes the new dictionary to
    the storage file; deleting a name that is absent prints
    "Contact not found!", keeps the dictionary and does not touch the
    storage file. *)
Theorem delete_contact_spec (s : state) (line : string) (rest : list string) :
  stdin s = line :: rest ->
  Dict.wf (contacts s) ->
  let n := Text.strip line in
  let s' := snd (delete_contact s) in
  fst (delete_contact s) = Return tt /\
  if Dict.mem n (contacts s) then
    contacts s' = List.filter (fun kv => negb (String.eqb (fst kv) n)) (contacts s) /\
    Dict.get n (contacts s') = None /\
    (forall k, k <> n -> Dict.get k (contacts s') = Dict.get k (contacts s)) /\
    storage_file s' = Some (Json.dumps (py_of_contacts (contacts s')))
  else
    contacts s' = contacts s /\
    storage_file s' = storage_file s /\
    stdout s' = (stdout s ++ [Prompt "Enter contact name to delete: ";
                              Print "Contact not found!"])%list.
Proof.
  intros Hin Hwf n s'. subst s'.
  destruct (Dict.mem n (contacts s)) eqn:Hmem.
  - rewrite (delete_present_run _ _ _ Hin Hmem). cbn [fst snd contacts storage_file].
    fold n. repeat split.
    + now apply dict_del_filter.
    + now apply dict_get_del_same.
    + intros k Hk. now apply dict_get_del_other.
  - rewrite (delete_absent_run _ _ _ Hin Hmem). cbn. now repeat split.
Qed.

Lemma modify_record_run name f info s :
  Dict.get name (contacts s) = Some info ->
  modify_record name f s =
    (Return tt,
     mkState (Dict.set name (f info) (contacts s)) (stdin s) (stdout s)
             (storage_file s) (csv_file s) (clock s) (ticks s)).
Proof.
  intros H. unfold modify_record, bind, get_contacts. now rewrite H.
Qed.

Lemma update_blank_run s l0 l1 l2 l3 l4 rest info :
  stdin s = l0 :: l1 :: l2 :: l3 :: l4 :: rest ->
  Text.strip l1 = "" -> Text.strip l2 = "" ->
  Text.strip l3 = "" -> Text.strip l4 = "" ->
  Dict.get (Text.strip l0) (contacts s) = Some info ->
  let d' := Dict.set (Text.strip l0)
              (set_updated_at (Datetime.isoformat (clock s (ticks s))) info)
              (contacts s) in
  update_contact s =
    (Return tt,
     mkState d' rest
             (stdout s ++ [Prompt "Enter contact name to update: ";
                           Print "Leave blank to keep existing value.";
                           Prompt "New phone number: ";
                           Prompt "New email: ";
                           Prompt "New address: ";
                           Prompt "New group: ";
                           Print "✅ Contact updated successfully!";
                           Print "✅ Contacts saved to contacts_data.json"])%list
             (Some (Json.dumps (py_of_contacts d')))
             (csv_file s) (clock s) (S (ticks s))).
Proof.
  intros Hin H1 H2 H3 H4 Hget d'. unfold update_contact.
  rewrite (bind_input _ _ _ _ _ Hin).
  unfold bind at 1. unfold get_contacts at 1. cbn [after_input contacts].
  assert (Hmem : Dict.mem (Text.strip l0) (contacts s) = true)
    by (apply dict_mem_get; eauto).
  rewrite Hmem. cbn [negb].
  unfold bind at 1. unfold print at 1.
  cbn [contacts stdin stdout storage_file csv_file clock ticks].
  rewrite (bind_input _ l1 (l2 :: l3 :: l4 :: rest)) by reflexivity.
  rewrite H1. cbn [Text.nonempty]. unfold bind at 1. unfold ret at 1.
  rewrite (bind_input _ l2 (l3 :: l4 :: rest)) by reflexivity.
  rewrite H2. cbn [Text.nonempty andb]. unfold bind at 1. unfold ret at 1.
  rewrite (bind_input _ l3 (l4 :: rest)) by reflexivity.
  rewrite H3. cbn [Text.nonempty]. unfold bind at 1. unfold ret at 1.
  rewrite (bind_input _ l4 rest) by reflexivity.
  rewrite H4. cbn [Text.nonempty]. unfold bind at 1. unfold ret at 1.
  unfold bind at 1. unfold now at 1.
  cbn [after_input contacts stdin stdout storage_file csv_file clock ticks].
  unfold bind at 1. erewrite modify_record_run by (cbn [contacts]; exact Hget).
  unfold bind, print. rewrite save_contacts_run.
  cbn [contacts stdin stdout storage_file csv_file clock ticks].
  fold d'. now rewrite <- !List.app_assoc.
Qed.

(** C3. Updating a contact with the four field inputs left blank sets its
    [updated_at] to the current time and nothing else: its other five
    fields, every other entry and the order of the keys are as before,
    and the new dictionary is written to the storage file. *)
Theorem update_blank_only_updated_at
    (s : state) (l0 l1 l2 l3 l4 : string) (rest : list string) (info : contact) :
  stdin s = l0 :: l1 :: l2 :: l3 :: l4 :: rest ->
  Text.strip l1 = "" -> Text.strip l2 = "" ->
  Text.strip l3 = "" -> Text.strip l4 = "" ->
  Dict.get (Text.strip l0) (contacts s) = Some info ->
  let n := Text.strip l0 in
  let s' := snd (update_contact s) in
  fst (update_contact s) = Return tt /\
  contacts s' =
    Dict.set n (set_updated_at (Datetime.isoformat (clock s (ticks s))) info)
             (contacts s) /\
  Dict.get n (contacts s') =
    Some (mkContact (phone info) (email info) (address info) (group info)
                    (created_at info)
                    (Datetime.isoformat (clock s (ticks s)))) /\
  (forall k, k <> n -> Dict.get k (contacts s') = Dict.get k (contacts s)) /\
  Dict.keys (contacts s') = Dict.keys (contacts s) /\
  storage_file s' = Some (Json.dumps (py_of_contacts (contacts s'))).
Proof.
  intros Hin H1 H2 H3 H4 Hget n s'. subst s'.
  rewrite (update_blank_run _ _ _ _ _ _ _ _ Hin H1 H2 H3 H4 Hget).
  cbn [fst snd contacts storage_file]. fold n.
  split; [reflexivity|]. split; [reflexivity|]. split; [|split; [|split]].
  - apply dict_get_set_same.
  - intros k Hk. now apply dict_get_set_other.
  - apply dict_keys_set_present. apply dict_mem_get. eauto.
  - reflexivity.
Qed.

(** ** Text *)

Lemma append_assoc (a b c : string) : (a ++ b) ++ c = a ++ (b ++ c).
Proof. induction a as [|x a IH]; simpl; [reflexivity | now rewrite IH]. Qed.

Lemma append_empty_r (a : string) : a ++ "" = a.
Proof. induction a as [|x a IH]; simpl; [reflexivity | now rewrite IH]. Qed.

Lemma length_append (a b : string) : length (a ++ b) = (length a + length b)%nat.
Proof. induction a as [|x a IH]; simpl; [reflexivity | now rewrite IH]. Qed.

Lemma prefix_iff (p s : string) :
  prefix p s = true <-> exists post, s = p ++ post.
Proof.
  revert s. induction p as [|c p IH]; intros s.
  - destruct s; simpl; split; eauto.
  - destruct s as [|c' s]; simpl.
    + split; [discriminate | intros [post H]; discriminate].
    + destruct (ascii_dec c c') as [->|Hne].
      * rewrite IH. split; intros [post H]; exists post; congruence.
      * split; [discriminate | intros [post H]; congruence].
Qed.

(** [needle in hay] holds exactly when [hay] splits around [needle]. *)
Lemma contains_iff (needle hay : string) :
  Text.contains needle hay = true <->
  exists pre post, hay = pre ++ needle ++ post.
Proof.
  induction hay as [|c hay IH].
  - cbn [Text.contains]. rewrite orb_false_r. rewrite prefix_iff. split.
    + intros [post H]. exists "", post. exact H.
    + intros [pre [post H]]. destruct pre; [eauto | discriminate].
  - cbn [Text.contains]. rewrite orb_true_iff, IH, prefix_iff. split.
    + intros [[post H] | [pre [post H]]].
      * exists "", post. exact H.
      * exists (String c pre), post. simpl. now rewrite H.
    + intros [pre [post H]]. destruct pre as [|c' pre].
      * left. exists post. exact H.
      * right. exists pre, post. simpl in H. congruence.
Qed.

Lemma contains_empty (hay : string) : Text.contains "" hay = true.
Proof. apply contains_iff. exists "", hay. reflexivity. Qed.











(** ** Searching *)

Lemma search_fold_filter term (d acc : contacts_t) :
  NoDup (Dict.keys (acc ++ d)%list) ->
  fold_left (fun results '(name, info) =>
               if Text.contains term (Text.lower name)
               then Dict.set name info results else results) d acc =
  (acc ++ List.filter (fun kv => Text.contains term (Text.lower (fst kv))) d)%list.
Proof.
  revert acc. induction d as [|[k v] r IH]; intros acc Hnd; simpl.
  - now rewrite List.app_nil_r.
  - assert (Hk : Dict.mem k acc = false).
    { destruct (Dict.mem k acc) eqn:E; [|reflexivity]. exfalso.
      apply dict_mem_in_keys in E. unfold Dict.keys in *.
      rewrite List.map_app in Hnd. simpl in Hnd.
      apply NoDup_remove_2 in Hnd. apply Hnd. apply in_or_app. now left. }
    destruct (Text.contains term (Text.lower k)).
    + rewrite dict_set_absent by exact Hk. rewrite IH.
      * now rewrite <- List.app_assoc.
      * now rewrite <- List.app_assoc.
    + rewrite IH; [reflexivity|].
      unfold Dict.keys in *. rewrite List.map_app in *. simpl in Hnd.
      now apply NoDup_remove_1 in Hnd.
Qed.

(** The dictionary [results] is the sub-list of the matching entries. *)
Lemma search_results_filter term (d : contacts_t) :
  Dict.wf d ->
  search_results term d =
  List.filter (fun kv => Text.contains term (Text.lower (fst kv))) d.
Proof. intros Hwf. unfold search_results. now rewrite search_fold_filter. Qed.

Lemma after_output_nil s : after_output [] s = s.
Proof. destruct s. unfold after_output. cbn. now rewrite List.app_nil_r. Qed.

Lemma after_output_app out1 out2 s :
  after_output out2 (after_output out1 s) = after_output (out1 ++ out2)%list s.
Proof. unfold after_output. cbn. now rewrite List.app_assoc. Qed.

Lemma print_run text s : print text s = (Return tt, after_output [Print text] s).
Proof. reflexivity. Qed.

Lemma bind_print {B} text (k : unit -> Prog B) s :
  bind (print text) k s = k tt (after_output [Print text] s).
Proof. reflexivity. Qed.

Lemma bind_ret {A B} (a : A) (k : A -> Prog B) s : bind (ret a) k s = k a s.
Proof. reflexivity. Qed.

(** One round of the display loop of [search_contact]. *)
Lemma search_display_step i name info s :
  (print (str_of_nat i ++ ". " ++ name) ;;
   print ("   📞 Phone: " ++ str_of_field (phone info)) ;;
   (if truthy (email info)
    then print ("   📧 Email: " ++ str_of_field (email info)) else ret tt) ;;
   (if truthy (address info)
    then print ("   📍 Address: " ++ str_of_field (address info)) else ret tt) ;;
   print ("   👥 Group: " ++ group info) ;;
   print "" ;;
   ret (S i)) s
  = (Return (S i), after_output (result_lines i name info) s).
Proof.
  unfold result_lines.
  rewrite !bind_print.
  destruct (truthy (email info)); destruct (truthy (address info));
    rewrite ?bind_print, ?bind_ret, ?bind_print, ?bind_ret, ?bind_print;
    rewrite ?bind_print; unfold ret; rewrite !after_output_app; reflexivity.
Qed.

Lemma search_display_loop (results : contacts_t) i s :
  for_each results i (fun '(name, info) i =>
    print (str_of_nat i ++ ". " ++ name) ;;
    print ("   📞 Phone: " ++ str_of_field (phone info)) ;;
    (if truthy (email info)
     then print ("   📧 Email: " ++ str_of_field (email info)) else ret tt) ;;
    (if truthy (address info)
     then print ("   📍 Address: " ++ str_of_field (address info)) else ret tt) ;;
    print ("   👥 Group: " ++ group info) ;;
    print "" ;;
    ret (S i)) s
  = (Return (i + List.length results)%nat, after_output (numbered_lines i results) s).
Proof.
  revert i s. induction results as [|[name info] r IH]; intros i s.
  - cbn [for_each numbered_lines List.length]. unfold ret.
    now rewrite after_output_nil, Nat.add_0_r.
  - cbn [for_each numbered_lines List.length]. unfold bind at 1.
    rewrite search_display_step. rewrite IH, after_output_app.
    now rewrite Nat.add_succ_r.
Qed.

Lemma search_contact_run s q rest :
  stdin s = q :: rest ->
  search_contact s =
    (Return tt,
     after_output (search_report (search_results (Text.lower q) (contacts s)))
                  (after_input "Enter name to search: " rest s)).
Proof.
  intros Hin. unfold search_contact.
  rewrite (bind_input _ _ _ _ _ Hin).
  unfold bind at 1. unfold get_contacts at 1. cbn [after_input contacts].
  fold (after_input "Enter name to search: " rest s).
  destruct (search_results (Text.lower q) (contacts s)) as [|kv r] eqn:E.
  - reflexivity.
  - rewrite !bind_print. unfold bind. rewrite search_display_loop.
    unfold ret. rewrite !after_output_app. reflexivity.
Qed.

Ltac solve_wf :=
  unfold Dict.wf, Dict.keys; simpl;
  repeat (constructor; [simpl; intuition discriminate|]); constructor.

Lemma sample_contacts_wf : Dict.wf sample_contacts.
Proof. solve_wf. Qed.





(** C10. With the empty string as query every contact matches: the
    results are the whole dictionary, and the report lists all of it. *)
Theorem search_empty_query_all (s : state) (rest : list string) :
  stdin s = "" :: rest ->
  Dict.wf (contacts s) ->
  search_results (Text.lower "") (contacts s) = contacts s /\
  (forall name, Text.contains (Text.lower "") (Text.lower name) = true) /\
  search_contact s =
    (Return tt,
     after_output (search_report (contacts s))
                  (after_input "Enter name to search: " rest s)).
Proof.
  intros Hin Hwf.
  assert (Hall : search_results (Text.lower "") (contacts s) = contacts s).
  { rewrite (search_results_filter _ _ Hwf). cbn [Text.lower Text.map].
    clear. induction (contacts s) as [|kv r IH]; [reflexivity|].
    cbn [List.filter]. rewrite contains_empty. now rewrite IH. }
  split; [exact Hall | split].
  - intros name. apply contains_empty.
  - rewrite (search_contact_run _ _ _ Hin). now rewrite Hall.
Qed.

Lemma search_empty_query_all_witness :
  stdin (sample_state [""]) = [""] /\
  Dict.wf (contacts (sample_state [""])) /\
  search_results (Text.lower "") sample_contacts = sample_contacts.
Proof.
  split; [reflexivity | split; [exact sample_contacts_wf |]].
  exact (proj1 (search_empty_query_all (sample_state [""]) [] eq_refl sample_contacts_wf)).
Defined.

Lemma update_absent_no_effect_witness :
  stdin (sample_state [" Bob "]) = [" Bob "] /\
  Dict.mem (Text.strip " Bob ") (contacts (sample_state [" Bob "])) = false /\
  update_contact (sample_state [" Bob "]) =
    (Return tt,
     mkState sample_contacts []
             [Prompt "Enter contact name to update: "; Print "Contact not found!"]
             None None sample_clock 0).
Proof.
  split; [reflexivity | split; [reflexivity |]].
  exact (update_absent_no_effect (sample_state [" Bob "]) " Bob " [] eq_refl eq_refl).
Defined.

Lemma delete_contact_spec_witness :
  stdin (sample_state [" Alice "]) = [" Alice "] /\
  Dict.wf (contacts (sample_state [" Alice "])) /\
  contacts (snd (delete_contact (sample_state [" Alice "]))) =
    [("Natalie", sample_natalie)].
Proof.
  split; [reflexivity | split; [exact sample_contacts_wf |]].
  exact (proj1 (proj2
    (delete_contact_spec (sample_state [" Alice "]) " Alice " [] eq_refl
                         sample_contacts_wf))).
Defined.

Lemma update_blank_only_updated_at_witness :
  stdin (sample_state ["Alice"; ""; "  "; ""; ""]) = ["Alice"; ""; "  "; ""; ""] /\
  Text.strip "  " = "" /\
  Dict.get "Alice" (contacts (snd (update_contact
                      (sample_state ["Alice"; ""; "  "; ""; ""])))) =
    Some (mkContact (Some "5551234567") (Some "alice@example.com") None "Work"
                    "2024-01-01T23:00:00" "2024-01-09T01:00:00").
Proof.
  split; [reflexivity | split; [reflexivity |]].
  exact (proj1 (proj2 (proj2
    (update_blank_only_updated_at (sample_state ["Alice"; ""; "  "; ""; ""])
       "Alice" "" "  " "" "" [] sample_alice
       eq_refl eq_refl eq_refl eq_refl eq_refl eq_refl)))).
Defined.

(** ** Exporting *)

Lemma export_loop (d : contacts_t) s old :
  csv_file s = Some old ->
  for_each d tt (fun '(name, info) _ =>
    writerow [Some name; phone info; email info; address info; Some (group info)]) s
  = (Return tt,
     mkState (contacts s) (stdin s) (stdout s) (storage_file s)
             (Some (old ++ csv_records d)) (clock s) (ticks s)).
Proof.
  revert s old. induction d as [|[name info] r IH]; intros s old Hold.
  - cbn [for_each csv_records]. unfold ret. rewrite append_empty_r.
    destruct s; cbn in *. now subst.
  - cbn [for_each csv_records]. unfold bind at 1.
    unfold writerow at 1, append_csv at 1. rewrite Hold.
    erewrite IH by reflexivity.
    cbn [contacts stdin stdout storage_file csv_file clock ticks csv_record].
    now rewrite append_assoc.
Qed.

Lemma export_to_csv_run s :
  export_to_csv s =
    (Return tt,
     mkState (contacts s) (stdin s)
             (stdout s ++ [Print "✅ Contacts exported to contacts.csv"])%list
             (storage_file s)
             (Some (csv_header ++ csv_records (contacts s)))
             (clock s) (ticks s)).
Proof.
  unfold export_to_csv.
  unfold bind at 1. unfold open_csv at 1.
  unfold bind at 1. unfold writerow at 1, append_csv at 1.
  cbn [contacts stdin stdout storage_file csv_file clock ticks].
  unfold bind at 1. unfold get_contacts at 1.
  cbn [contacts stdin stdout storage_file csv_file clock ticks].
  unfold bind at 1. erewrite export_loop by reflexivity.
  reflexivity.
Qed.



(** ** Reasoning about programs *)

Section Triples.
Context {A B : Type}.

Lemma triple_bind (P : state -> Prop) (m : Prog A) (Q : A -> state -> Prop)
    (k : A -> Prog B) (R : B -> state -> Prop) (E : state -> Prop) :
  triple P m Q E -> (forall a, triple (Q a) (k a) R E) ->
  triple P (bind m k) R E.
Proof.
  intros Hm Hk s HP. unfold bind. specialize (Hm s HP).
  destruct (m s) as [[a|e] s1]; [|exact Hm]. exact (Hk a s1 Hm).
Qed.

Lemma triple_ret (a : A) (Q : A -> state -> Prop) (E : state -> Prop) :
  triple (Q a) (ret a) Q E.
Proof. intros s HP. exact HP. Qed.

Lemma triple_weaken (P P' : state -> Prop) (m : Prog A)
    (Q Q' : A -> state -> Prop) (E : state -> Prop) :
  triple P' m Q' E -> (forall s, P s -> P' s) ->
  (forall a s, Q' a s -> Q a s) -> triple P m Q E.
Proof.
  intros Hm HP HQ s Hs. specialize (Hm s (HP s Hs)).
  destruct (m s) as [[a|e] s1]; auto.
Qed.

(** A loop keeps [I] for as long as it goes round. *)
Lemma triple_iterate (I : state -> Prop) (body : Prog (option A))
    (Q : A -> state -> Prop) (E : state -> Prop) fuel :
  triple I body (fun r s => match r with Some a => Q a s | None => I s end) E ->
  (forall s, I s -> E s) ->
  triple I (iterate fuel body) Q E.
Proof.
  intros Hbody HIE. induction fuel as [|k IH]; intros s HI.
  - cbn. now apply HIE.
  - cbn [iterate]. unfold bind. specialize (Hbody s HI).
    destruct (body s) as [[[a|]|e] s1]; [exact Hbody | | exact Hbody].
    exact (IH s1 Hbody).
Qed.

Lemma triple_while_true (I : state -> Prop) (body : Prog (option A))
    (Q : A -> state -> Prop) (E : state -> Prop) :
  triple I body (fun r s => match r with Some a => Q a s | None => I s end) E ->
  (forall s, I s -> E s) ->
  triple I (while_true body) Q E.
Proof.
  intros Hbody HIE s HI. unfold while_true.
  exact (triple_iterate I body Q E _ Hbody HIE s HI).
Qed.

End Triples.

(** Effects that leave the dictionary alone keep whatever holds of it. *)
Section DictionaryOnly.
Variable R : contacts_t -> Prop.
Let I : state -> Prop := fun s => R (contacts s).

Lemma triple_print text : triple I (print text) (fun _ => I) I.
Proof. intros s H. exact H. Qed.

Lemma triple_input prompt : triple I (input prompt) (fun _ => I) I.
Proof. intros s H. unfold input. destruct (stdin s); exact H. Qed.

Lemma triple_now : triple I now (fun _ => I) I.
Proof. intros s H. exact H. Qed.

Lemma triple_get_contacts :
  triple I get_contacts (fun d s => d = contacts s /\ I s) I.
Proof. intros s H. split; [reflexivity | exact H]. Qed.

Lemma triple_save_contacts : triple I save_contacts (fun _ => I) I.
Proof. intros s H. exact H. Qed.

Lemma triple_ret_tt : triple I (ret tt) (fun _ => I) I.
Proof. intros s H. exact H. Qed.

Lemma triple_skip_or (b : bool) (m : Prog unit) :
  triple I m (fun _ => I) I ->
  triple I (if b then m else ret tt) (fun _ => I) I.
Proof. intros Hm. destruct b; [exact Hm | intros s H; exact H]. Qed.

(** Changing a record keeps [R] when [R] accepts the changed record. *)
Lemma triple_modify_record name f :
  (forall d info, R d -> Dict.get name d = Some info ->
                  R (Dict.set name (f info) d)) ->
  triple I (modify_record name f) (fun _ => I) I.
Proof.
  intros Hf s H. unfold modify_record, bind, get_contacts.
  destruct (Dict.get name (contacts s)) as [info|] eqn:E; [|exact H].
  cbn. now apply Hf.
Qed.

End DictionaryOnly.

(** ** The phone invariant *)

Lemma filter_isdigit_all s : Text.forallb Text.isdigit (Text.filter Text.isdigit s) = true.
Proof.
  induction s as [|c r IH]; [reflexivity|]. cbn [Text.filter].
  destruct (Text.isdigit c) eqn:E; [|exact IH].
  cbn [Text.forallb]. now rewrite E, IH.
Qed.

(** What [validate_phone] returns on success satisfies the invariant. *)
Lemma validate_phone_ok raw cleaned :
  validate_phone raw = (true, cleaned) -> phone_ok cleaned.
Proof.
  unfold validate_phone. rewrite re_sub_nondigit_projection.
  destruct (Nat.leb_spec 10 (length (digit_projection raw)));
  destruct (Nat.leb_spec (length (digit_projection raw)) 15);
    cbn [andb]; intros Hv; inversion Hv; subst.
  exists (digit_projection raw). split; [reflexivity | split; [|lia]].
  apply filter_isdigit_all.
Qed.

Lemma phones_valid_set name info d :
  phones_valid d -> phone_ok (phone info) -> phones_valid (Dict.set name info d).
Proof.
  unfold phones_valid. intros Hd Hi.
  induction d as [|[k v] r IH]; simpl.
  - constructor; [exact Hi | constructor].
  - inversion Hd as [|? ? Hv Hr]; subst.
    destruct (String.eqb k name); constructor; auto.
Qed.

Lemma phones_valid_del name d : phones_valid d -> phones_valid (Dict.del name d).
Proof.
  unfold phones_valid. intros Hd.
  induction d as [|[k v] r IH]; simpl; [constructor|].
  inversion Hd as [|? ? Hv Hr]; subst.
  destruct (String.eqb k name); [exact Hr | constructor; auto].
Qed.

Lemma phones_valid_get name info d :
  phones_valid d -> Dict.get name d = Some info -> phone_ok (phone info).
Proof.
  unfold phones_valid. intros Hd.
  induction d as [|[k v] r IH]; simpl; [discriminate|].
  inversion Hd as [|? ? Hv Hr]; subst.
  destruct (String.eqb k name); [|auto].
  intros H. now inversion H; subst.
Qed.

Lemma phones_from_refl d : phones_from d d.
Proof. intros k info' H. left. eauto. Qed.

(** [update_contact] keeps every property of the dictionary that survives
    a change of a record which keeps its phone or takes a validated one. *)
Section UpdateStable.
Variable R : contacts_t -> Prop.
Hypothesis keep_phone :
  forall d name info info', R d -> Dict.get name d = Some info ->
    phone info' = phone info -> R (Dict.set name info' d).
Hypothesis new_phone :
  forall d name info raw cleaned, R d -> Dict.get name d = Some info ->
    validate_phone raw = (true, cleaned) ->
    R (Dict.set name (set_phone cleaned info) d).
Let I : state -> Prop := fun s => R (contacts s).

Lemma update_contact_stable : triple I update_contact (fun _ => I) I.
Proof.
  unfold update_contact.
  eapply triple_bind; [apply (triple_input R) | intros line0].
  eapply triple_bind;
    [eapply triple_weaken;
     [apply (triple_get_contacts R) | auto | intros d s [_ H]; exact H]
    | intros d].
  destruct (negb (Dict.mem (Text.strip line0) d)); [apply (triple_print R)|].
  eapply triple_bind; [apply (triple_print R) | intros ?].
  eapply triple_bind; [apply (triple_input R) | intros line1].
  eapply triple_bind.
  { destruct (Text.nonempty (Text.strip line1)); [|apply (triple_ret_tt R)].
    destruct (validate_phone (Text.strip line1)) as [valid cleaned] eqn:Ev.
    destruct valid; [|apply (triple_ret_tt R)].
    apply (triple_modify_record R). intros d0 info Hd Hget.
    eapply new_phone; eauto. }
  intros ?.
  eapply triple_bind; [apply (triple_input R) | intros line2].
  eapply triple_bind.
  { apply (triple_skip_or R). apply (triple_modify_record R).
    intros d0 info Hd Hget. eapply keep_phone; eauto. }
  intros ?.
  eapply triple_bind; [apply (triple_input R) | intros line3].
  eapply triple_bind.
  { apply (triple_skip_or R). apply (triple_modify_record R).
    intros d0 info Hd Hget. eapply keep_phone; eauto. }
  intros ?.
  eapply triple_bind; [apply (triple_input R) | intros line4].
  eapply triple_bind.
  { apply (triple_skip_or R). apply (triple_modify_record R).
    intros d0 info Hd Hget. eapply keep_phone; eauto. }
  intros ?.
  eapply triple_bind; [apply (triple_now R) | intros t].
  eapply triple_bind.
  { apply (triple_modify_record R).
    intros d0 info Hd Hget. eapply keep_phone; eauto. }
  intros ?.
  eapply triple_bind; [apply (triple_print R) | intros ?].
  apply (triple_save_contacts R).
Qed.

End UpdateStable.

Lemma triple_pre_pure {A} (phi : Prop) (P : state -> Prop) (m : Prog A)
    (Q : A -> state -> Prop) (E : state -> Prop) :
  (phi -> triple P m Q E) -> triple (fun s => P s /\ phi) m Q E.
Proof. intros H s [HP Hphi]. exact (H Hphi s HP). Qed.

(** [add_contact] either returns after storing, under the name read, a
    record whose phone is the normalized value of a successful
    [validate_phone], or raises with the dictionary as it was. *)
Lemma add_contact_stores d0 :
  triple (fun s => contacts s = d0) add_contact
    (fun _ s => exists name info raw,
       validate_phone raw = (true, phone info) /\
       contacts s = Dict.set name info d0)
    (fun s => contacts s = d0).
Proof.
  pose (R := fun d : contacts_t => d = d0).
  change (fun s => contacts s = d0) with (fun s => R (contacts s)).
  unfold add_contact.
  eapply triple_bind; [apply (triple_print R) | intros ?].
  eapply triple_bind with (Q := fun _ s => R (contacts s)).
  { apply triple_while_true; [|auto].
    eapply triple_bind; [apply (triple_input R) | intros line].
    destruct (Text.nonempty (Text.strip line)).
    - intros s H. exact H.
    - eapply triple_bind; [apply (triple_print R) | intros ?].
      intros s H. exact H. }
  intros name.
  eapply triple_bind with
    (Q := fun cleaned s => R (contacts s) /\
                           exists raw, validate_phone raw = (true, cleaned)).
  { apply triple_while_true; [|auto].
    eapply triple_bind; [apply (triple_input R) | intros line].
    destruct (validate_phone (Text.strip line)) as [valid cleaned] eqn:Ev.
    destruct valid.
    - intros s H. split; [exact H | eauto].
    - eapply triple_bind; [apply (triple_print R) | intros ?].
      intros s H. exact H. }
  intros cleaned. apply triple_pre_pure. intros [raw Hraw].
  eapply triple_bind with (Q := fun _ s => R (contacts s)).
  { apply triple_while_true; [|auto].
    eapply triple_bind; [apply (triple_input R) | intros line].
    destruct (negb (Text.nonempty (Text.strip line)) || validate_email (Text.strip line)).
    - intros s H. exact H.
    - eapply triple_bind; [apply (triple_print R) | intros ?].
      intros s H. exact H. }
  intros email.
  eapply triple_bind; [apply (triple_input R) | intros line_address].
  eapply triple_bind; [apply (triple_input R) | intros line_group].
  eapply triple_bind; [apply (triple_now R) | intros created].
  eapply triple_bind; [apply (triple_now R) | intros updated].
  intros s H. unfold R in H. cbn.
  eexists name, _, raw. split; [|rewrite H; reflexivity]. exact Hraw.
Qed.

Lemma delete_contact_contacts s :
  contacts (snd (delete_contact s)) = contacts s \/
  exists name, contacts (snd (delete_contact s)) = Dict.del name (contacts s).
Proof.
  destruct (stdin s) as [|line rest] eqn:Hin.
  - left. unfold delete_contact, bind, input. now rewrite Hin.
  - destruct (Dict.mem (Text.strip line) (contacts s)) eqn:Hmem.
    + right. exists (Text.strip line).
      now rewrite (delete_present_run _ _ _ Hin Hmem).
    + left. now rewrite (delete_absent_run _ _ _ Hin Hmem).
Qed.

Lemma update_keeps_phones_valid :
  triple (fun s => phones_valid (contacts s)) update_contact
         (fun _ s => phones_valid (contacts s))
         (fun s => phones_valid (contacts s)).
Proof.
  apply (update_contact_stable phones_valid).
  - intros d name info info' Hd Hget Hp. apply phones_valid_set; [exact Hd|].
    rewrite Hp. eapply phones_valid_get; eauto.
  - intros d name info raw cleaned Hd Hget Hv. apply phones_valid_set; [exact Hd|].
    cbn. eapply validate_phone_ok; eauto.
Qed.

Lemma update_phones_from d0 :
  triple (fun s => phones_from d0 (contacts s)) update_contact
         (fun _ s => phones_from d0 (contacts s))
         (fun s => phones_from d0 (contacts s)).
Proof.
  apply (update_contact_stable (phones_from d0)).
  - intros d name info info' Hd Hget Hp k i Hk.
    destruct (string_dec k name) as [->|Hne].
    + rewrite dict_get_set_same in Hk. inversion Hk; subst i.
      destruct (Hd _ _ Hget) as [[i0 [H0 E0]]|[raw Hraw]].
      * left. exists i0. split; [exact H0 | congruence].
      * right. exists raw. now rewrite Hp.
    + rewrite dict_get_set_other in Hk by exact Hne. eauto.
  - intros d name info raw cleaned Hd Hget Hv k i Hk.
    destruct (string_dec k name) as [->|Hne].
    + rewrite dict_get_set_same in Hk. inversion Hk; subst i.
      right. exists raw. exact Hv.
    + rewrite dict_get_set_other in Hk by exact Hne. eauto.
Qed.

(** C9. The handlers that change the dictionary keep every stored phone a
    string of ten to fifteen decimal digits: [add_contact] stores, on
    return, a record whose phone is the normalized value of a successful
    [validate_phone]; after [update_contact] every phone is the one the
    name had before or such a normalized value; [delete_contact] only
    removes an entry. *)
Theorem phone_invariant_preserved (s : state) :
  phones_valid (contacts s) ->
  phones_valid (contacts (snd (add_contact s))) /\
  phones_valid (contacts (snd (update_contact s))) /\
  phones_valid (contacts (snd (delete_contact s))) /\
  (fst (add_contact s) = Return tt ->
   exists name info raw,
     validate_phone raw = (true, phone info) /\
     contacts (snd (add_contact s)) = Dict.set name info (contacts s)) /\
  phones_from (contacts s) (contacts (snd (update_contact s))).
Proof.
  intros Hinv.
  pose proof (add_contact_stores (contacts s) s eq_refl) as Hadd.
  pose proof (update_keeps_phones_valid s Hinv) as Hupd.
  pose proof (update_phones_from (contacts s) s (phones_from_refl _)) as Hfrom.
  split; [|split; [|split; [|split]]].
  - destruct (add_contact s) as [[[]|e] s1]; cbn [snd].
    + destruct Hadd as [name [info [raw [Hraw Hs1]]]]. rewrite Hs1.
      apply phones_valid_set; [exact Hinv|]. eapply validate_phone_ok; eauto.
    + now rewrite Hadd.
  - destruct (update_contact s) as [[[]|e] s1]; exact Hupd.
  - destruct (delete_contact_contacts s) as [H|[name H]]; rewrite H.
    + exact Hinv.
    + now apply phones_valid_del.
  - destruct (add_contact s) as [[[]|e] s1]; cbn [fst snd].
    + intros _. exact Hadd.
    + discriminate.
  - destruct (update_contact s) as [[[]|e] s1]; exact Hfrom.
Qed.

Lemma sample_contacts_phones_valid : phones_valid sample_contacts.
Proof.
  repeat constructor; cbn;
    eexists; (split; [reflexivity | split; [reflexivity | cbn; lia]]).
Qed.

Lemma phone_invariant_preserved_witness :
  phones_valid (contacts (sample_state ["Bob"; "(555) 123-4567"; ""; ""; ""])) /\
  phones_valid
    (contacts (snd (add_contact (sample_state ["Bob"; "(555) 123-4567"; ""; ""; ""])))).
Proof.
  split; [exact sample_contacts_phones_valid |].
  exact (proj1 (phone_invariant_preserved
                  (sample_state ["Bob"; "(555) 123-4567"; ""; ""; ""])
                  sample_contacts_phones_valid)).
Defined.

(** Adding a contact named "Alice" with phone "(555) 123-4567" stores the
    phone "5551234567"; the entry that was under the name is replaced. *)
Example add_alice_normalizes_phone :
  let s' := snd (add_contact
                   (sample_state [" Alice"; "123"; "(555) 123-4567"; "nobody"; ""; ""; ""])) in
  Dict.get "Alice" (contacts s') =
    Some (mkContact (Some "5551234567") None None "Other"
                    "2024-01-09T01:00:00" "2024-01-09T01:00:00.000001") /\
  Dict.keys (contacts s') = ["Alice"; "Natalie"] /\
  storage_file s' = Some (Json.dumps (py_of_contacts (contacts s'))).
Proof. vm_compute. repeat split. Qed.

(** ** The loops terminate *)

Lemma iterate_never_diverges {A} (body : Prog (option A)) :
  (forall s, match body s with
             | (Return None, s') => (List.length (stdin s') < List.length (stdin s))%nat
             | (Return (Some _), _) => True
             | (Raise e, _) => e <> Diverged
             end) ->
  forall fuel s, (List.length (stdin s) < fuel)%nat ->
    fst (iterate fuel body s) <> Raise Diverged.
Proof.
  intros Hbody. induction fuel as [|k IH]; intros s Hlt; [lia|].
  cbn [iterate]. unfold bind. specialize (Hbody s).
  destruct (body s) as [[[a|]|e] s1]; cbn.
  - discriminate.
  - apply IH. lia.
  - congruence.
Qed.

Lemma while_true_never_diverges {A} (body : Prog (option A)) :
  (forall s, match body s with
             | (Return None, s') => (List.length (stdin s') < List.length (stdin s))%nat
             | (Return (Some _), _) => True
             | (Raise e, _) => e <> Diverged
             end) ->
  forall s, fst (while_true body s) <> Raise Diverged.
Proof.
  intros Hbody s. unfold while_true. apply iterate_never_diverges; [exact Hbody | lia].
Qed.

Lemma bind_never_diverges {A B} (m : Prog A) (k : A -> Prog B) :
  (forall s, fst (m s) <> Raise Diverged) ->
  (forall a s, fst (k a s) <> Raise Diverged) ->
  forall s, fst (bind m k s) <> Raise Diverged.
Proof.
  intros Hm Hk s. unfold bind. specialize (Hm s).
  destruct (m s) as [[a|e] s1]; cbn in *; [apply Hk |].
  intros H. apply Hm. now inversion H.
Qed.

Lemma input_never_diverges prompt s : fst (input prompt s) <> Raise Diverged.
Proof. unfold input. destruct (stdin s); discriminate. Qed.

Ltac prompt_round :=
  let s0 := fresh "s" in
  intros s0; unfold bind, input;
  destruct (stdin s0) as [|? ?]; [discriminate|].

(** The three prompt loops of [add_contact] never exhaust the fuel that
    the embedding gives them: [add_contact] returns or raises [EOFError]. *)
Lemma add_contact_never_diverges s : fst (add_contact s) <> Raise Diverged.
Proof.
  revert s. unfold add_contact.
  apply bind_never_diverges; [discriminate | intros ?].
  apply bind_never_diverges.
  { apply while_true_never_diverges. prompt_round.
    destruct (Text.nonempty _); cbn; [exact Logic.I | lia]. }
  intros name. apply bind_never_diverges.
  { apply while_true_never_diverges. prompt_round.
    destruct (validate_phone _) as [[|] cleaned]; cbn; [exact Logic.I | lia]. }
  intros cleaned. apply bind_never_diverges.
  { apply while_true_never_diverges. prompt_round.
    destruct (_ || _); cbn; [exact Logic.I | lia]. }
  intros email.
  apply bind_never_diverges; [apply input_never_diverges | intros ?].
  apply bind_never_diverges; [apply input_never_diverges | intros ?].
  intros s. discriminate.
Qed.

(** ** Dates and times *)

Local Open Scope Z_scope.

Lemma digit_isdigit n : 0 <= n <= 9 -> Text.isdigit (Datetime.digit n) = true.
Proof.
  intros H. unfold Datetime.digit.
  assert (Hk : (Z.to_nat n < 10)%nat) by lia.
  destruct (Z.to_nat n) as [|k]; [reflexivity|].
  do 9 (destruct k as [|k]; [reflexivity|]). lia.
Qed.

Lemma digit_value n : 0 <= n <= 9 -> Z.of_nat (Text.code (Datetime.digit n)) - 48 = n.
Proof.
  intros H. unfold Datetime.digit.
  rewrite <- (Z2Nat.id n) at 2 by lia.
  assert (Hk : (Z.to_nat n < 10)%nat) by lia.
  destruct (Z.to_nat n) as [|k]; [reflexivity|].
  do 9 (destruct k as [|k]; [reflexivity|]). lia.
Qed.

Lemma read_digits_add a b acc s :
  Datetime.read_digits (a + b) acc s =
  match Datetime.read_digits a acc s with
  | Some (acc', s') => Datetime.read_digits b acc' s'
  | None => None
  end.
Proof.
  revert acc s. induction a as [|a IH]; intros acc s; [reflexivity|].
  cbn [Nat.add Datetime.read_digits].
  destruct s as [|c r]; [reflexivity|].
  destruct (Text.isdigit c); [apply IH | reflexivity].
Qed.

(** Reading back [w] printed digits. *)
Lemma read_zero_padded w n acc rest :
  0 <= n < 10 ^ Z.of_nat w ->
  Datetime.read_digits w acc (Datetime.zero_padded w n ++ rest)%string =
  Some (acc * 10 ^ Z.of_nat w + n, rest).
Proof.
  revert n acc rest. induction w as [|w IH]; intros n acc rest Hn.
  - cbn. f_equal. f_equal. cbn in Hn. lia.
  - replace (S w) with (w + 1)%nat at 1 by lia.
    rewrite read_digits_add. cbn [Datetime.zero_padded].
    rewrite append_assoc.
    assert (Hpow : 10 ^ Z.of_nat (S w) = 10 * 10 ^ Z.of_nat w).
    { rewrite Nat2Z.inj_succ, Z.pow_succ_r by lia. reflexivity. }
    assert (Hmod : 0 <= n mod 10 <= 9) by (pose proof (Z.mod_pos_bound n 10); lia).
    rewrite IH.
    + cbn [String.append Datetime.read_digits].
      rewrite digit_isdigit by exact Hmod. rewrite digit_value by exact Hmod.
      f_equal. f_equal. rewrite Hpow.
      pose proof (Z.div_mod n 10 ltac:(lia)). lia.
    + rewrite Hpow in Hn. split.
      * apply Z.div_pos; lia.
      * apply Z.div_lt_upper_bound; lia.
Qed.

Lemma days_in_month_le y m : Datetime.days_in_month y m <= 31.
Proof.
  unfold Datetime.days_in_month.
  destruct ((m =? 2) && Datetime.is_leap y); [lia|].
  destruct (Z.to_nat m) as [|[|[|[|[|[|[|[|[|[|[|[|[|[|k]]]]]]]]]]]]]]; cbn; lia.
Qed.

#[local] Arguments Datetime.zero_padded : simpl never.
#[local] Arguments Datetime.read_digits : simpl never.
#[local] Arguments Datetime.valid : simpl never.

Ltac expect_here :=
  match goal with
  | |- context [Datetime.expect ?n (String ?c ?r)] =>
      change (Datetime.expect n (String c r)) with (Some r)
  end.

(** [fromisoformat] reads back what [isoformat] prints. *)
Lemma fromisoformat_isoformat t :
  Datetime.valid t = true ->
  Datetime.fromisoformat (Datetime.isoformat t) = Some t.
Proof.
  intros Hv. pose proof Hv as Hv'. unfold Datetime.valid in Hv.
  repeat (apply andb_prop in Hv; destruct Hv as [Hv ?]).
  repeat match goal with
         | H : (_ <=? _) = true |- _ => apply Z.leb_le in H
         end.
  pose proof (days_in_month_le (year t) (month t)).
  unfold Datetime.fromisoformat, Datetime.isoformat.
  repeat (rewrite read_zero_padded by (cbn; lia);
          cbn [Datetime.bind String.append Datetime.skip_char];
          try expect_here; cbn [Datetime.bind]).
  destruct (microsecond t =? 0) eqn:Eus.
  - apply Z.eqb_eq in Eus. cbn [Datetime.bind].
    replace (mkDatetime _ _ _ _ _ _ _) with t by (destruct t; cbn in *; f_equal; lia).
    now rewrite Hv'.
  - cbn [Datetime.bind String.append]. expect_here. cbn [Datetime.bind].
    rewrite <- (append_empty_r (Datetime.zero_padded 6 (microsecond t))).
    rewrite read_zero_padded by (cbn; lia). cbn [Datetime.bind].
    replace (mkDatetime _ _ _ _ _ _ _) with t by (destruct t; cbn in *; f_equal; lia).
    now rewrite Hv'.
Qed.

(** The [days] of a difference of datetimes is the number of whole
    periods of 24 hours in it, rounded down. *)
Lemma sub_days a b :
  Datetime.days (Datetime.sub a b) =
  (microseconds_since_origin a - microseconds_since_origin b) / 86400000000.
Proof.
  unfold Datetime.sub, Datetime.make_timedelta, microseconds_since_origin.
  cbn [Datetime.days].
  set (d := Datetime.toordinal a - Datetime.toordinal b).
  set (sa := second a + minute a * 60 + hour a * 3600).
  set (sb := second b + minute b * 60 + hour b * 3600).
  set (u := microsecond a - microsecond b).
  replace ((Datetime.toordinal a * 86400 + sa) * 1000000 + microsecond a -
           ((Datetime.toordinal b * 86400 + sb) * 1000000 + microsecond b))
    with ((d * 86400 + (sa - sb)) * 1000000 + u) by (unfold d, u; lia).
  change 86400000000 with (1000000 * 86400).
  rewrite <- Z.div_div by lia.
  rewrite Z.div_add_l by lia.
  replace (d * 86400 + (sa - sb) + u / 1000000)
    with (d * 86400 + (sa - sb + u / 1000000)) by lia.
  now rewrite Z.div_add_l by lia.
Qed.

(** The test of [view_statistics] accepts a timestamp exactly when less
    than eight times 24 hours have passed since it. *)
Lemma recently_iff current updated :
  recently current updated = true <->
  microseconds_since_origin current - microseconds_since_origin updated
    < 8 * 86400000000.
Proof.
  unfold recently. rewrite sub_days, Z.leb_le.
  set (x := microseconds_since_origin current - microseconds_since_origin updated).
  pose proof (Z.div_mod x 86400000000 ltac:(lia)).
  pose proof (Z.mod_pos_bound x 86400000000 ltac:(lia)).
  lia.
Qed.

Local Close Scope Z_scope.

(** ** Statistics *)

Lemma group_lines_loop (groups : Dict.t nat) s :
  for_each groups tt (fun '(g, c) _ =>
    print ("  " ++ g ++ ": " ++ str_of_nat c ++ " contact(s)")) s
  = (Return tt,
     after_output
       (List.map (fun gc => Print ("  " ++ fst gc ++ ": " ++ str_of_nat (snd gc)
                                   ++ " contact(s)")) groups) s).
Proof.
  revert s. induction groups as [|[g c] r IH]; intros s.
  - cbn. unfold ret. now rewrite after_output_nil.
  - cbn [for_each List.map fst snd]. rewrite bind_print, IH.
    now rewrite after_output_app.
Qed.

Lemma recent_loop (infos : list contact) (updates : list datetime) recent s :
  List.map updated_at infos = List.map Datetime.isoformat updates ->
  Forall (fun u => Datetime.valid u = true) updates ->
  for_each infos recent (fun info recent =>
    match Datetime.fromisoformat (updated_at info) with
    | None => raise ValueError
    | Some updated =>
        current <- now ;;
        if recently current updated then ret (recent + 1)%nat else ret recent
    end) s
  = (Return (recent + count_recent recently (clock s) (ticks s) updates)%nat,
     mkState (contacts s) (stdin s) (stdout s) (storage_file s) (csv_file s)
             (clock s) (ticks s + List.length updates)).
Proof.
  revert updates recent s. induction infos as [|info r IH]; intros updates recent s Hmap Hvalid.
  - destruct updates; [|discriminate]. cbn. unfold ret.
    rewrite !Nat.add_0_r. now destruct s.
  - destruct updates as [|u us]; [discriminate|].
    cbn [List.map] in Hmap. injection Hmap as Hu Hr.
    inversion Hvalid as [|? ? Hvu Hvus]; subst.
    cbn [for_each count_recent List.length]. unfold bind at 1.
    rewrite Hu, (fromisoformat_isoformat _ Hvu).
    unfold bind at 1. unfold now at 1.
    destruct (recently (clock s (ticks s)) u); unfold ret at 1;
      rewrite (IH us) by assumption;
      cbn [contacts stdin stdout storage_file csv_file clock ticks];
      repeat (f_equal; try lia).
Qed.

Lemma view_statistics_run s (updates : list datetime) :
  List.map updated_at (Dict.values (contacts s)) = List.map Datetime.isoformat updates ->
  Forall (fun u => Datetime.valid u = true) updates ->
  view_statistics s =
    (Return tt,
     mkState (contacts s) (stdin s)
             (stdout s ++ statistics_head (contacts s) ++
              [recently_updated_line
                 (count_recent recently (clock s) (ticks s) updates)])%list
             (storage_file s) (csv_file s) (clock s)
             (ticks s + List.length updates)).
Proof.
  intros Hmap Hvalid. unfold view_statistics.
  rewrite bind_print. unfold bind at 1. unfold get_contacts at 1.
  cbn [after_output contacts]. rewrite bind_print, bind_print.
  unfold bind at 1. rewrite group_lines_loop.
  unfold bind at 1.
  rewrite (recent_loop _ updates) by assumption.
  unfold print, after_output, statistics_head, recently_updated_line.
  cbn [contacts stdin stdout storage_file csv_file clock ticks Nat.add].
  repeat rewrite <- List.app_assoc. reflexivity.
Qed.

(** C4 as worded does not hold: Alice was updated on 1 January at 23:00
    and the clock shows 9 January, 01:00.  Eight calendar days lie between
    the two dates, so by calendar-day difference only Natalie is recent;
    seven days and two hours have passed, so the program counts both. *)
Lemma recently_updated_not_calendar_days :
  List.map updated_at (Dict.values sample_contacts) =
    List.map Datetime.isoformat sample_updates /\
  calendar_day_difference (sample_clock 0) (mkDatetime 2024 1 1 23 0 0 0) = 8%Z /\
  Datetime.sub (sample_clock 0) (mkDatetime 2024 1 1 23 0 0 0) =
    Datetime.mkTimedelta 7 7200 0 /\
  count_recent within_seven_calendar_days sample_clock 0 sample_updates = 1 /\
  List.last (stdout (snd (view_statistics (sample_state [])))) (Print "") =
    recently_updated_line 2 /\
  ~ reports_calendar_recent (sample_state []) sample_updates.
Proof.
  repeat (split; [vm_compute; reflexivity|]).
  unfold reports_calendar_recent. vm_compute. discriminate.
Qed.

(** Three contacts in the groups Work, Work and Family are counted as
    Work: 2 and Family: 1, in the order in which the groups first occur. *)
Example group_counts_first_seen :
  group_counts [("Ann", sample_alice); ("Bob", sample_alice);
                ("Cid", sample_natalie)] = [("Work", 2); ("Family", 1)].
Proof. reflexivity. Qed.

(** C4, amended. The line "Recently Updated" reports the number of
    contacts for which the [days] of [now - updated_at] is at most 7: less
    than eight times 24 hours have passed since the update, whatever the
    calendar dates are.  The clock is read once for each contact. *)
Theorem recently_updated_counts_whole_days (s : state) (updates : list datetime) :
  List.map updated_at (Dict.values (contacts s)) =
    List.map Datetime.isoformat updates ->
  Forall (fun u => Datetime.valid u = true) updates ->
  let s' := snd (view_statistics s) in
  fst (view_statistics s) = Return tt /\
  stdout s' =
    (stdout s ++ statistics_head (contacts s) ++
     [recently_updated_line (count_recent recently (clock s) (ticks s) updates)])%list /\
  (forall current updated,
     recently current updated = true <->
     (microseconds_since_origin current - microseconds_since_origin updated
      < 8 * 86400000000)%Z) /\
  contacts s' = contacts s /\
  storage_file s' = storage_file s.
Proof.
  intros Hmap Hvalid s'. subst s'.
  rewrite (view_statistics_run _ _ Hmap Hvalid).
  cbn [fst snd contacts stdout storage_file].
  split; [reflexivity|]. split; [reflexivity|].
  split; [exact recently_iff|]. split; reflexivity.
Qed.

Lemma recently_updated_counts_whole_days_witness :
  List.map updated_at (Dict.values (contacts (sample_state []))) =
    List.map Datetime.isoformat sample_updates /\
  Forall (fun u => Datetime.valid u = true) sample_updates /\
  stdout (snd (view_statistics (sample_state []))) =
    (statistics_head sample_contacts ++ [recently_updated_line 2])%list.
Proof.
  assert (Hv : Forall (fun u => Datetime.valid u = true) sample_updates)
    by (repeat constructor).
  split; [reflexivity | split; [exact Hv |]].
  exact (proj1 (proj2
    (recently_updated_counts_whole_days (sample_state []) sample_updates eq_refl Hv))).
Defined.

(** ** JSON round trip *)

Lemma scanstring_escape_char c tail :
  Json.scanstring (Json.escape_char c ++ tail) =
  Json.cons_result c (Json.scanstring tail).
Proof.
  destruct c as [[|] [|] [|] [|] [|] [|] [|] [|]]; reflexivity.
Qed.

#[local] Arguments Json.escape_char : simpl never.

Lemma scanstring_escape s rest :
  Json.scanstring (Json.escape s ++ Text.dquote ++ rest) = Some (s, rest).
Proof.
  induction s as [|c r IH]; [reflexivity|].
  cbn [Json.escape]. rewrite append_assoc, scanstring_escape_char, IH.
  reflexivity.
Qed.

Lemma skip_ws_spaces n s : Json.skip_ws (Text.repeat " " n ++ s) = Json.skip_ws s.
Proof. induction n as [|n IH]; [reflexivity | exact IH]. Qed.

Lemma repeat_indent_unit n :
  Text.repeat Json.indent_unit n = Text.repeat " " (4 * n).
Proof.
  induction n as [|n IH]; [reflexivity|].
  replace (4 * S n) with (S (S (S (S (4 * n))))) by lia.
  cbn [Text.repeat]. rewrite IH. reflexivity.
Qed.

Lemma skip_ws_newline_indent n s :
  Json.skip_ws (Text.nl ++ Text.repeat Json.indent_unit n ++ s) = Json.skip_ws s.
Proof.
  rewrite repeat_indent_unit. change (Text.nl ++ ?x) with (String (ascii_of_nat 10) x).
  cbn [Json.skip_ws]. change (Json.is_ws (ascii_of_nat 10)) with true.
  cbn iota. apply skip_ws_spaces.
Qed.

Lemma cost_dict items : cost (PDict items) = S (members_cost items).
Proof.
  cbn [cost]. f_equal. induction items as [|[k x] r IH]; [reflexivity|].
  cbn [members_cost List.fold_right snd]. now rewrite IH.
Qed.

Lemma iterencode_dict level kv items :
  Json.iterencode level (PDict (kv :: items)) =
  "{" ++ Text.nl ++ Text.repeat Json.indent_unit (S level) ++
  encode_members level true (kv :: items).
Proof.
  cbn [Json.iterencode]. 
  assert (H : forall first l,
    (fix members (first : bool) (l : list (string * pyvalue)) : string :=
       match l with
       | [] => Text.nl ++ Text.repeat Json.indent_unit level ++ "}"
       | (key, value) :: rest =>
           (if first then ""
            else "," ++ Text.nl ++ Text.repeat Json.indent_unit (S level)) ++
           Json.encode_basestring_ascii key ++ ": " ++
           Json.iterencode (S level) value ++ members false rest
       end) first l = encode_members level first l).
  { intros first l. revert first. induction l as [|[k x] r IH]; intros first.
    - reflexivity.
    - cbn [encode_members]. now rewrite IH. }
  rewrite H. now rewrite !append_assoc.
Qed.

(** Induction on values, with the hypothesis for every value of a
    dictionary. *)
Lemma pyvalue_induction (P : pyvalue -> Prop) :
  P PNone ->
  (forall s, P (PStr s)) ->
  (forall items, Forall (fun kv => P (snd kv)) items -> P (PDict items)) ->
  forall v, P v.
Proof.
  intros HNone HStr HDict.
  fix IH 1. intros [|s|items].
  - exact HNone.
  - apply HStr.
  - apply HDict. induction items as [|[k x] r IHr]; constructor.
    + apply IH.
    + exact IHr.
Qed.

Ltac eval_tests :=
  repeat match goal with
  | |- context [Nat.eqb (Text.code (Ascii ?a ?b ?c ?d ?e ?f ?g ?h)) ?n] =>
      let t := constr:(Nat.eqb (Text.code (Ascii a b c d e f g h)) n) in
      let v := eval vm_compute in t in
      change t with v
  end; cbn iota.

Lemma skip_ws_stop c s : Json.is_ws c = false -> Json.skip_ws (String c s) = String c s.
Proof. intros H. cbn [Json.skip_ws]. now rewrite H. Qed.

Lemma wf_value_dict items :
  wf_value (PDict items) <->
  NoDup (List.map fst items) /\ Forall (fun kv => wf_value (snd kv)) items.
Proof.
  cbn [wf_value]. apply and_iff_compat_l.
  induction items as [|[k x] r IH].
  - split; [constructor | trivial].
  - split.
    + intros [Hx Hr]. constructor; [exact Hx | now apply IH].
    + intros H. inversion H; subst. split; [assumption | now apply IH].
Qed.

Lemma skip_ws_iterencode level v t :
  Json.skip_ws (Json.iterencode level v ++ t) = Json.iterencode level v ++ t.
Proof.
  destruct v as [|s|[|kv items]].
  - reflexivity.
  - reflexivity.
  - reflexivity.
  - rewrite iterencode_dict. reflexivity.
Qed.

(** [dict(pairs)] of pairs with distinct keys is the list of the pairs. *)
Lemma of_pairs_fold {V} (l acc : list (string * V)) :
  NoDup (List.map fst (acc ++ l)%list) ->
  fold_left (fun d kv => Dict.set (fst kv) (snd kv) d) l acc = (acc ++ l)%list.
Proof.
  revert acc. induction l as [|[k v] r IH]; intros acc Hnd; cbn [fold_left fst snd].
  - now rewrite List.app_nil_r.
  - assert (Hk : Dict.mem k acc = false).
    { destruct (Dict.mem k acc) eqn:E; [|reflexivity]. exfalso.
      apply dict_mem_in_keys in E. unfold Dict.keys in E.
      rewrite List.map_app in Hnd. cbn in Hnd.
      apply NoDup_remove_2 in Hnd. apply Hnd. apply in_or_app. now left. }
    rewrite dict_set_absent by exact Hk. rewrite IH.
    + now rewrite <- List.app_assoc.
    + now rewrite <- List.app_assoc.
Qed.

Lemma of_pairs_nodup {V} (l : list (string * V)) :
  NoDup (List.map fst l) -> Dict.of_pairs l = l.
Proof. intros H. unfold Dict.of_pairs. now rewrite of_pairs_fold. Qed.

Lemma skip_ws_skip c s : Json.is_ws c = true -> Json.skip_ws (String c s) = Json.skip_ws s.
Proof. intros H. cbn [Json.skip_ws]. now rewrite H. Qed.

Lemma dquote_cons x : Text.dquote ++ x = String "034" x.
Proof. reflexivity. Qed.

Lemma members_roundtrip level r :
  Forall (fun kv => reads_back (snd kv)) r ->
  Forall (fun kv => wf_value (snd kv)) r ->
  forall key value pairs fuel rest,
    reads_back value -> wf_value value ->
    S (cost value + members_cost r) <= fuel ->
    Json.members fuel
      (Json.escape key ++ Text.dquote ++ ": " ++
       Json.iterencode (S level) value ++ encode_members level false r ++ rest)
      pairs
    = Some (PDict (Dict.of_pairs (pairs ++ (key, value) :: r)%list), rest).
Proof.
  induction r as [|[k2 x2] r IH]; intros HP Hwf key value pairs fuel rest Hv Hwv Hfuel.
  - destruct fuel as [|k]; [lia|]. cbn [Json.members].
    rewrite scanstring_escape. cbn [String.append].
    rewrite skip_ws_stop by reflexivity. eval_tests.
    rewrite skip_ws_skip by reflexivity. rewrite skip_ws_iterencode.
    rewrite (Hv Hwv) by (cbn [members_cost List.fold_right] in Hfuel; lia).
    cbn [encode_members]. rewrite !append_assoc.
    rewrite skip_ws_newline_indent. cbn [String.append].
    rewrite skip_ws_stop by reflexivity. eval_tests.
    reflexivity.
  - destruct fuel as [|k]; [lia|]. cbn [Json.members].
    rewrite scanstring_escape. cbn [String.append].
    rewrite skip_ws_stop by reflexivity. eval_tests.
    rewrite skip_ws_skip by reflexivity. rewrite skip_ws_iterencode.
    cbn [members_cost List.fold_right snd] in Hfuel.
    fold (members_cost r) in Hfuel.
    rewrite (Hv Hwv) by lia.
    cbn [encode_members]. unfold Json.encode_basestring_ascii.
    rewrite !append_assoc. cbn [String.append].
    rewrite skip_ws_stop by reflexivity. eval_tests.
    rewrite skip_ws_newline_indent. rewrite dquote_cons.
    rewrite skip_ws_stop by reflexivity. eval_tests.
    inversion HP as [|? ? HPx HPr]; subst. inversion Hwf as [|? ? Hwx Hwr]; subst.
    cbn [snd] in *.
    pose proof (IH HPr Hwr k2 x2 (pairs ++ [(key, value)])%list k rest
                  HPx Hwx ltac:(lia)) as Hrec.
    rewrite <- List.app_assoc in Hrec. exact Hrec.
Qed.

(** Decoding the text of a value gives the value back and stops right
    after it. *)
Lemma scan_roundtrip v : reads_back v.
Proof.
  induction v as [|s|items HP] using pyvalue_induction;
    intros Hwf level fuel rest Hfuel.
  - destruct fuel as [|k]; [cbn in Hfuel; lia | reflexivity].
  - destruct fuel as [|k]; [cbn in Hfuel; lia|].
    cbn [Json.iterencode]. unfold Json.encode_basestring_ascii.
    rewrite !append_assoc, dquote_cons. cbn [Json.scan_once]. eval_tests.
    now rewrite scanstring_escape.
  - destruct items as [|[key value] r].
    + destruct fuel as [|k]; [cbn in Hfuel; lia | reflexivity].
    + rewrite iterencode_dict. rewrite cost_dict in Hfuel.
      destruct fuel as [|k]; [lia|].
      apply wf_value_dict in Hwf. destruct Hwf as [Hnd Hall].
      inversion HP as [|? ? HPv HPr]; subst.
      inversion Hall as [|? ? Hwv Hwr]; subst. cbn [snd] in *.
      cbn [members_cost List.fold_right snd] in Hfuel. fold (members_cost r) in Hfuel.
      cbn [String.append Json.scan_once]. eval_tests.
      rewrite !append_assoc. rewrite skip_ws_newline_indent.
      cbn [encode_members]. unfold Json.encode_basestring_ascii.
      rewrite !append_assoc. cbn [String.append]. rewrite dquote_cons.
      rewrite skip_ws_stop by reflexivity. eval_tests.
      pose proof (members_roundtrip level r HPr Hwr key value [] k rest
                    HPv Hwv ltac:(lia)) as Hrec.
      cbn [List.app] in Hrec. rewrite of_pairs_nodup in Hrec by exact Hnd.
      exact Hrec.
Qed.

Lemma skip_ws_empty : Json.skip_ws "" = "".
Proof. reflexivity. Qed.

Lemma cost_le_length level v : cost v <= length (Json.iterencode level v).
Proof.
  revert level. induction v as [|s|items HP] using pyvalue_induction; intros level.
  - cbn. lia.
  - cbn [cost Json.iterencode]. unfold Json.encode_basestring_ascii.
    rewrite dquote_cons. cbn [length]. lia.
  - destruct items as [|kv r]; [cbn; lia|].
    rewrite iterencode_dict, cost_dict. cbn [String.append length].
    rewrite !length_append.
    assert (H : forall first l, Forall (fun kv => forall level, cost (snd kv) <= length (Json.iterencode level (snd kv))) l ->
                members_cost l <= length (encode_members level first l)).
    { intros first l. revert first. induction l as [|[k x] l IH]; intros first Hl.
      - cbn. lia.
      - inversion Hl as [|? ? Hx Hl']; subst. cbn [snd] in Hx.
        cbn [members_cost List.fold_right snd encode_members].
        fold (members_cost l). rewrite !length_append.
        specialize (IH false Hl'). specialize (Hx (S level)).
        unfold Json.encode_basestring_ascii. rewrite dquote_cons.
        cbn [length]. lia. }
    specialize (H true (kv :: r) HP). lia.
Qed.

(** The text that [json.dump] writes for a value whose dictionaries have
    distinct keys is read back by [json.load] as that value. *)
Lemma loads_dumps v : wf_value v -> Json.loads (Json.dumps v) = Some v.
Proof.
  intros Hwf. unfold Json.loads, Json.dumps.
  rewrite <- (append_empty_r (Json.iterencode 0 v)) at 2.
  rewrite skip_ws_iterencode.
  rewrite (scan_roundtrip v Hwf) by (pose proof (cost_le_length 0 v); lia).
  reflexivity.
Qed.

Lemma py_of_field_inj a b : py_of_field a = py_of_field b -> a = b.
Proof. destruct a, b; cbn; congruence. Qed.

Lemma py_of_contact_inj a b : py_of_contact a = py_of_contact b -> a = b.
Proof.
  destruct a, b. unfold py_of_contact. cbn.
  intros H. injection H as H1 H2 H3 H4 H5 H6.
  apply py_of_field_inj in H1, H2, H3. congruence.
Qed.

(** Two dictionaries of contacts with the same Python value are equal. *)
Lemma py_of_contacts_inj (d1 d2 : contacts_t) :
  py_of_contacts d1 = py_of_contacts d2 -> d1 = d2.
Proof.
  unfold py_of_contacts. intros H. injection H as H. revert d2 H.
  induction d1 as [|[k1 c1] r1 IH]; intros [|[k2 c2] r2] H;
    cbn [List.map fst snd] in H; try discriminate; [reflexivity|].
  remember (py_of_contact c1) as p1 eqn:E1.
  remember (py_of_contact c2) as p2 eqn:E2.
  injection H as Hk Hc Hr. subst p1 p2. apply py_of_contact_inj in Hc.
  f_equal; [congruence | now apply IH].
Qed.

Lemma wf_py_of_contacts (d : contacts_t) : Dict.wf d -> wf_value (py_of_contacts d).
Proof.
  intros Hwf. unfold py_of_contacts. apply wf_value_dict. split.
  - rewrite List.map_map. cbn [fst]. exact Hwf.
  - clear Hwf. induction d as [|[k c] r IH]; constructor; [|exact IH].
    cbn [snd py_of_contact]. apply wf_value_dict. split.
    + cbn. repeat (constructor; [cbn; intuition discriminate|]). constructor.
    + repeat constructor; cbn; destruct (phone c), (email c), (address c); exact Logic.I.
Qed.

(** C2. Saving a dictionary of contacts writes a text from which loading
    returns the Python value of that dictionary, the same names in the
    same order, each with the same six fields, and of no other
    dictionary: in any state [s2] whose storage file is the one the save
    left, whatever [s2] has in memory, and so right after the save. *)
Theorem save_load_roundtrip (s s2 : state) :
  Dict.wf (contacts s) ->
  storage_file s2 = storage_file (snd (save_contacts s)) ->
  fst (load_contacts s2) = Return (py_of_contacts (contacts s)) /\
  (forall d : contacts_t,
     fst (load_contacts s2) = Return (py_of_contacts d) -> d = contacts s) /\
  snd (load_contacts s2) = s2 /\
  fst (bind save_contacts (fun _ => load_contacts) s) =
    Return (py_of_contacts (contacts s)) /\
  storage_file (snd (bind save_contacts (fun _ => load_contacts) s)) =
    Some (Json.dumps (py_of_contacts (contacts s))) /\
  contacts (snd (bind save_contacts (fun _ => load_contacts) s)) = contacts s.
Proof.
  intros Hwf Hfile. rewrite save_contacts_run in Hfile. cbn [snd storage_file] in Hfile.
  assert (Hload : forall s0,
            storage_file s0 = Some (Json.dumps (py_of_contacts (contacts s))) ->
            load_contacts s0 = (Return (py_of_contacts (contacts s)), s0)).
  { intros s0 H0. unfold load_contacts, bind, read_storage. rewrite H0.
    now rewrite (loads_dumps _ (wf_py_of_contacts _ Hwf)). }
  rewrite (Hload s2 Hfile). cbn [fst snd].
  split; [reflexivity|]. split.
  - intros d H. apply py_of_contacts_inj. congruence.
  - split; [reflexivity|]. unfold bind. rewrite save_contacts_run.
    rewrite Hload by reflexivity.
    cbn [fst snd storage_file contacts]. auto.
Qed.

Lemma save_load_roundtrip_witness :
  Dict.wf (contacts (sample_state [])) /\
  contacts (mkState [] [] [] (storage_file (snd (save_contacts (sample_state []))))
                    None sample_clock 0) = [] /\
  fst (load_contacts
         (mkState [] [] [] (storage_file (snd (save_contacts (sample_state []))))
                  None sample_clock 0)) =
    Return (py_of_contacts sample_contacts).
Proof.
  split; [exact sample_contacts_wf |]. split; [reflexivity|].
  exact (proj1 (save_load_roundtrip (sample_state [])
                  (mkState [] [] [] (storage_file (snd (save_contacts (sample_state []))))
                           None sample_clock 0)
                  sample_contacts_wf eq_refl)).
Defined.


(* ================================================================== *)
(** * Further properties *)

(** ** Validation *)

(** X2. Normalizing is idempotent: the normalized value of a successful
    [validate_phone] is itself accepted and normalizes to itself. *)
Theorem validate_phone_idempotent (raw digits : string) :
  validate_phone raw = (true, Some digits) ->
  validate_phone digits = (true, Some digits).
Proof.
  unfold validate_phone. rewrite !re_sub_nondigit_projection.
  destruct ((10 <=? length (digit_projection raw))%nat &&
            (length (digit_projection raw) <=? 15)%nat) eqn:E; [|discriminate].
  intros H. injection H as H. subst digits.
  assert (Hidem : digit_projection (digit_projection raw) = digit_projection raw).
  { clear E. unfold digit_projection. induction raw as [|c r IH]; [reflexivity|].
    cbn [Text.filter]. destruct (Text.isdigit c) eqn:Ec; [|exact IH].
    cbn [Text.filter]. now rewrite Ec, IH. }
  now rewrite Hidem, E.
Qed.

Lemma validate_phone_idempotent_witness :
  validate_phone "+44 (0)20 7946-0958" = (true, Some "4402079460958") /\
  validate_phone "4402079460958" = (true, Some "4402079460958").
Proof.
  split; [reflexivity |].
  exact (validate_phone_idempotent "+44 (0)20 7946-0958" "4402079460958" eq_refl).
Defined.

(** ** The regular expression of [validate_email] *)

Lemma lang_empty_iff s : regex_lang Regex.Empty s <-> False.
Proof. split; intros H; inversion H. Qed.

Lemma lang_eps_iff s : regex_lang Regex.Eps s <-> s = "".
Proof. split; intros H; [now inversion H | subst; constructor]. Qed.

Lemma lang_class_iff p s :
  regex_lang (Regex.Class p) s <-> exists c, s = String c "" /\ p c = true.
Proof.
  split.
  - intros H. inversion H; subst. eauto.
  - intros [c [-> H]]. now constructor.
Qed.

Lemma lang_cat_iff r1 r2 s :
  regex_lang (Regex.Cat r1 r2) s <->
  exists s1 s2, s = s1 ++ s2 /\ regex_lang r1 s1 /\ regex_lang r2 s2.
Proof.
  split.
  - intros H. inversion H; subst. eauto.
  - intros [s1 [s2 [-> [H1 H2]]]]. now constructor.
Qed.

Lemma lang_alt_iff r1 r2 s :
  regex_lang (Regex.Alt r1 r2) s <-> regex_lang r1 s \/ regex_lang r2 s.
Proof.
  split.
  - intros H. inversion H; subst; auto.
  - intros [H|H]; [now apply lang_alt_l | now apply lang_alt_r].
Qed.

Lemma nullable_iff r : Regex.nullable r = true <-> regex_lang r "".
Proof.
  induction r as [| |p|r1 IH1 r2 IH2|r1 IH1 r2 IH2|r IH]; cbn [Regex.nullable].
  - rewrite lang_empty_iff. split; [discriminate | tauto].
  - rewrite lang_eps_iff. tauto.
  - rewrite lang_class_iff. split; [discriminate | intros [c [H _]]; discriminate].
  - rewrite andb_true_iff, IH1, IH2, lang_cat_iff. split.
    + intros [H1 H2]. exists "", "". auto.
    + intros [s1 [s2 [E [H1 H2]]]].
      destruct s1; [|discriminate]. destruct s2; [|discriminate]. auto.
  - rewrite orb_true_iff, IH1, IH2, lang_alt_iff. tauto.
  - split; [constructor | reflexivity].
Qed.

(** A non-empty word of a starred expression starts with a non-empty
    word of the expression. *)
Lemma star_cons_inv r c s :
  regex_lang (Regex.Star r) (String c s) ->
  exists s1 s2, s = s1 ++ s2 /\ regex_lang r (String c s1) /\
                regex_lang (Regex.Star r) s2.
Proof.
  intros H. remember (Regex.Star r) as e eqn:Ee.
  remember (String c s) as w eqn:Ew. revert c s Ew.
  induction H as [| | | | | |r0 s1 s2 H1 _ H2 IH2]; intros a w' Ew; try discriminate.
  injection Ee as ->. destruct s1 as [|c1 s1].
  - cbn in Ew. exact (IH2 eq_refl _ _ Ew).
  - cbn in Ew. injection Ew as Ha Hw. subst. eauto.
Qed.

(** A word [c s] of a concatenation starts in the first part, or the
    first part is empty and the word is all in the second. *)
Lemma lang_cat_cons r1 r2 c s :
  regex_lang (Regex.Cat r1 r2) (String c s) <->
  (exists s1 s2, s = s1 ++ s2 /\ regex_lang r1 (String c s1) /\ regex_lang r2 s2) \/
  (regex_lang r1 "" /\ regex_lang r2 (String c s)).
Proof.
  rewrite lang_cat_iff. split.
  - intros [s1 [s2 [E [H1 H2]]]]. destruct s1 as [|c1 s1].
    + right. cbn in E. subst. auto.
    + left. cbn in E. injection E as Ha Hw. subst. eauto.
  - intros [[s1 [s2 [-> [H1 H2]]]] | [H1 H2]].
    + exists (String c s1), s2. auto.
    + exists "", (String c s). auto.
Qed.

Lemma deriv_iff r c s :
  regex_lang (Regex.deriv c r) s <-> regex_lang r (String c s).
Proof.
  revert s. induction r as [| |p|r1 IH1 r2 IH2|r1 IH1 r2 IH2|r IH]; intros s;
    cbn [Regex.deriv].
  - rewrite !lang_empty_iff. tauto.
  - rewrite lang_empty_iff, lang_eps_iff. split; [tauto | discriminate].
  - rewrite lang_class_iff. destruct (p c) eqn:Ep.
    + rewrite lang_eps_iff. split.
      * intros ->. eauto.
      * intros [c' [E _]]. congruence.
    + rewrite lang_empty_iff. split; [tauto|].
      intros [c' [E H]]. injection E as -> _. congruence.
  - rewrite lang_cat_cons.
    assert (Hcat : regex_lang (Regex.Cat (Regex.deriv c r1) r2) s <->
                   exists s1 s2, s = s1 ++ s2 /\ regex_lang r1 (String c s1) /\
                                 regex_lang r2 s2).
    { rewrite lang_cat_iff. split; intros [s1 [s2 [E [H1 H2]]]];
        exists s1, s2; (split; [exact E | split; [now apply IH1 | exact H2]]). }
    destruct (Regex.nullable r1) eqn:En.
    + rewrite lang_alt_iff, Hcat, IH2, <- nullable_iff, En. tauto.
    + rewrite Hcat, <- nullable_iff, En. split; [tauto|].
      intros [H|[H _]]; [exact H | discriminate].
  - rewrite !lang_alt_iff, IH1, IH2. tauto.
  - rewrite lang_cat_iff. split.
    + intros [s1 [s2 [-> [H1 H2]]]]. apply IH in H1.
      exact (lang_star_cons _ (String c s1) s2 H1 H2).
    + intros H. destruct (star_cons_inv _ _ _ H) as [s1 [s2 [-> [H1 H2]]]].
      exists s1, s2. split; [reflexivity | split; [now apply IH | exact H2]].
Qed.

(** The matcher decides the language. *)
Lemma fullmatch_iff r s : Regex.fullmatch r s = true <-> regex_lang r s.
Proof.
  revert r. induction s as [|c s IH]; intros r; cbn [Regex.fullmatch].
  - apply nullable_iff.
  - rewrite IH. apply deriv_iff.
Qed.

Lemma lang_star_class p s :
  regex_lang (Regex.Star (Regex.Class p)) s <-> Text.forallb p s = true.
Proof.
  split.
  - intros H. remember (Regex.Star (Regex.Class p)) as e eqn:Ee.
    induction H as [| | | | | |r0 s1 s2 H1 _ H2 IH2]; try discriminate; [reflexivity|].
    injection Ee as ->. apply lang_class_iff in H1. destruct H1 as [c [-> Hc]].
    cbn. now rewrite Hc, IH2.
  - induction s as [|c s IH]; [constructor|].
    cbn [Text.forallb]. rewrite andb_true_iff. intros [Hc Hs].
    apply (lang_star_cons _ (String c "") s); [now constructor | now apply IH].
Qed.

Lemma lang_plus_class p s :
  regex_lang (Regex.plus (Regex.Class p)) s <->
  s <> "" /\ Text.forallb p s = true.
Proof.
  unfold Regex.plus. rewrite lang_cat_iff. split.
  - intros [s1 [s2 [-> [H1 H2]]]]. apply lang_class_iff in H1.
    destruct H1 as [c [-> Hc]]. apply lang_star_class in H2.
    split; [discriminate | cbn; now rewrite Hc, H2].
  - intros [Hne Hall]. destruct s as [|c s]; [congruence|].
    cbn [Text.forallb] in Hall. apply andb_true_iff in Hall. destruct Hall as [Hc Hs].
    exists (String c ""), s. split; [reflexivity|].
    split; [now constructor | now apply lang_star_class].
Qed.

Lemma lang_char n s :
  n < 256 -> (regex_lang (Regex.char n) s <-> s = Text.chr n).
Proof.
  intros Hn. unfold Regex.char, Text.chr. rewrite lang_class_iff. split.
  - intros [c [-> Hc]]. apply Nat.eqb_eq in Hc. unfold Text.code in Hc.
    subst n. now rewrite ascii_nat_embedding.
  - intros ->. exists (ascii_of_nat n). split; [reflexivity|].
    apply Nat.eqb_eq. unfold Text.code. now apply nat_ascii_embedding.
Qed.

Lemma lang_email_pattern s : regex_lang email_pattern s <-> email_shape s.
Proof.
  unfold email_pattern, email_shape.
  rewrite lang_cat_iff. split.
  - intros [loc [r1 [-> [Hloc H]]]]. apply lang_plus_class in Hloc.
    apply lang_cat_iff in H. destruct H as [at_ [r2 [-> [Hat H]]]].
    apply (lang_char 64) in Hat; [|lia].
    apply lang_cat_iff in H. destruct H as [domain [r3 [-> [Hdom H]]]].
    apply lang_plus_class in Hdom.
    apply lang_cat_iff in H. destruct H as [dot [r4 [-> [Hdot H]]]].
    apply (lang_char 46) in Hdot; [|lia].
    apply lang_cat_iff in H. destruct H as [l1 [l2 [-> [Hl1 Hl2]]]].
    apply lang_class_iff in Hl1. destruct Hl1 as [c [-> Hc]].
    apply lang_plus_class in Hl2. destruct Hl2 as [Hne Hall].
    subst at_ dot. exists loc, domain, (String c l2).
    destruct Hloc, Hdom. repeat split; try assumption.
    + destruct l2; [congruence | cbn; lia].
    + cbn. now rewrite Hc, Hall.
  - intros [loc [domain [tld [-> [Hl1 [Hl2 [Hd1 [Hd2 [Hlen Htld]]]]]]]]].
    destruct tld as [|c [|c2 t]]; cbn in Hlen; try lia.
    cbn [Text.forallb] in Htld. apply andb_true_iff in Htld. destruct Htld as [Hc Ht].
    exists loc, ("@" ++ domain ++ "." ++ String c (String c2 t)).
    split; [reflexivity|]. split; [now apply lang_plus_class|].
    apply lang_cat_iff. exists "@", (domain ++ "." ++ String c (String c2 t)).
    split; [reflexivity|]. split; [now apply (lang_char 64); [lia|]|].
    apply lang_cat_iff. exists domain, ("." ++ String c (String c2 t)).
    split; [reflexivity|]. split; [now apply lang_plus_class|].
    apply lang_cat_iff. exists ".", (String c (String c2 t)).
    split; [reflexivity|]. split; [now apply (lang_char 46); [lia|]|].
    apply lang_cat_iff. exists (String c ""), (String c2 t).
    split; [reflexivity|]. split; [now constructor|].
    apply lang_plus_class. split; [discriminate | exact Ht].
Qed.

(** [validate_email] accepts exactly the strings made of a non-empty
    local part of letters, digits and [._%+-], an at sign, a non-empty
    domain of letters, digits, dots and hyphens, a dot and at least two
    letters; as the pattern ends in [$], one newline may follow. *)
Lemma validate_email_cases (s : string) :
  validate_email s = true <->
  email_shape s \/ exists s0, s = s0 ++ Text.nl /\ email_shape s0.
Proof.
  unfold validate_email, Regex.match_anchored.
  rewrite fullmatch_iff, lang_cat_iff. split.
  - intros [s0 [tail [-> [H0 Htail]]]]. apply lang_email_pattern in H0.
    apply lang_alt_iff in Htail. destruct Htail as [Ht|Ht].
    + apply lang_eps_iff in Ht. subst. left. now rewrite append_empty_r.
    + apply (lang_char 10) in Ht; [|lia]. subst. right. eauto.
  - intros [H | [s0 [-> H]]].
    + exists s, "". rewrite append_empty_r. split; [reflexivity|].
      split; [now apply lang_email_pattern | apply lang_alt_l; constructor].
    + exists s0, Text.nl. split; [reflexivity|].
      split; [now apply lang_email_pattern|].
      apply lang_alt_r. now apply (lang_char 10); [lia|].
Qed.
Lemma rev_onto_app acc s : Text.rev_onto acc s = Text.rev s ++ acc.
Proof.
  unfold Text.rev. revert acc. induction s as [|c s IH]; intros acc; [reflexivity|].
  cbn [Text.rev_onto]. rewrite (IH (String c acc)), (IH (String c "")).
  now rewrite append_assoc.
Qed.

Lemma rev_append a b : Text.rev (a ++ b) = Text.rev b ++ Text.rev a.
Proof.
  induction a as [|c a IH].
  - cbn. now rewrite append_empty_r.
  - unfold Text.rev at 1 3. cbn [String.append Text.rev_onto].
    rewrite !rev_onto_app, IH. now rewrite append_assoc.
Qed.

Lemma rev_involutive s : Text.rev (Text.rev s) = s.
Proof.
  induction s as [|c s IH]; [reflexivity|].
  unfold Text.rev at 2. cbn [Text.rev_onto]. rewrite rev_onto_app.
  rewrite rev_append, IH. reflexivity.
Qed.

Lemma lstrip_head s c r : Text.lstrip s = String c r -> Text.isspace c = false.
Proof.
  induction s as [|a s IH]; cbn [Text.lstrip]; [discriminate|].
  destruct (Text.isspace a) eqn:E; [exact IH|].
  intros H. injection H as -> _. exact E.
Qed.

(** What [strip] returns does not end with white space. *)
Lemma strip_no_trailing_space line s0 c :
  Text.strip line = s0 ++ String c "" -> Text.isspace c = false.
Proof.
  unfold Text.strip. intros H.
  apply (f_equal Text.rev) in H. rewrite rev_involutive, rev_append in H.
  exact (lstrip_head _ _ _ H).
Qed.

(** X1. [validate_email] accepts exactly the strings made of a non-empty
    local part of letters, digits and [._%+-], an at sign, a non-empty
    domain of letters, digits, dots and hyphens, a dot and at least two
    letters, possibly followed by one newline (the pattern ends in [$]);
    on a stripped line, as the handlers pass it, no newline can follow. *)
Theorem validate_email_iff :
  (forall s, validate_email s = true <->
             email_shape s \/ exists s0, s = s0 ++ Text.nl /\ email_shape s0) /\
  (forall line, validate_email (Text.strip line) = true <->
                email_shape (Text.strip line)).
Proof.
  split; [exact validate_email_cases|].
  intros line. rewrite validate_email_cases. split; [|auto].
  intros [H | [s0 [E _]]]; [exact H|].
  apply strip_no_trailing_space in E. discriminate.
Qed.

(** ** Statistics by group *)

Lemma getd_set_same g n (acc : Dict.t nat) :
  group_count_of g (Dict.set g n acc) = n.
Proof. unfold group_count_of. now rewrite dict_get_set_same. Qed.

Lemma getd_set_other g g' n (acc : Dict.t nat) :
  g' <> g -> group_count_of g' (Dict.set g n acc) = group_count_of g' acc.
Proof. intros H. unfold group_count_of. now rewrite dict_get_set_other. Qed.

Lemma occurrences_cons g x l :
  occurrences g (x :: l) = ((if String.eqb x g then 1 else 0) + occurrences g l)%nat.
Proof. unfold occurrences. cbn. now destruct (String.eqb x g). Qed.

Lemma tally_count g (l : list string) (acc : Dict.t nat) :
  group_count_of g (fold_left tally l acc) =
  (group_count_of g acc + occurrences g l)%nat.
Proof.
  revert acc. induction l as [|x l IH]; intros acc.
  - cbn. unfold occurrences. cbn. lia.
  - cbn [fold_left]. rewrite IH, occurrences_cons. unfold tally.
    destruct (String.eqb_spec x g) as [->|Hne].
    + rewrite getd_set_same. unfold group_count_of. lia.
    + rewrite getd_set_other by congruence. lia.
Qed.

Lemma tally_mem g (l : list string) (acc : Dict.t nat) :
  Dict.mem g (fold_left tally l acc) =
  Dict.mem g acc || List.existsb (fun x => String.eqb x g) l.
Proof.
  revert acc. induction l as [|x l IH]; intros acc.
  - cbn. now rewrite orb_false_r.
  - cbn [fold_left List.existsb]. rewrite IH. unfold tally, Dict.mem.
    destruct (String.eqb_spec x g) as [->|Hne].
    + rewrite dict_get_set_same. now rewrite orb_true_r.
    + rewrite dict_get_set_other by congruence. reflexivity.
Qed.

Lemma occurrences_zero g l :
  occurrences g l = 0 <-> List.existsb (fun x => String.eqb x g) l = false.
Proof.
  induction l as [|x l IH]; [cbn; tauto|].
  rewrite occurrences_cons. cbn [List.existsb].
  destruct (String.eqb x g); cbn; [split; [lia | discriminate] | exact IH].
Qed.

Lemma tally_sum (l : list string) (acc : Dict.t nat) :
  list_sum (Dict.values (fold_left tally l acc)) =
  (list_sum (Dict.values acc) + List.length l)%nat.
Proof.
  revert acc. induction l as [|x l IH]; intros acc;
    [cbn [fold_left List.length]; lia|].
  cbn [fold_left List.length]. rewrite IH.
  assert (Hstep : list_sum (Dict.values (tally acc x)) = S (list_sum (Dict.values acc))).
  { unfold tally, Dict.values, group_count_of. induction acc as [|[k v] r IHr].
    - reflexivity.
    - cbn [Dict.get Dict.set]. destruct (String.eqb k x) eqn:E.
      + cbn. lia.
      + cbn [List.map snd].
        change (list_sum (v :: ?l)) with (v + list_sum l)%nat.
        rewrite IHr. lia. }
  rewrite Hstep. lia.
Qed.

Lemma tally_wf (l : list string) (acc : Dict.t nat) :
  Dict.wf acc -> Dict.wf (fold_left tally l acc).
Proof.
  revert acc. induction l as [|x l IH]; intros acc H; [exact H|].
  cbn [fold_left]. apply IH. unfold tally. now apply dict_wf_set.
Qed.

Lemma group_counts_tally (d : contacts_t) :
  group_counts d = fold_left tally (List.map group (Dict.values d)) [].
Proof.
  unfold group_counts. generalize (@nil (string * nat)).
  induction (Dict.values d) as [|info r IH]; intros acc; [reflexivity|].
  cbn [fold_left List.map]. apply IH.
Qed.

Lemma keys_tally x (acc : Dict.t nat) :
  Dict.keys (tally acc x) =
  if Dict.mem x acc then Dict.keys acc else (Dict.keys acc ++ [x])%list.
Proof.
  unfold tally. destruct (Dict.mem x acc) eqn:E.
  - now apply dict_keys_set_present.
  - rewrite dict_set_absent by exact E. unfold Dict.keys.
    now rewrite List.map_app.
Qed.

Lemma mem_tally g x (acc : Dict.t nat) :
  Dict.mem g (tally acc x) = Dict.mem g acc || String.eqb g x.
Proof.
  unfold tally, Dict.mem. destruct (String.eqb_spec g x) as [->|Hne].
  - rewrite dict_get_set_same. now rewrite orb_true_r.
  - rewrite dict_get_set_other by exact Hne. now rewrite orb_false_r.
Qed.

Lemma filter_twice {A} (p q : A -> bool) (l : list A) :
  List.filter p (List.filter q l) = List.filter (fun a => q a && p a) l.
Proof.
  induction l as [|a l IH]; [reflexivity|]. cbn [List.filter].
  destruct (q a); cbn [List.filter andb]; [destruct (p a)|]; now rewrite IH.
Qed.

Lemma tally_keys (l : list string) (acc : Dict.t nat) :
  Dict.keys (fold_left tally l acc) =
  (Dict.keys acc ++
   List.filter (fun g => negb (Dict.mem g acc)) (first_occurrences l))%list.
Proof.
  revert acc. induction l as [|x l IH]; intros acc.
  - cbn. now rewrite List.app_nil_r.
  - cbn [fold_left first_occurrences List.filter]. rewrite IH.
    rewrite filter_twice.
    rewrite (List.filter_ext (fun g => negb (Dict.mem g (tally acc x)))
                             (fun a => negb (String.eqb a x) && negb (Dict.mem a acc))).
    + rewrite keys_tally. destruct (Dict.mem x acc); cbn [negb].
      * reflexivity.
      * now rewrite <- List.app_assoc.
    + intros g. rewrite mem_tally. now destruct (Dict.mem g acc), (String.eqb g x).
Qed.

(** X3. The statistics count, for every group, the contacts that have it;
    the groups come in the order in which they first occur in the
    dictionary, and the counts add up to the number of contacts. *)
Theorem group_counts_spec (d : contacts_t) :
  let groups := List.map group (Dict.values d) in
  (forall g, Dict.get g (group_counts d) =
             if (occurrences g groups =? 0)%nat then None
             else Some (occurrences g groups)) /\
  Dict.keys (group_counts d) = first_occurrences groups /\
  list_sum (Dict.values (group_counts d)) = List.length d.
Proof.
  intros groups. rewrite group_counts_tally. fold groups.
  split; [|split].
  - intros g.
    pose proof (tally_count g groups []) as Hc.
    pose proof (tally_mem g groups []) as Hm.
    unfold group_count_of, Dict.mem in Hc, Hm. cbn [Dict.get orb Nat.add] in Hc, Hm.
    destruct (Nat.eqb_spec (occurrences g groups) 0) as [Hz|Hnz].
    + apply occurrences_zero in Hz. rewrite Hz in Hm.
      now destruct (Dict.get g (fold_left tally groups [])).
    + destruct (Dict.get g (fold_left tally groups [])) as [n|].
      * now rewrite Hc.
      * exfalso. apply Hnz. apply occurrences_zero. now rewrite <- Hm.
  - rewrite tally_keys. cbn [Dict.keys List.map List.app].
    clear. induction (first_occurrences groups) as [|x r IH]; [reflexivity|].
    cbn [List.filter]. change (Dict.mem x (@nil (string * nat))) with false.
    cbn [negb]. now rewrite IH.
  - rewrite tally_sum. unfold groups, Dict.values. cbn.
    now rewrite !List.length_map.
Qed.

(** ** Adding a contact *)

(** A prompt loop that meets [rejected] lines it does not accept and
    then a line it accepts: it leaves with the value of that line, after
    one complaint for every rejected line. *)
Lemma prompt_loop_run {A} (body : Prog (option A)) prompt complaint
    (accept : string -> option A) :
  (forall s line rest, stdin s = line :: rest ->
     body s =
     match accept line with
     | Some a => (Return (Some a), after_input prompt rest s)
     | None => (Return None,
                after_output [Print complaint] (after_input prompt rest s))
     end) ->
  forall rejected line rest a s,
    stdin s = (rejected ++ line :: rest)%list ->
    Forall (fun l => accept l = None) rejected ->
    accept line = Some a ->
    while_true body s =
      (Return a,
       mkState (contacts s) rest
               (stdout s ++ retry_output prompt complaint (List.length rejected))%list
               (storage_file s) (csv_file s) (clock s) (ticks s)).
Proof.
  intros Hbody rejected line rest a s Hin Hrej Hacc. unfold while_true.
  assert (Hfuel : (List.length rejected < S (List.length (stdin s)))%nat)
    by (rewrite Hin, List.length_app; cbn; lia).
  revert Hfuel. generalize (S (List.length (stdin s))) as fuel.
  revert s Hin. induction Hrej as [|bad rejected Hbad Hrej IH]; intros s Hin fuel Hfuel.
  - destruct fuel as [|fuel]; [cbn in Hfuel; lia|].
    cbn [iterate]. unfold bind. rewrite (Hbody s line rest Hin), Hacc.
    reflexivity.
  - destruct fuel as [|fuel]; [cbn in Hfuel; lia|].
    cbn [iterate]. unfold bind.
    rewrite (Hbody s bad (rejected ++ line :: rest)%list Hin), Hbad.
    rewrite IH; [|reflexivity | cbn in Hfuel; lia].
    cbn [after_output after_input contacts stdin stdout storage_file csv_file
         clock ticks List.length retry_output].
    now rewrite <- !List.app_assoc.
Qed.

Lemma name_round s line rest :
  stdin s = line :: rest ->
  (line <- input "Enter contact name: " ;;
   let name := Text.strip line in
   if Text.nonempty name then ret (Some name)
   else print "Name cannot be empty!" ;; ret None) s =
  match accept_name line with
  | Some a => (Return (Some a), after_input "Enter contact name: " rest s)
  | None => (Return None,
             after_output [Print "Name cannot be empty!"]
                          (after_input "Enter contact name: " rest s))
  end.
Proof.
  intros Hin. rewrite (bind_input _ _ _ _ _ Hin). unfold accept_name.
  now destruct (Text.nonempty (Text.strip line)).
Qed.

Lemma phone_round s line rest :
  stdin s = line :: rest ->
  (line <- input "Enter phone number: " ;;
   let phone := Text.strip line in
   let '(valid, cleaned) := validate_phone phone in
   if valid then ret (Some cleaned)
   else print "Invalid phone number!" ;; ret None) s =
  match accept_phone line with
  | Some a => (Return (Some a), after_input "Enter phone number: " rest s)
  | None => (Return None,
             after_output [Print "Invalid phone number!"]
                          (after_input "Enter phone number: " rest s))
  end.
Proof.
  intros Hin. rewrite (bind_input _ _ _ _ _ Hin). unfold accept_phone.
  destruct (validate_phone (Text.strip line)) as [[|] cleaned]; reflexivity.
Qed.

Lemma email_round s line rest :
  stdin s = line :: rest ->
  (line <- input "Enter email (optional, press Enter to skip): " ;;
   let email := Text.strip line in
   if negb (Text.nonempty email) || validate_email email then ret (Some email)
   else print "Invalid email format!" ;; ret None) s =
  match accept_email line with
  | Some a => (Return (Some a),
               after_input "Enter email (optional, press Enter to skip): " rest s)
  | None => (Return None,
             after_output [Print "Invalid email format!"]
               (after_input "Enter email (optional, press Enter to skip): " rest s))
  end.
Proof.
  intros Hin. rewrite (bind_input _ _ _ _ _ Hin). unfold accept_email.
  now destruct (negb (Text.nonempty (Text.strip line)) || validate_email (Text.strip line)).
Qed.

(** The whole of [add_contact] on an input that holds, after any number
    of rejected names, phones and addresses, an answer to every prompt. *)
Lemma add_contact_run s bad_names name_line name bad_phones phone_line cleaned
    bad_emails email_line email address_line group_line rest :
  stdin s =
    (bad_names ++ name_line :: bad_phones ++ phone_line ::
     bad_emails ++ email_line :: address_line :: group_line :: rest)%list ->
  Forall (fun l => accept_name l = None) bad_names ->
  accept_name name_line = Some name ->
  Forall (fun l => accept_phone l = None) bad_phones ->
  accept_phone phone_line = Some cleaned ->
  Forall (fun l => accept_email l = None) bad_emails ->
  accept_email email_line = Some email ->
  let info := new_contact cleaned email address_line group_line
                (clock s (ticks s)) (clock s (S (ticks s))) in
  let d' := Dict.set name info (contacts s) in
  add_contact s =
    (Return tt,
     mkState d' rest
       (stdout s ++
        Print (Text.nl ++ "--- ADD NEW CONTACT ---") ::
        retry_output "Enter contact name: " "Name cannot be empty!"
                     (List.length bad_names) ++
        retry_output "Enter phone number: " "Invalid phone number!"
                     (List.length bad_phones) ++
        retry_output "Enter email (optional, press Enter to skip): "
                     "Invalid email format!" (List.length bad_emails) ++
        [Prompt "Enter address (optional): ";
         Prompt "Enter group (Friends/Work/Family/Other): ";
         Print ("✅ Contact '" ++ name ++ "' added successfully!");
         Print "✅ Contacts saved to contacts_data.json"])%list
       (Some (Json.dumps (py_of_contacts d')))
       (csv_file s) (clock s) (S (S (ticks s)))).
Proof.
  intros Hin Hbn Hn Hbp Hp Hbe He info d'. unfold add_contact.
  rewrite bind_print. unfold bind at 1.
  erewrite (prompt_loop_run _ _ _ accept_name name_round bad_names name_line _ name)
    by (try exact Hbn; try exact Hn; cbn [after_output stdin]; exact Hin).
  unfold bind at 1.
  erewrite (prompt_loop_run _ _ _ accept_phone phone_round bad_phones phone_line _ cleaned)
    by (try exact Hbp; try exact Hp; reflexivity).
  unfold bind at 1.
  erewrite (prompt_loop_run _ _ _ accept_email email_round bad_emails email_line _ email)
    by (try exact Hbe; try exact He; reflexivity).
  cbn [after_output contacts stdin stdout storage_file csv_file clock ticks].
  rewrite (bind_input _ address_line (group_line :: rest)) by reflexivity.
  rewrite (bind_input _ group_line rest) by reflexivity.
  cbn [after_input contacts stdin stdout storage_file csv_file clock ticks].
  unfold bind at 1. unfold now at 1.
  cbn [contacts stdin stdout storage_file csv_file clock ticks].
  unfold bind at 1. unfold now at 1.
  cbn [contacts stdin stdout storage_file csv_file clock ticks].
  unfold bind at 1. unfold get_contacts at 1.
  cbn [contacts stdin stdout storage_file csv_file clock ticks].
  unfold bind at 1. unfold put_contacts at 1.
  cbn [contacts stdin stdout storage_file csv_file clock ticks].
  rewrite bind_print, save_contacts_run.
  cbn [after_output contacts stdin stdout storage_file csv_file clock ticks].
  cbn [after_input after_output contacts stdin stdout storage_file csv_file clock ticks].
  subst d' info. unfold new_contact.
  repeat rewrite <- List.app_assoc. cbn [List.app].
  reflexivity.
Qed.


(** ** Reasoning about outcomes *)

Lemma hoare_seq {A B} (P : state -> Prop) (m : Prog A)
    (Q : A -> state -> Prop) (k : A -> Prog B)
    (R : outcome B -> state -> Prop) :
  hoare P m (passing Q R) ->
  (forall a, hoare (Q a) (k a) R) ->
  hoare P (bind m k) R.
Proof.
  intros Hm Hk s HP. unfold bind. specialize (Hm s HP).
  destruct (m s) as [[a|e] s1]; cbn [fst snd passing] in *.
  - exact (Hk a s1 Hm).
  - exact Hm.
Qed.

Lemma hoare_conseq {A} (P P' : state -> Prop) (m : Prog A)
    (Q Q' : outcome A -> state -> Prop) :
  hoare P' m Q' -> (forall s, P s -> P' s) -> (forall o s, Q' o s -> Q o s) ->
  hoare P m Q.
Proof. intros Hm HP HQ s Hs. apply HQ, Hm, HP, Hs. Qed.

Lemma hoare_pure {A} (phi : Prop) (P : state -> Prop) (m : Prog A)
    (Q : outcome A -> state -> Prop) :
  (phi -> hoare P m Q) -> hoare (fun s => P s /\ phi) m Q.
Proof. intros H s [HP Hphi]. exact (H Hphi s HP). Qed.

(** A loop whose every round that goes on has read a line ends: the
    rounds are fewer than the fuel that [while_true] takes. *)
Lemma hoare_while_true {A} (I : state -> Prop) (body : Prog (option A))
    (Q : outcome A -> state -> Prop) :
  (forall n,
     hoare (fun s => I s /\ List.length (stdin s) = n) body
       (fun o s => match o with
                   | Return (Some a) => Q (Return a) s
                   | Return None => I s /\ List.length (stdin s) < n
                   | Raise e => Q (Raise e) s
                   end)) ->
  hoare I (while_true body) Q.
Proof.
  intros Hbody s HI. unfold while_true.
  assert (Hfuel : List.length (stdin s) < S (List.length (stdin s))) by lia.
  revert Hfuel. generalize (S (List.length (stdin s))) as fuel. intros fuel.
  revert s HI. induction fuel as [|fuel IH]; intros s HI Hfuel; [lia|].
  cbn [iterate]. unfold bind.
  specialize (Hbody _ s (conj HI eq_refl)).
  destruct (body s) as [[[a|]|e] s1]; cbn [fst snd] in *.
  - exact Hbody.
  - destruct Hbody as [HI1 Hlt]. apply IH; [exact HI1 | lia].
  - exact Hbody.
Qed.

Lemma hoare_for_each {A S B} (I : state -> Prop) (body : A -> S -> Prog S)
    (R : outcome B -> state -> Prop) (l : list A) :
  (forall x acc, hoare I (body x acc) (passing (fun _ => I) R)) ->
  forall acc, hoare I (for_each l acc body) (passing (fun _ => I) R).
Proof.
  intros Hbody. induction l as [|x l IH]; intros acc.
  - intros s H. exact H.
  - cbn [for_each]. eapply hoare_seq; [apply Hbody | intros acc'; apply IH].
Qed.

Section Framed.
Variables (n : nat) (d0 : contacts_t) (f0 c0 : option string) (clk : nat -> datetime).
Context {B : Type}.
Variable R : outcome B -> state -> Prop.

Lemma framed_print text :
  hoare (framed n d0 f0 c0 clk) (print text)
        (passing (fun _ => framed n d0 f0 c0 clk) R).
Proof. intros s H. exact H. Qed.

Lemma framed_ret {A} (a : A) :
  hoare (framed n d0 f0 c0 clk) (ret a)
        (passing (fun _ => framed n d0 f0 c0 clk) R).
Proof. intros s H. exact H. Qed.

(** [datetime.now()] returns a reading of the clock. *)
Lemma framed_now :
  hoare (framed n d0 f0 c0 clk) now
        (passing (fun t s => framed n d0 f0 c0 clk s /\ exists k, t = clk k) R).
Proof.
  intros s H. unfold now, passing. cbn [fst snd]. split; [exact H|].
  destruct H as [_ [_ [_ [_ Hclk]]]]. exists (ticks s). now rewrite Hclk.
Qed.

Lemma framed_input prompt :
  (forall s, framed n d0 f0 c0 clk s -> R (Raise EOFError) s) ->
  hoare (framed n d0 f0 c0 clk) (input prompt)
        (passing (fun _ => framed n d0 f0 c0 clk) R).
Proof.
  intros Heof s [Hn [Hd [Hf [Hc Hk]]]]. unfold input, passing.
  destruct (stdin s) as [|line rest] eqn:Hin; cbn [fst snd].
  - apply Heof. unfold framed. cbn. repeat split; auto with arith.
  - unfold framed. cbn in *. repeat split; auto; lia.
Qed.

(** A prompt loop from a framed state: every round reads a line, so the
    loop ends; it is enough to look at what one round does with a line. *)
Lemma framed_prompt_loop {A} prompt (k : string -> Prog (option A))
    (Q : A -> state -> Prop) :
  (forall s, framed n d0 f0 c0 clk s -> R (Raise EOFError) s) ->
  (forall line s m, framed n d0 f0 c0 clk s -> List.length (stdin s) < m ->
     match k line s with
     | (Return (Some a), s') => Q a s'
     | (Return None, s') => framed n d0 f0 c0 clk s' /\ List.length (stdin s') < m
     | (Raise e, s') => R (Raise e) s'
     end) ->
  hoare (framed n d0 f0 c0 clk) (while_true (bind (input prompt) k)) (passing Q R).
Proof.
  intros Heof Hk. apply hoare_while_true. intros m.
  intros s [[Hn [Hd [Hf [Hc Hclk]]]] Hm]. unfold bind, input.
  destruct (stdin s) as [|line rest] eqn:Hin; cbn [fst snd].
  - apply Heof. unfold framed. cbn. repeat split; auto with arith.
  - assert (HF : framed n d0 f0 c0 clk
                   (mkState (contacts s) rest (stdout s ++ [Prompt prompt])%list
                            (storage_file s) (csv_file s) (clock s) (ticks s))).
    { unfold framed. cbn in *. repeat split; auto; lia. }
    assert (Hlt : List.length rest < m) by (cbn in Hm; lia).
    pose proof (Hk line _ m HF Hlt) as H.
    destruct (k line _) as [[[a|]|e] s1]; exact H.
Qed.

End Framed.

(** ** How the handlers end *)

Lemma stamped_set name info d :
  stamped d ->
  (exists t, Datetime.valid t = true /\ updated_at info = Datetime.isoformat t) ->
  stamped (Dict.set name info d).
Proof.
  unfold stamped. intros Hd Hi.
  induction d as [|[k v] r IH]; cbn [Dict.set].
  - constructor; [exact Hi | constructor].
  - inversion Hd as [|? ? Hv Hr]; subst.
    destruct (String.eqb k name); constructor; auto.
Qed.

Lemma stamped_del name d : stamped d -> stamped (Dict.del name d).
Proof.
  unfold stamped. intros Hd.
  induction d as [|[k v] r IH]; cbn [Dict.del]; [constructor|].
  inversion Hd as [|? ? Hv Hr]; subst.
  destruct (String.eqb k name); [exact Hr | constructor; auto].
Qed.

Lemma stamped_get name info d :
  stamped d -> Dict.get name d = Some info ->
  exists t, Datetime.valid t = true /\ updated_at info = Datetime.isoformat t.
Proof.
  unfold stamped. intros Hd.
  induction d as [|[k v] r IH]; cbn [Dict.get]; [discriminate|].
  inversion Hd as [|? ? Hv Hr]; subst.
  destruct (String.eqb k name); [|auto].
  intros H. injection H as <-. exact Hv.
Qed.

(** [add_contact] stores and saves a record, or raises [EOFError] having
    changed nothing. *)
Lemma add_contact_ends n d0 f0 c0 clk :
  hoare (framed n d0 f0 c0 clk) add_contact (add_post n d0 f0 c0 clk).
Proof.
  assert (Heof : forall s, framed n d0 f0 c0 clk s ->
                           add_post n d0 f0 c0 clk (Raise EOFError) s).
  { intros s [Hn [Hd [Hf [Hc Hk]]]]. unfold add_post. auto 10. }
  unfold add_contact.
  eapply hoare_seq; [apply framed_print | intros ?].
  eapply hoare_seq with (Q := fun _ => framed n d0 f0 c0 clk).
  { apply framed_prompt_loop; [exact Heof|]. intros line s m HF Hlt.
    destruct (Text.nonempty (Text.strip line)); cbn; auto. }
  intros name.
  eapply hoare_seq with
    (Q := fun cleaned s => framed n d0 f0 c0 clk s /\
                           exists raw, validate_phone raw = (true, cleaned)).
  { apply framed_prompt_loop; [exact Heof|]. intros line s m HF Hlt.
    destruct (validate_phone (Text.strip line)) as [[|] cleaned] eqn:Ev; cbn; eauto. }
  intros cleaned. apply hoare_pure. intros [raw Hraw].
  eapply hoare_seq with (Q := fun _ => framed n d0 f0 c0 clk).
  { apply framed_prompt_loop; [exact Heof|]. intros line s m HF Hlt.
    destruct (negb (Text.nonempty (Text.strip line)) || validate_email (Text.strip line));
      cbn; auto. }
  intros email.
  eapply hoare_seq; [apply framed_input; exact Heof | intros address_line].
  eapply hoare_seq; [apply framed_input; exact Heof | intros group_line].
  eapply hoare_seq with (Q := fun _ => framed n d0 f0 c0 clk).
  { eapply hoare_conseq; [apply (framed_now n d0 f0 c0 clk (add_post n d0 f0 c0 clk)) | auto |].
    intros [t|e] s H; [exact (proj1 H) | exact H]. }
  intros created.
  eapply hoare_seq; [apply framed_now | intros updated].
  apply hoare_pure. intros [k Hk].
  intros s [Hn [Hd [Hf [Hc Hclk]]]].
  unfold bind, get_contacts, put_contacts, print. rewrite save_contacts_run.
  unfold add_post, saved.
  cbn [fst snd contacts stdin stdout storage_file csv_file clock ticks].
  split; [exact Hn | split; [exact Hc | split; [exact Hclk|]]].
  split; [|reflexivity].
  eexists name, _, raw, k. split; [|split]; cycle 2.
  - rewrite Hd. reflexivity.
  - exact Hraw.
  - cbn. now rewrite Hk.
Qed.

(** *** [update_contact] *)

Lemma created_same_refl d : created_same d d.
Proof. intros k i H. eauto. Qed.

Section Updating.
Variables (n : nat) (d0 : contacts_t) (f0 c0 : option string) (clk : nat -> datetime).

Let R := update_post n d0 f0 c0 clk.

Lemma updating_raise s : updating n d0 f0 c0 clk s -> R (Raise EOFError) s.
Proof.
  intros [Hn [Hc [Hclk [Hf [Hk [Hcr Hst]]]]]]. unfold R, update_post. auto 10.
Qed.

Lemma updating_print text :
  hoare (updating n d0 f0 c0 clk) (print text)
        (passing (fun _ => updating n d0 f0 c0 clk) R).
Proof. intros s H. exact H. Qed.

Lemma updating_ret :
  hoare (updating n d0 f0 c0 clk) (ret tt)
        (passing (fun _ => updating n d0 f0 c0 clk) R).
Proof. intros s H. exact H. Qed.

Lemma updating_now :
  hoare (updating n d0 f0 c0 clk) now
        (passing (fun t s => updating n d0 f0 c0 clk s /\ exists k, t = clk k) R).
Proof.
  intros s H. unfold now, passing. cbn [fst snd]. split; [exact H|].
  destruct H as [_ [_ [Hclk _]]]. exists (ticks s). now rewrite Hclk.
Qed.

Lemma updating_input prompt :
  hoare (updating n d0 f0 c0 clk) (input prompt)
        (passing (fun _ => updating n d0 f0 c0 clk) R).
Proof.
  intros s H. pose proof H as [Hn [Hc [Hclk [Hf [Hk [Hcr Hst]]]]]].
  unfold input, passing.
  destruct (stdin s) as [|line rest] eqn:Hin; cbn [fst snd].
  - apply updating_raise. unfold updating. cbn. repeat split; auto with arith.
  - unfold updating. cbn in *. repeat split; auto; lia.
Qed.

(** A change of the record under a name that is present cannot fail; it
    keeps the state of the update when it keeps [created_at] and leaves
    [updated_at] alone or sets it to a reading of the clock. *)
Lemma updating_modify name f :
  Dict.mem name d0 = true ->
  (forall info, created_at (f info) = created_at info) ->
  (forall info, updated_at (f info) = updated_at info \/
                exists k, updated_at (f info) = Datetime.isoformat (clk k)) ->
  hoare (updating n d0 f0 c0 clk) (modify_record name f)
        (passing (fun _ => updating n d0 f0 c0 clk) R).
Proof.
  intros Hmem Hf Hu s [Hn [Hc [Hclk [Hs [Hk [Hcr Hst]]]]]].
  unfold modify_record, bind, get_contacts. cbn [fst snd].
  assert (Hpresent : Dict.mem name (contacts s) = true).
  { apply dict_mem_in_keys. rewrite Hk. now apply dict_mem_in_keys. }
  destruct (Dict.get name (contacts s)) as [info|] eqn:Hget.
  - unfold put_contacts, passing, updating.
    cbn [fst snd contacts stdin stdout storage_file csv_file clock ticks].
    split; [exact Hn | split; [exact Hc | split; [exact Hclk | split; [exact Hs|]]]].
    split; [|split].
    + rewrite dict_keys_set_present by exact Hpresent. exact Hk.
    + intros k i Hi. destruct (string_dec k name) as [->|Hne].
      * rewrite dict_get_set_same in Hi. injection Hi as <-.
        destruct (Hcr _ _ Hget) as [i0 [H0 E0]]. exists i0.
        split; [exact H0 | now rewrite Hf].
      * rewrite dict_get_set_other in Hi by exact Hne. eauto.
    + intros Hvc Hst0. specialize (Hst Hvc Hst0). apply stamped_set; [exact Hst|].
      destruct (Hu info) as [E | [k E]].
      * rewrite E. exact (stamped_get _ _ _ Hst Hget).
      * exists (clk k). split; [apply Hvc | exact E].
  - unfold Dict.mem in Hpresent. rewrite Hget in Hpresent. discriminate.
Qed.

Lemma updating_skip (b : bool) (m : Prog unit) :
  hoare (updating n d0 f0 c0 clk) m
        (passing (fun _ => updating n d0 f0 c0 clk) R) ->
  hoare (updating n d0 f0 c0 clk) (if b then m else ret tt)
        (passing (fun _ => updating n d0 f0 c0 clk) R).
Proof. intros Hm. destruct b; [exact Hm | apply updating_ret]. Qed.

Lemma update_contact_ends :
  hoare (framed n d0 f0 c0 clk) update_contact (update_post n d0 f0 c0 clk).
Proof.
  assert (Hstart : forall s, framed n d0 f0 c0 clk s -> updating n d0 f0 c0 clk s).
  { intros s [Hn [Hd [Hf [Hc Hclk]]]]. unfold updating. rewrite Hd.
    repeat split; auto. apply created_same_refl. }
  unfold update_contact.
  eapply hoare_seq with (Q := fun _ => framed n d0 f0 c0 clk).
  { apply framed_input. intros s H. apply updating_raise. auto. }
  intros line0.
  eapply hoare_seq with (Q := fun d s => framed n d0 f0 c0 clk s /\ d = d0).
  { intros s H. cbn. split; [exact H | apply H]. }
  intros d. apply hoare_pure. intros ->.
  destruct (Dict.mem (Text.strip line0) d0) eqn:Hmem; cbn [negb].
  - eapply hoare_conseq with (P' := updating n d0 f0 c0 clk)
                             (Q' := update_post n d0 f0 c0 clk);
      [|exact Hstart | auto].
    eapply hoare_seq; [apply updating_print | intros ?].
    eapply hoare_seq; [apply updating_input | intros line1].
    eapply hoare_seq with (Q := fun _ => updating n d0 f0 c0 clk).
    { destruct (Text.nonempty (Text.strip line1)); [|apply updating_ret].
      destruct (validate_phone (Text.strip line1)) as [[|] cleaned];
        [|apply updating_ret].
      apply updating_modify; [exact Hmem | reflexivity | auto]. }
    intros ?.
    eapply hoare_seq; [apply updating_input | intros line2].
    eapply hoare_seq;
      [apply updating_skip, updating_modify; [exact Hmem | reflexivity | auto]
      | intros ?].
    eapply hoare_seq; [apply updating_input | intros line3].
    eapply hoare_seq;
      [apply updating_skip, updating_modify; [exact Hmem | reflexivity | auto]
      | intros ?].
    eapply hoare_seq; [apply updating_input | intros line4].
    eapply hoare_seq;
      [apply updating_skip, updating_modify; [exact Hmem | reflexivity | auto]
      | intros ?].
    eapply hoare_seq; [apply updating_now | intros t].
    apply hoare_pure. intros [k Hk].
    eapply hoare_seq.
    { apply updating_modify; [exact Hmem | reflexivity |].
      intros info. right. exists k. cbn. now rewrite Hk. }
    intros ?.
    intros s [Hn [Hc [Hclk [Hf [Hkeys [Hcr Hst]]]]]].
    unfold bind, print. rewrite save_contacts_run. unfold update_post, saved.
    cbn [fst snd contacts stdin stdout storage_file csv_file clock ticks].
    repeat split; auto.
  - intros s [Hn [Hd [Hf [Hc Hclk]]]]. unfold print, update_post.
    cbn [fst snd contacts stdin stdout storage_file csv_file clock ticks].
    rewrite Hd. repeat split; auto. apply created_same_refl.
Qed.

End Updating.

(** *** [delete_contact] *)

Lemma delete_contact_ends n d0 f0 c0 clk :
  hoare (framed n d0 f0 c0 clk) delete_contact (delete_post n d0 f0 c0 clk).
Proof.
  intros s [Hn [Hd [Hf [Hc Hclk]]]]. unfold delete_post.
  destruct (stdin s) as [|line rest] eqn:Hin.
  - unfold delete_contact, bind, input. rewrite Hin.
    cbn [fst snd contacts stdin stdout storage_file csv_file clock ticks List.length].
    repeat split; auto with arith.
  - assert (Hlen : List.length rest <= n) by (cbn in Hn; lia).
    destruct (Dict.mem (Text.strip line) (contacts s)) eqn:Hmem.
    + rewrite (delete_present_run _ _ _ Hin Hmem). unfold saved.
      cbn [fst snd contacts stdin stdout storage_file csv_file clock ticks].
      split; [exact Hlen | split; [exact Hc | split; [exact Hclk|]]].
      right. exists (Text.strip line). rewrite <- Hd. auto.
    + rewrite (delete_absent_run _ _ _ Hin Hmem).
      cbn [fst snd contacts stdin stdout storage_file csv_file clock ticks].
      split; [exact Hlen | split; [exact Hc | split; [exact Hclk|]]]. auto.
Qed.

(** *** The handlers that only read *)

Lemma search_contact_ends n d0 f0 c0 clk :
  hoare (framed n d0 f0 c0 clk) search_contact
        (reading_post n d0 f0 clk (eq c0) (fun e => e = EOFError)).
Proof.
  intros s [Hn [Hd [Hf [Hc Hclk]]]]. unfold reading_post.
  destruct (stdin s) as [|line rest] eqn:Hin.
  - unfold search_contact, bind, input. rewrite Hin.
    cbn [fst snd contacts stdin stdout storage_file csv_file clock ticks List.length].
    repeat split; auto with arith.
  - rewrite (search_contact_run _ _ _ Hin).
    cbn [fst snd after_output after_input contacts stdin stdout storage_file
         csv_file clock ticks].
    cbn in Hn. repeat split; auto; lia.
Qed.

Lemma view_all_contacts_ends n d0 f0 c0 clk :
  hoare (framed n d0 f0 c0 clk) view_all_contacts
        (reading_post n d0 f0 clk (eq c0) (fun _ => False)).
Proof.
  assert (Hdone : forall s, framed n d0 f0 c0 clk s ->
            reading_post n d0 f0 clk (eq c0) (fun _ => False) (Return tt) s).
  { intros s [Hn [Hd [Hf [Hc Hclk]]]]. unfold reading_post. auto 10. }
  unfold view_all_contacts.
  eapply hoare_seq with (Q := fun _ => framed n d0 f0 c0 clk);
    [intros s H; exact H | intros d].
  eapply hoare_seq; [apply framed_print | intros ?].
  eapply hoare_seq; [apply framed_print | intros ?].
  destruct d as [|kv d].
  - intros s H. apply Hdone. exact H.
  - eapply hoare_conseq with
      (P' := framed n d0 f0 c0 clk)
      (Q' := passing (fun _ => framed n d0 f0 c0 clk)
                     (reading_post n d0 f0 clk (eq c0) (fun _ => False)));
      [|auto|].
    + apply hoare_for_each. intros [name info] [].
      eapply hoare_seq; [apply framed_print | intros ?].
      eapply hoare_seq; [apply framed_print | intros ?].
      eapply hoare_seq with (Q := fun _ => framed n d0 f0 c0 clk).
      { destruct (truthy (email info)); [apply framed_print | apply framed_ret]. }
      intros ?.
      eapply hoare_seq; [apply framed_print | intros ?].
      apply framed_print.
    + intros [[]|e] s H; [apply Hdone; exact H | exact H].
Qed.

Lemma export_to_csv_ends n d0 f0 c0 clk :
  hoare (framed n d0 f0 c0 clk) export_to_csv
        (reading_post n d0 f0 clk (fun _ => True) (fun _ => False)).
Proof.
  intros s [Hn [Hd [Hf [Hc Hclk]]]]. rewrite export_to_csv_run.
  unfold reading_post.
  cbn [fst snd contacts stdin stdout storage_file csv_file clock ticks].
  repeat split; auto.
Qed.

Lemma view_statistics_ends n d0 f0 c0 clk :
  hoare (framed n d0 f0 c0 clk) view_statistics
        (reading_post n d0 f0 clk (eq c0) (fun e => e = ValueError)).
Proof.
  set (R := reading_post n d0 f0 clk (eq c0) (fun e => e = ValueError)).
  assert (Hraise : forall s, framed n d0 f0 c0 clk s -> R (Raise ValueError) s).
  { intros s [Hn [Hd [Hf [Hc Hclk]]]]. unfold R, reading_post. auto 10. }
  unfold view_statistics.
  eapply hoare_seq; [apply framed_print | intros ?].
  eapply hoare_seq with (Q := fun _ => framed n d0 f0 c0 clk);
    [intros s H; exact H | intros d].
  eapply hoare_seq; [apply framed_print | intros ?].
  eapply hoare_seq; [apply framed_print | intros ?].
  eapply hoare_seq.
  { apply hoare_for_each. intros [g c] []. apply framed_print. }
  intros ?.
  eapply hoare_seq.
  { apply hoare_for_each. intros info recent.
    destruct (Datetime.fromisoformat (updated_at info)) as [updated|].
    - eapply hoare_seq with (Q := fun _ => framed n d0 f0 c0 clk).
      { eapply hoare_conseq; [apply (framed_now n d0 f0 c0 clk R) | auto |].
        intros [t|e] s H; [exact (proj1 H) | exact H]. }
      intros current. destruct (recently current updated); apply framed_ret.
    - intros s H. apply Hraise. exact H. }
  intros recent s [Hn [Hd [Hf [Hc Hclk]]]]. unfold R, reading_post.
  cbn [fst snd print contacts stdin stdout storage_file csv_file clock ticks].
  repeat split; auto.
Qed.

Lemma stamped_updates d :
  stamped d ->
  exists updates,
    List.map updated_at (Dict.values d) = List.map Datetime.isoformat updates /\
    Forall (fun u => Datetime.valid u = true) updates.
Proof.
  unfold stamped. induction 1 as [|[k info] r [t [Hv Ht]] _ [updates [Hm Hf]]].
  - exists []. split; [reflexivity | constructor].
  - exists (t :: updates). split; [|now constructor].
    unfold Dict.values in *. cbn [List.map snd] in *. now rewrite Ht, Hm.
Qed.

(** On a dictionary whose time stamps are well formed the statistics
    cannot fail. *)
Lemma view_statistics_stamped n d0 f0 c0 clk :
  stamped d0 ->
  hoare (framed n d0 f0 c0 clk) view_statistics
        (reading_post n d0 f0 clk (eq c0) (fun _ => False)).
Proof.
  intros Hst s [Hn [Hd [Hf [Hc Hclk]]]].
  destruct (stamped_updates d0 Hst) as [updates [Hm Hv]]. rewrite <- Hd in Hm.
  rewrite (view_statistics_run _ _ Hm Hv). unfold reading_post.
  cbn [fst snd contacts stdin stdout storage_file csv_file clock ticks].
  repeat split; auto.
Qed.

(** ** The menu *)

Lemma show_menu_run s : show_menu s = (Return tt, after_output menu_text s).
Proof.
  unfold show_menu. rewrite !bind_print. rewrite print_run.
  rewrite !after_output_app. reflexivity.
Qed.

(** The statistics fail only on a time stamp that is not well formed. *)
Lemma view_statistics_fails n d0 f0 c0 clk :
  hoare (framed n d0 f0 c0 clk) view_statistics
        (reading_post n d0 f0 clk (eq c0)
                      (fun e => e = ValueError /\ ~ stamped d0)).
Proof.
  intros s HF.
  pose proof (view_statistics_ends n d0 f0 c0 clk s HF) as H1.
  unfold reading_post in *.
  destruct H1 as [Hn [Hd [Hf [Hclk [Hc Ho]]]]].
  repeat (split; [assumption|]).
  destruct (fst (view_statistics s)) as [[]|e] eqn:E; [exact Logic.I|].
  split; [exact Ho|]. intros Hst.
  pose proof (view_statistics_stamped n d0 f0 c0 clk Hst s HF) as H2.
  unfold reading_post in H2. rewrite E in H2. tauto.
Qed.

Lemma session_inv_same_contacts d0 clk s s' :
  session_inv d0 clk s -> contacts s' = contacts s -> clock s' = clk ->
  session_inv d0 clk s'.
Proof.
  intros [Hclk [Hwf [Hpv Hst]]] Hd Hc. unfold session_inv. rewrite Hd. auto.
Qed.

Lemma framed_here n s :
  List.length (stdin s) <= n ->
  framed n (contacts s) (storage_file s) (csv_file s) (clock s) s.
Proof. intros H. unfold framed. auto. Qed.

Lemma add_contact_keeps_session : keeps_session add_contact.
Proof.
  intros d0 clk n s [Hclk [Hwf [Hpv Hst]]] Hn.
  pose proof (add_contact_ends _ _ _ _ _ s (framed_here n s Hn)) as H.
  unfold add_post in H. destruct H as [Hn' [_ [Hclk' H]]].
  unfold session_inv, session_error.
  destruct (fst (add_contact s)) as [[]|e].
  - destruct H as [[name [info [raw [k [Hraw [Hup Hset]]]]]] _]. rewrite Hset.
    split; [|auto]. split; [congruence|]. split; [|split].
    + intros H0. apply dict_wf_set. auto.
    + intros H0. apply phones_valid_set; [auto|]. eapply validate_phone_ok; eauto.
    + intros Hvc H0. apply stamped_set; [auto|].
      exists (clock s k). split; [rewrite Hclk; apply Hvc | exact Hup].
  - destruct H as [-> [Hd _]]. rewrite Hd. split; [|auto].
    split; [congruence | auto].
Qed.

Lemma update_contact_keeps_session : keeps_session update_contact.
Proof.
  intros d0 clk n s [Hclk [Hwf [Hpv Hst]]] Hn.
  pose proof (update_contact_ends _ _ _ _ _ s (framed_here n s Hn)) as H.
  unfold update_post in H.
  destruct H as [Hn' [_ [Hclk' [Hkeys [_ [Hstamp H]]]]]].
  assert (Hphones : phones_valid (contacts s) ->
                    phones_valid (contacts (snd (update_contact s)))).
  { intros H0. pose proof (update_keeps_phones_valid s H0) as T.
    destruct (update_contact s) as [[[]|e] s1]; exact T. }
  unfold session_inv, session_error. split; [|split; [exact Hn'|]].
  - split; [congruence|]. split; [|split].
    + intros H0. unfold Dict.wf. rewrite Hkeys. apply Hwf, H0.
    + auto.
    + intros Hvc H0. rewrite Hclk in Hstamp. auto.
  - destruct (fst (update_contact s)) as [[]|e]; [exact Logic.I|].
    left. apply H.
Qed.

Lemma delete_contact_keeps_session : keeps_session delete_contact.
Proof.
  intros d0 clk n s [Hclk [Hwf [Hpv Hst]]] Hn.
  pose proof (delete_contact_ends _ _ _ _ _ s (framed_here n s Hn)) as H.
  unfold delete_post in H. destruct H as [Hn' [_ [Hclk' H]]].
  unfold session_inv, session_error.
  destruct (fst (delete_contact s)) as [[]|e].
  - split; [|auto]. split; [congruence|].
    destruct H as [[Hd _] | [name [_ [Hd _]]]]; rewrite Hd.
    + auto.
    + split; [|split].
      * intros H0. apply dict_wf_del. auto.
      * intros H0. apply phones_valid_del. auto.
      * intros Hvc H0. apply stamped_del. auto.
  - destruct H as [-> [Hd _]]. rewrite Hd. split; [|auto].
    split; [congruence | auto].
Qed.

(** A handler that leaves dictionary and clock alone keeps the session. *)
Lemma reading_keeps_session (h : Prog unit) (csv : option string -> option string -> Prop)
    (allowed : contacts_t -> exn -> Prop) :
  (forall n d0 f0 c0 clk,
     hoare (framed n d0 f0 c0 clk) h
           (reading_post n d0 f0 clk (csv c0) (allowed d0))) ->
  (forall d e, allowed d e -> e = EOFError \/ (e = ValueError /\ ~ stamped d)) ->
  keeps_session h.
Proof.
  intros Hh Hall d0 clk n s [Hclk [Hwf [Hpv Hst]]] Hn.
  pose proof (Hh _ _ _ _ _ s (framed_here n s Hn)) as H.
  unfold reading_post in H. destruct H as [Hn' [Hd [_ [Hclk' [_ H]]]]].
  unfold session_inv, session_error. rewrite Hd.
  split; [split; [congruence | auto] | split; [exact Hn'|]].
  destruct (fst (h s)) as [[]|e]; [exact Logic.I|].
  destruct (Hall _ _ H) as [He | [He Hns]]; [now left | right].
  split; [exact He|]. intros [Hvc H0]. apply Hns. apply Hst; assumption.
Qed.

Lemma search_contact_keeps_session : keeps_session search_contact.
Proof.
  apply (reading_keeps_session _ (fun c0 => eq c0) (fun _ e => e = EOFError)).
  - intros. apply search_contact_ends.
  - auto.
Qed.

Lemma view_all_contacts_keeps_session : keeps_session view_all_contacts.
Proof.
  apply (reading_keeps_session _ (fun c0 => eq c0) (fun _ _ => False)).
  - intros. apply view_all_contacts_ends.
  - tauto.
Qed.

Lemma export_to_csv_keeps_session : keeps_session export_to_csv.
Proof.
  apply (reading_keeps_session _ (fun _ _ => True) (fun _ _ => False)).
  - intros. apply export_to_csv_ends.
  - tauto.
Qed.

Lemma view_statistics_keeps_session : keeps_session view_statistics.
Proof.
  apply (reading_keeps_session _ (fun c0 => eq c0)
           (fun d e => e = ValueError /\ ~ stamped d)).
  - intros. apply view_statistics_fails.
  - auto.
Qed.

Lemma handler_round (h : Prog unit) d0 clk n s :
  keeps_session h ->
  session_inv d0 clk s -> List.length (stdin s) <= n ->
  session_inv d0 clk (snd ((h ;; ret (@None unit)) s)) /\
  List.length (stdin (snd ((h ;; ret (@None unit)) s))) <= n /\
  match fst ((h ;; ret (@None unit)) s) with
  | Return (Some _) => saved (snd ((h ;; ret (@None unit)) s))
  | Return None => True
  | Raise e => session_error d0 clk e
  end.
Proof.
  intros Hh HI Hn. destruct (Hh d0 clk n s HI Hn) as [H1 [H2 H3]].
  unfold bind. destruct (h s) as [[[]|e] s1]; cbn [fst snd ret] in *; auto.
Qed.

Lemma dispatch_spec choice d0 clk n s :
  session_inv d0 clk s -> List.length (stdin s) <= n ->
  session_inv d0 clk (snd (dispatch choice s)) /\
  List.length (stdin (snd (dispatch choice s))) <= n /\
  match fst (dispatch choice s) with
  | Return (Some _) => saved (snd (dispatch choice s))
  | Return None => True
  | Raise e => session_error d0 clk e
  end.
Proof.
  intros HI Hn. unfold dispatch.
  destruct (String.eqb choice "1");
    [apply handler_round; auto using add_contact_keeps_session|].
  destruct (String.eqb choice "2");
    [apply handler_round; auto using search_contact_keeps_session|].
  destruct (String.eqb choice "3");
    [apply handler_round; auto using update_contact_keeps_session|].
  destruct (String.eqb choice "4");
    [apply handler_round; auto using delete_contact_keeps_session|].
  destruct (String.eqb choice "5");
    [apply handler_round; auto using view_all_contacts_keeps_session|].
  destruct (String.eqb choice "6");
    [apply handler_round; auto using export_to_csv_keeps_session|].
  destruct (String.eqb choice "7");
    [apply handler_round; auto using view_statistics_keeps_session|].
  destruct (String.eqb choice "8").
  - unfold bind. rewrite save_contacts_run. unfold print, ret, saved.
    cbn [fst snd contacts stdin stdout storage_file csv_file clock ticks].
    split; [|auto]. apply (session_inv_same_contacts d0 clk s); [exact HI | reflexivity|].
    apply HI.
  - unfold bind, print, ret.
    cbn [fst snd contacts stdin stdout storage_file csv_file clock ticks].
    split; [|auto]. apply (session_inv_same_contacts d0 clk s); [exact HI | reflexivity|].
    apply HI.
Qed.

Lemma menu_round_run s :
  menu_round s =
  match stdin s with
  | [] => (Raise EOFError,
           after_output (menu_text ++ [Prompt "Enter your choice (1-8): "])%list s)
  | choice :: rest =>
      dispatch choice
        (after_input "Enter your choice (1-8): " rest (after_output menu_text s))
  end.
Proof.
  unfold menu_round, bind. rewrite show_menu_run. unfold input.
  unfold after_input, after_output.
  cbn [contacts stdin stdout storage_file csv_file clock ticks].
  destruct (stdin s) as [|choice rest].
  - now rewrite <- List.app_assoc.
  - reflexivity.
Qed.

(** A session keeps its invariant and ends: by choice 8 with the
    dictionary saved, or by an exception that a session may raise. *)
Lemma main_loop_ends d0 clk :
  hoare (session_inv d0 clk) main_loop
        (fun o s => session_inv d0 clk s /\
                    match o with
                    | Return _ => saved s
                    | Raise e => session_error d0 clk e
                    end).
Proof.
  unfold main_loop. apply hoare_while_true. intros n s [HI Hn].
  rewrite menu_round_run.
  destruct (stdin s) as [|choice rest] eqn:Hin.
  - cbn [fst snd]. split; [|left; reflexivity].
    apply (session_inv_same_contacts d0 clk s); [exact HI | reflexivity | apply HI].
  - set (s1 := after_input _ rest _).
    assert (HI1 : session_inv d0 clk s1)
      by (apply (session_inv_same_contacts d0 clk s); [exact HI | reflexivity | apply HI]).
    assert (Hn1 : List.length (stdin s1) <= List.length rest) by (cbn; lia).
    destruct (dispatch_spec choice d0 clk _ s1 HI1 Hn1) as [H1 [H2 H3]].
    cbn [List.length] in Hn.
    destruct (dispatch choice s1) as [[[[]|]|e] s2]; cbn [fst snd] in *.
    + auto.
    + split; [exact H1 | lia].
    + auto.
Qed.

Lemma session_inv_start s : session_inv (contacts s) (clock s) s.
Proof. unfold session_inv. auto. Qed.


(** ** Properties of the handlers *)

Lemma dict_set_set {V} k (v1 v2 : V) d :
  Dict.set k v2 (Dict.set k v1 d) = Dict.set k v2 d.
Proof.
  induction d as [|[k0 v0] r IH]; cbn [Dict.set].
  - now rewrite String.eqb_refl.
  - destruct (String.eqb k0 k) eqn:E; cbn [Dict.set]; rewrite E;
      [reflexivity | now rewrite IH].
Qed.

Lemma dict_set_same_value {V} k (v : V) d :
  Dict.get k d = Some v -> Dict.set k v d = d.
Proof.
  induction d as [|[k0 v0] r IH]; cbn [Dict.get Dict.set]; [discriminate|].
  destruct (String.eqb k0 k) eqn:E.
  - intros H. now injection H as ->.
  - intros H. now rewrite IH.
Qed.

Lemma dict_del_set_absent {V} k (v : V) d :
  Dict.mem k d = false -> Dict.del k (Dict.set k v d) = d.
Proof.
  unfold Dict.mem. induction d as [|[k0 v0] r IH]; cbn [Dict.get Dict.set Dict.del].
  - now rewrite String.eqb_refl.
  - destruct (String.eqb k0 k) eqn:E; [discriminate|].
    intros H. cbn [Dict.del]. rewrite E. now rewrite IH.
Qed.

(** X4. [add_contact] on an input that, after any number of rejected
    names, phones and emails, answers every prompt: the rejected
    lines leave no trace in the record; an existing name is overwritten
    in place and a new one goes last; a blank group becomes "Other";
    the new dictionary is saved. *)
Theorem add_contact_spec (s : state)
    (bad_names : list string) (name_line name : string)
    (bad_phones : list string) (phone_line : string) (cleaned : option string)
    (bad_emails : list string) (email_line email address_line group_line : string)
    (rest : list string) :
  stdin s =
    (bad_names ++ name_line :: bad_phones ++ phone_line ::
     bad_emails ++ email_line :: address_line :: group_line :: rest)%list ->
  Forall (fun l => accept_name l = None) bad_names ->
  accept_name name_line = Some name ->
  Forall (fun l => accept_phone l = None) bad_phones ->
  accept_phone phone_line = Some cleaned ->
  Forall (fun l => accept_email l = None) bad_emails ->
  accept_email email_line = Some email ->
  let info := new_contact cleaned email address_line group_line
                (clock s (ticks s)) (clock s (S (ticks s))) in
  let s' := snd (add_contact s) in
  fst (add_contact s) = Return tt /\
  contacts s' = Dict.set name info (contacts s) /\
  Dict.get name (contacts s') = Some info /\
  (forall k, k <> name -> Dict.get k (contacts s') = Dict.get k (contacts s)) /\
  Dict.keys (contacts s') =
    (if Dict.mem name (contacts s) then Dict.keys (contacts s)
     else (Dict.keys (contacts s) ++ [name])%list) /\
  saved s' /\ stdin s' = rest /\ csv_file s' = csv_file s.
Proof.
  intros Hin Hbn Hn Hbp Hp Hbe He info s'. subst s'.
  rewrite (add_contact_run _ _ _ _ _ _ _ _ _ _ _ _ _ Hin Hbn Hn Hbp Hp Hbe He).
  fold info. unfold saved.
  cbn [fst snd contacts stdin storage_file csv_file].
  split; [reflexivity|]. split; [reflexivity|]. split; [apply dict_get_set_same|].
  split; [intros k Hk; now apply dict_get_set_other|].
  split; [|auto].
  destruct (Dict.mem name (contacts s)) eqn:E.
  - now apply dict_keys_set_present.
  - rewrite dict_set_absent by exact E. unfold Dict.keys. now rewrite List.map_app.
Qed.

Lemma add_contact_spec_witness :
  accept_name "   " = None /\ accept_phone "12345" = None /\
  accept_email "bob@nowhere" = None /\
  Dict.get "Bob"
    (contacts (snd (add_contact
       (sample_state ["   "; " Bob "; "12345"; "(555) 010-9999"; "bob@nowhere";
                      "bob@example.org"; ""; ""])))) =
  Some (mkContact (Some "5550109999") (Some "bob@example.org") None "Other"
                  "2024-01-09T01:00:00" "2024-01-09T01:00:00.000001").
Proof.
  split; [reflexivity | split; [reflexivity | split; [reflexivity|]]].
  refine (proj1 (proj2 (proj2
    (add_contact_spec
       (sample_state ["   "; " Bob "; "12345"; "(555) 010-9999"; "bob@nowhere";
                      "bob@example.org"; ""; ""])
       ["   "] " Bob " "Bob" ["12345"] "(555) 010-9999" (Some "5550109999")
       ["bob@nowhere"] "bob@example.org" "bob@example.org" "" "" []
       eq_refl _ eq_refl _ eq_refl _ eq_refl))));
    (constructor; [reflexivity | constructor]).
Defined.

(** X5. The end of the input cannot leave half a contact behind: when
    [add_contact] ends with [EOFError], at whichever prompt, dictionary
    and storage file are as they were; when it returns, one record is
    stored, whose phone a successful [validate_phone] normalized, and
    the dictionary is saved.  The export file is never written. *)
Theorem add_contact_eof_keeps_state (s : state) :
  let s' := snd (add_contact s) in
  csv_file s' = csv_file s /\
  match fst (add_contact s) with
  | Return _ =>
      (exists name info raw,
         validate_phone raw = (true, phone info) /\
         contacts s' = Dict.set name info (contacts s)) /\
      saved s'
  | Raise EOFError =>
      contacts s' = contacts s /\ storage_file s' = storage_file s
  | Raise _ => True
  end.
Proof.
  intros s'. subst s'.
  pose proof (add_contact_ends _ _ _ _ _ s (framed_here _ s (le_n _))) as H.
  unfold add_post in H. destruct H as [_ [Hc [_ H]]]. split; [exact Hc|].
  destruct (fst (add_contact s)) as [[]|e].
  - destruct H as [[name [info [raw [k [Hraw [_ Hset]]]]]] Hsaved].
    split; [eauto | exact Hsaved].
  - destruct e; try exact Logic.I. exact (proj2 H).
Qed.

(** X6. Adding a contact under a name that is not in the dictionary and
    then deleting that name gives the dictionary back as it was, and
    the storage file holds it. *)
Theorem add_then_delete_restores (s : state)
    (name_line phone_line email_line address_line group_line delete_line : string)
    (name : string) (cleaned : option string) (email : string) (rest : list string) :
  stdin s = name_line :: phone_line :: email_line :: address_line ::
            group_line :: delete_line :: rest ->
  accept_name name_line = Some name ->
  accept_phone phone_line = Some cleaned ->
  accept_email email_line = Some email ->
  Text.strip delete_line = name ->
  Dict.mem name (contacts s) = false ->
  let s' := snd ((add_contact ;; delete_contact) s) in
  fst ((add_contact ;; delete_contact) s) = Return tt /\
  contacts s' = contacts s /\
  saved s'.
Proof.
  intros Hin Hn Hp He Hdel Habs s'. subst s'. unfold bind.
  rewrite (add_contact_run s [] name_line name [] phone_line cleaned []
             email_line email address_line group_line (delete_line :: rest)
             Hin (Forall_nil _) Hn (Forall_nil _) Hp (Forall_nil _) He).
  set (info := new_contact _ _ _ _ _ _).
  erewrite delete_present_run; [| reflexivity |].
  - unfold saved. cbn [fst snd contacts storage_file]. rewrite Hdel.
    rewrite dict_del_set_absent by exact Habs. auto.
  - cbn [contacts]. rewrite Hdel. unfold Dict.mem. now rewrite dict_get_set_same.
Qed.

Lemma add_then_delete_restores_witness :
  Dict.mem "Bob" (contacts (sample_state
     ["Bob"; "5550109999"; ""; ""; "Friends"; " Bob"])) = false /\
  contacts (snd ((add_contact ;; delete_contact)
     (sample_state ["Bob"; "5550109999"; ""; ""; "Friends"; " Bob"]))) =
  sample_contacts.
Proof.
  split; [reflexivity|].
  exact (proj1 (proj2
    (add_then_delete_restores
       (sample_state ["Bob"; "5550109999"; ""; ""; "Friends"; " Bob"])
       "Bob" "5550109999" "" "" "Friends" " Bob" "Bob" (Some "5550109999") "" []
       eq_refl eq_refl eq_refl eq_refl eq_refl eq_refl))).
Defined.

(** A change of the record under [name], made or skipped, when the
    dictionary is [d] with [info] stored under [name]. *)
Lemma modify_if_run (b : bool) name f info (d : contacts_t) s :
  contacts s = Dict.set name info d ->
  (if b then modify_record name f else ret tt) s =
    (Return tt,
     mkState (Dict.set name (if b then f info else info) d) (stdin s) (stdout s)
             (storage_file s) (csv_file s) (clock s) (ticks s)).
Proof.
  intros Hd. destruct b.
  - rewrite (modify_record_run name f info)
      by (rewrite Hd; apply dict_get_set_same).
    now rewrite Hd, dict_set_set.
  - unfold ret. rewrite <- Hd. now destruct s.
Qed.

Lemma update_contact_run s l0 l1 l2 l3 l4 rest info :
  stdin s = l0 :: l1 :: l2 :: l3 :: l4 :: rest ->
  Dict.get (Text.strip l0) (contacts s) = Some info ->
  let d' := Dict.set (Text.strip l0)
              (updated_contact l1 l2 l3 l4 (clock s (ticks s)) info)
              (contacts s) in
  update_contact s =
    (Return tt,
     mkState d' rest
             (stdout s ++ [Prompt "Enter contact name to update: ";
                           Print "Leave blank to keep existing value.";
                           Prompt "New phone number: ";
                           Prompt "New email: ";
                           Prompt "New address: ";
                           Prompt "New group: ";
                           Print "✅ Contact updated successfully!";
                           Print "✅ Contacts saved to contacts_data.json"])%list
             (Some (Json.dumps (py_of_contacts d')))
             (csv_file s) (clock s) (S (ticks s))).
Proof.
  intros Hin Hget d'. unfold update_contact.
  rewrite (bind_input _ _ _ _ _ Hin).
  unfold bind at 1. unfold get_contacts at 1. cbn [after_input contacts].
  assert (Hmem : Dict.mem (Text.strip l0) (contacts s) = true)
    by (apply dict_mem_get; eauto).
  rewrite Hmem. cbn [negb].
  unfold bind at 1. unfold print at 1.
  cbn [contacts stdin stdout storage_file csv_file clock ticks].
  rewrite (bind_input _ l1 (l2 :: l3 :: l4 :: rest)) by reflexivity.
  set (n := Text.strip l0) in *.
  (* the phone *)
  unfold bind at 1.
  replace (if Text.nonempty (Text.strip l1)
           then let '(valid, cleaned) := validate_phone (Text.strip l1) in
                if valid then modify_record n (set_phone cleaned) else ret tt
           else ret tt)
    with (if Text.nonempty (Text.strip l1) && fst (validate_phone (Text.strip l1))
          then modify_record n (set_phone (snd (validate_phone (Text.strip l1))))
          else ret tt)
    by (destruct (Text.nonempty (Text.strip l1));
        destruct (validate_phone (Text.strip l1)) as [[|] c]; reflexivity).
  rewrite (modify_if_run _ n _ info (contacts s))
    by (cbn [after_input contacts]; symmetry; now apply dict_set_same_value).
  cbn [after_input contacts stdin stdout storage_file csv_file clock ticks].
  set (i1 := if Text.nonempty (Text.strip l1) && _ then _ else info).
  (* the address for mail *)
  rewrite (bind_input _ l2 (l3 :: l4 :: rest)) by reflexivity.
  unfold bind at 1.
  rewrite (modify_if_run _ n _ i1 (contacts s)) by reflexivity.
  cbn [after_input contacts stdin stdout storage_file csv_file clock ticks].
  set (i2 := if Text.nonempty (Text.strip l2) && _ then _ else i1).
  (* the address *)
  rewrite (bind_input _ l3 (l4 :: rest)) by reflexivity.
  unfold bind at 1.
  rewrite (modify_if_run _ n _ i2 (contacts s)) by reflexivity.
  cbn [after_input contacts stdin stdout storage_file csv_file clock ticks].
  set (i3 := if Text.nonempty (Text.strip l3) then _ else i2).
  (* the group *)
  rewrite (bind_input _ l4 rest) by reflexivity.
  unfold bind at 1.
  rewrite (modify_if_run _ n _ i3 (contacts s)) by reflexivity.
  cbn [after_input contacts stdin stdout storage_file csv_file clock ticks].
  set (i4 := if Text.nonempty (Text.strip l4) then _ else i3).
  (* the time stamp *)
  unfold bind at 1. unfold now at 1.
  cbn [contacts stdin stdout storage_file csv_file clock ticks].
  unfold bind at 1.
  rewrite (modify_if_run true n _ i4 (contacts s)) by reflexivity.
  rewrite bind_print, save_contacts_run.
  cbn [after_output contacts stdin stdout storage_file csv_file clock ticks].
  assert (Hrec : set_updated_at (Datetime.isoformat (clock s (ticks s))) i4
                 = updated_contact l1 l2 l3 l4 (clock s (ticks s)) info).
  { unfold updated_contact. subst i4 i3 i2 i1.
    destruct (Text.nonempty (Text.strip l4)), (Text.nonempty (Text.strip l3)),
             (Text.nonempty (Text.strip l2) && validate_email (Text.strip l2)),
             (Text.nonempty (Text.strip l1) && fst (validate_phone (Text.strip l1)));
      reflexivity. }
  rewrite Hrec. fold d'.
  repeat rewrite <- List.app_assoc. reflexivity.
Qed.

(** X7. [update_contact] on a name that is present and four answers: a
    blank answer keeps the field; a phone that fails [validate_phone] or
    an email that fails [validate_email] is dropped without a word; in
    every case [updated_at] is set to the current time, [created_at] and
    the place of the name are kept, and the dictionary is saved. *)
Theorem update_contact_spec
    (s : state) (l0 l1 l2 l3 l4 : string) (rest : list string) (info : contact) :
  stdin s = l0 :: l1 :: l2 :: l3 :: l4 :: rest ->
  Dict.get (Text.strip l0) (contacts s) = Some info ->
  let n := Text.strip l0 in
  let info' := updated_contact l1 l2 l3 l4 (clock s (ticks s)) info in
  let s' := snd (update_contact s) in
  fst (update_contact s) = Return tt /\
  contacts s' = Dict.set n info' (contacts s) /\
  Dict.get n (contacts s') = Some info' /\
  (forall k, k <> n -> Dict.get k (contacts s') = Dict.get k (contacts s)) /\
  Dict.keys (contacts s') = Dict.keys (contacts s) /\
  saved s' /\
  stdout s' =
    (stdout s ++ [Prompt "Enter contact name to update: ";
                  Print "Leave blank to keep existing value.";
                  Prompt "New phone number: ";
                  Prompt "New email: ";
                  Prompt "New address: ";
                  Prompt "New group: ";
                  Print "✅ Contact updated successfully!";
                  Print "✅ Contacts saved to contacts_data.json"])%list.
Proof.
  intros Hin Hget n info' s'. subst s'.
  rewrite (update_contact_run _ _ _ _ _ _ _ _ Hin Hget). fold n. fold info'.
  unfold saved. cbn [fst snd contacts stdout storage_file].
  split; [reflexivity|]. split; [reflexivity|]. split; [apply dict_get_set_same|].
  split; [intros k Hk; now apply dict_get_set_other|].
  split; [|auto]. apply dict_keys_set_present. apply dict_mem_get. eauto.
Qed.

Lemma update_contact_spec_witness :
  Dict.get "Alice" (contacts (sample_state ["Alice"; "12"; "nobody"; ""; "Friends"])) =
    Some sample_alice /\
  Dict.get "Alice"
    (contacts (snd (update_contact
       (sample_state ["Alice"; "12"; "nobody"; ""; "Friends"])))) =
  Some (mkContact (Some "5551234567") (Some "alice@example.com") None "Friends"
                  "2024-01-01T23:00:00" "2024-01-09T01:00:00").
Proof.
  split; [reflexivity|].
  exact (proj1 (proj2 (proj2
    (update_contact_spec (sample_state ["Alice"; "12"; "nobody"; ""; "Friends"])
       "Alice" "12" "nobody" "" "Friends" [] sample_alice eq_refl eq_refl)))).
Defined.

(** X8. Whatever is typed, [update_contact] adds, removes or moves no
    name, changes no [created_at] and never writes the export file.
    When it returns, nothing has changed (the name was not found) or the
    dictionary is saved; when the input ends at one of its prompts, the
    storage file is as it was. *)
Theorem update_contact_frame (s : state) :
  let s' := snd (update_contact s) in
  Dict.keys (contacts s') = Dict.keys (contacts s) /\
  created_same (contacts s) (contacts s') /\
  csv_file s' = csv_file s /\
  match fst (update_contact s) with
  | Return _ =>
      (contacts s' = contacts s /\ storage_file s' = storage_file s) \/ saved s'
  | Raise EOFError => storage_file s' = storage_file s
  | Raise _ => True
  end.
Proof.
  intros s'. subst s'.
  pose proof (update_contact_ends _ _ _ _ _ s (framed_here _ s (le_n _))) as H.
  unfold update_post in H.
  destruct H as [_ [Hc [_ [Hk [Hcr [_ H]]]]]].
  split; [exact Hk|]. split; [exact Hcr|]. split; [exact Hc|].
  destruct (fst (update_contact s)) as [[]|e]; [exact H|].
  destruct e; try exact Logic.I. exact (proj2 H).
Qed.

Lemma update_interrupted_run s l0 l1 info cleaned :
  stdin s = [l0; l1] ->
  Dict.get (Text.strip l0) (contacts s) = Some info ->
  Text.nonempty (Text.strip l1) = true ->
  validate_phone (Text.strip l1) = (true, cleaned) ->
  update_contact s =
    (Raise EOFError,
     mkState (Dict.set (Text.strip l0) (set_phone cleaned info) (contacts s)) []
             (stdout s ++ [Prompt "Enter contact name to update: ";
                           Print "Leave blank to keep existing value.";
                           Prompt "New phone number: ";
                           Prompt "New email: "])%list
             (storage_file s) (csv_file s) (clock s) (ticks s)).
Proof.
  intros Hin Hget Hne Hv. unfold update_contact.
  rewrite (bind_input _ _ _ _ _ Hin).
  unfold bind at 1. unfold get_contacts at 1. cbn [after_input contacts].
  assert (Hmem : Dict.mem (Text.strip l0) (contacts s) = true)
    by (apply dict_mem_get; eauto).
  rewrite Hmem. cbn [negb].
  unfold bind at 1. unfold print at 1.
  cbn [contacts stdin stdout storage_file csv_file clock ticks].
  rewrite (bind_input _ l1 []) by reflexivity.
  rewrite Hne, Hv. unfold bind at 1.
  rewrite (modify_record_run _ _ info) by exact Hget.
  cbn [after_input contacts stdin stdout storage_file csv_file clock ticks].
  unfold bind, input.
  cbn [contacts stdin stdout storage_file csv_file clock ticks].
  repeat rewrite <- List.app_assoc. reflexivity.
Qed.

(** X9. When the input ends right after a valid new phone,
    [update_contact] raises [EOFError] with the phone already replaced
    in memory, [updated_at] not refreshed and the storage file not
    written: memory and file differ until something saves. *)
Theorem update_interrupted_after_phone
    (s : state) (l0 l1 : string) (info : contact) (cleaned : option string) :
  stdin s = [l0; l1] ->
  Dict.get (Text.strip l0) (contacts s) = Some info ->
  Text.nonempty (Text.strip l1) = true ->
  validate_phone (Text.strip l1) = (true, cleaned) ->
  let s' := snd (update_contact s) in
  fst (update_contact s) = Raise EOFError /\
  Dict.get (Text.strip l0) (contacts s') = Some (set_phone cleaned info) /\
  storage_file s' = storage_file s.
Proof.
  intros Hin Hget Hne Hv s'. subst s'.
  rewrite (update_interrupted_run _ _ _ _ _ Hin Hget Hne Hv).
  cbn [fst snd contacts storage_file].
  split; [reflexivity|]. split; [apply dict_get_set_same | reflexivity].
Qed.

Lemma update_interrupted_after_phone_witness :
  stdin (sample_state ["Alice"; "555 000 1111"]) = ["Alice"; "555 000 1111"] /\
  Dict.get "Alice" (contacts (snd (update_contact
     (sample_state ["Alice"; "555 000 1111"])))) =
  Some (mkContact (Some "5550001111") (Some "alice@example.com") None "Work"
                  "2024-01-01T23:00:00" "2024-01-01T23:00:00") /\
  storage_file (snd (update_contact (sample_state ["Alice"; "555 000 1111"]))) = None.
Proof.
  split; [reflexivity|].
  exact (proj2
    (update_interrupted_after_phone (sample_state ["Alice"; "555 000 1111"])
       "Alice" "555 000 1111" sample_alice (Some "5550001111")
       eq_refl eq_refl eq_refl eq_refl)).
Defined.


(** X10. The four handlers that only show data leave the dictionary and
    the storage file as they are, however they end; [search_contact],
    [view_all_contacts] and [view_statistics] leave the export file
    too, and none of the four puts a line back on the input. *)
Theorem showing_handlers_change_nothing (s : state) :
  (contacts (snd (search_contact s)) = contacts s /\
   storage_file (snd (search_contact s)) = storage_file s /\
   csv_file (snd (search_contact s)) = csv_file s /\
   List.length (stdin (snd (search_contact s))) <= List.length (stdin s)) /\
  (contacts (snd (view_all_contacts s)) = contacts s /\
   storage_file (snd (view_all_contacts s)) = storage_file s /\
   csv_file (snd (view_all_contacts s)) = csv_file s /\
   List.length (stdin (snd (view_all_contacts s))) <= List.length (stdin s)) /\
  (contacts (snd (export_to_csv s)) = contacts s /\
   storage_file (snd (export_to_csv s)) = storage_file s /\
   List.length (stdin (snd (export_to_csv s))) <= List.length (stdin s)) /\
  (contacts (snd (view_statistics s)) = contacts s /\
   storage_file (snd (view_statistics s)) = storage_file s /\
   csv_file (snd (view_statistics s)) = csv_file s /\
   List.length (stdin (snd (view_statistics s))) <= List.length (stdin s)).
Proof.
  pose proof (framed_here _ s (le_n _)) as HF.
  pose proof (search_contact_ends _ _ _ _ _ s HF) as H1.
  pose proof (view_all_contacts_ends _ _ _ _ _ s HF) as H2.
  pose proof (export_to_csv_ends _ _ _ _ _ s HF) as H3.
  pose proof (view_statistics_ends _ _ _ _ _ s HF) as H4.
  unfold reading_post in *.
  destruct H1 as [H1n [H1a [H1b [_ [H1c _]]]]].
  destruct H2 as [H2n [H2a [H2b [_ [H2c _]]]]].
  destruct H3 as [H3n [H3a [H3b _]]].
  destruct H4 as [H4n [H4a [H4b [_ [H4c _]]]]].
  split; [exact (conj H1a (conj H1b (conj (eq_sym H1c) H1n)))|].
  split; [exact (conj H2a (conj H2b (conj (eq_sym H2c) H2n)))|].
  split; [exact (conj H3a (conj H3b H3n))|].
  exact (conj H4a (conj H4b (conj (eq_sym H4c) H4n))).
Qed.

(** X11. A choice that is none of the eight digits, compared as it was
    typed (a digit with a blank beside it is such a choice), makes a round
    of the menu print the menu, the prompt and the complaint and go on to
    the next round: dictionary, files and clock are as they were. *)
Theorem menu_invalid_choice (s : state) (choice : string) (rest : list string) :
  stdin s = choice :: rest ->
  ~ In choice ["1"; "2"; "3"; "4"; "5"; "6"; "7"; "8"] ->
  menu_round s =
    (Return None,
     mkState (contacts s) rest
             (stdout s ++ menu_text ++
              [Prompt "Enter your choice (1-8): "; Print "Invalid choice!"])%list
             (storage_file s) (csv_file s) (clock s) (ticks s)).
Proof.
  intros Hin Hno. rewrite menu_round_run, Hin. unfold dispatch.
  assert (Hneq : forall c, In c ["1"; "2"; "3"; "4"; "5"; "6"; "7"; "8"] ->
                           String.eqb choice c = false).
  { intros c Hc. apply String.eqb_neq. intros ->. exact (Hno Hc). }
  rewrite !Hneq by (cbn [In]; tauto).
  unfold bind, print, ret, after_input, after_output.
  cbn [fst snd contacts stdin stdout storage_file csv_file clock ticks].
  repeat rewrite <- List.app_assoc. reflexivity.
Qed.

Lemma menu_invalid_choice_witness :
  fst (menu_round (sample_state [" 1"; "8"])) = Return None /\
  stdin (snd (menu_round (sample_state [" 1"; "8"]))) = ["8"] /\
  contacts (snd (menu_round (sample_state [" 1"; "8"]))) = sample_contacts.
Proof.
  assert (Hno : ~ In " 1" ["1"; "2"; "3"; "4"; "5"; "6"; "7"; "8"])
    by (cbn [In]; intuition discriminate).
  rewrite (menu_invalid_choice (sample_state [" 1"; "8"]) " 1" ["8"] eq_refl Hno).
  repeat split.
Defined.

(** X12. The loop of [main] ends on every input: each round reads a line,
    so one round more than there are lines left is always enough, and the
    outcome is never [Diverged].  When it ends by choice 8 the storage
    file holds the dictionary in memory. *)
Theorem session_ends (s : state) :
  match fst (main_loop s) with
  | Return _ => saved (snd (main_loop s))
  | Raise e => e <> Diverged
  end.
Proof.
  pose proof (main_loop_ends _ _ s (session_inv_start s)) as [_ H].
  destruct (fst (main_loop s)) as [[]|e]; [exact H|].
  unfold session_error in H.
  destruct H as [H | [H _]]; rewrite H; discriminate.
Qed.

(** X13. Through a whole session, whatever is chosen and typed, the names
    stay distinct and every stored phone stays a string of 10 to 15
    decimal digits, if it was so when the session began. *)
Theorem session_keeps_phones_valid (s : state) :
  Dict.wf (contacts s) -> phones_valid (contacts s) ->
  Dict.wf (contacts (snd (main_loop s))) /\
  phones_valid (contacts (snd (main_loop s))).
Proof.
  intros Hwf Hpv.
  pose proof (main_loop_ends _ _ s (session_inv_start s)) as [[_ [H1 [H2 _]]] _].
  auto.
Qed.

Lemma session_keeps_phones_valid_witness :
  phones_valid (contacts (sample_state ["4"; "Natalie"; "9"; "8"])) /\
  phones_valid (contacts (snd (main_loop (sample_state ["4"; "Natalie"; "9"; "8"])))).
Proof.
  split; [exact sample_contacts_phones_valid|].
  exact (proj2 (session_keeps_phones_valid (sample_state ["4"; "Natalie"; "9"; "8"])
                  sample_contacts_wf sample_contacts_phones_valid)).
Defined.

(** X14. If every [updated_at] is a well formed time stamp when the
    session begins and the clock gives valid times, then every
    [updated_at] is a well formed time stamp when the session ends,
    whatever was chosen and typed. *)
Theorem session_keeps_stamps (s : state) :
  valid_clock (clock s) -> stamped (contacts s) ->
  stamped (contacts (snd (main_loop s))) /\
  clock (snd (main_loop s)) = clock s.
Proof.
  intros Hvc Hst.
  pose proof (main_loop_ends _ _ s (session_inv_start s)) as [[Hclk [_ [_ H1]]] _].
  split; [exact (H1 Hvc Hst) | exact Hclk].
Qed.

Lemma sample_contacts_stamped : stamped sample_contacts.
Proof.
  unfold stamped, sample_contacts.
  constructor; [|constructor; [|constructor]]; cbn [snd updated_at].
  - exists (mkDatetime 2024 1 1 23 0 0 0). split; vm_compute; reflexivity.
  - exists (mkDatetime 2024 1 5 9 0 0 0). split; vm_compute; reflexivity.
Qed.

Lemma session_keeps_stamps_witness :
  stamped (contacts (steady_state ["3"; "Natalie"; ""; ""; ""; "Work"; "8"])) /\
  stamped (contacts (snd (main_loop
     (steady_state ["3"; "Natalie"; ""; ""; ""; "Work"; "8"])))).
Proof.
  split; [exact sample_contacts_stamped|].
  exact (proj1 (session_keeps_stamps
                  (steady_state ["3"; "Natalie"; ""; ""; ""; "Work"; "8"])
                  (fun _ => eq_refl) sample_contacts_stamped)).
Defined.

(** X15. What choice 8 leaves on disk is what the next start reads: after
    a session that ends by choice 8, from distinct names, [load_contacts]
    in any state [s2] with the storage file the session left, whatever
    [s2] has in memory, returns the Python value of the dictionary the
    session ended with, and of no other dictionary. *)
Theorem session_then_load (s s2 : state) :
  Dict.wf (contacts s) ->
  fst (main_loop s) = Return tt ->
  storage_file s2 = storage_file (snd (main_loop s)) ->
  fst (load_contacts s2) = Return (py_of_contacts (contacts (snd (main_loop s)))) /\
  forall d : contacts_t,
    fst (load_contacts s2) = Return (py_of_contacts d) ->
    d = contacts (snd (main_loop s)).
Proof.
  intros Hwf Hret Hfile.
  pose proof (main_loop_ends _ _ s (session_inv_start s)) as [[_ [H1 _]] H2].
  rewrite Hret in H2. unfold saved in H2. rewrite H2 in Hfile.
  assert (E : fst (load_contacts s2) =
              Return (py_of_contacts (contacts (snd (main_loop s))))).
  { unfold load_contacts, bind, read_storage. rewrite Hfile.
    rewrite (loads_dumps _ (wf_py_of_contacts _ (H1 Hwf))). reflexivity. }
  split; [exact E|].
  intros d Hd. apply py_of_contacts_inj. congruence.
Qed.

Lemma session_then_load_witness :
  fst (main_loop (steady_state ["4"; "Alice"; "8"])) = Return tt /\
  fst (load_contacts
         (mkState [] [] []
            (storage_file (snd (main_loop (steady_state ["4"; "Alice"; "8"]))))
            None steady_clock 0)) =
    Return (py_of_contacts [("Natalie", sample_natalie)]).
Proof.
  split; [vm_compute; reflexivity|].
  rewrite (proj1 (session_then_load (steady_state ["4"; "Alice"; "8"])
                    (mkState [] [] []
                       (storage_file (snd (main_loop (steady_state ["4"; "Alice"; "8"]))))
                       None steady_clock 0)
                    sample_contacts_wf ltac:(vm_compute; reflexivity)
                    ltac:(vm_compute; reflexivity))).
  vm_compute. reflexivity.
Defined.
